(** * The vSphere simulator's property collector

    A shallow embedding of [pkg/vsphere/simulator/property_collector.go]:
    the reflective property resolver ([fieldValue], [fieldValueInterface],
    [fieldRefs], [isEmpty]), the traversal engine ([retrieveResult.collect],
    [collectAll], [collectFields]) and the service entry points
    ([PropertyCollector.collect], [RetrievePropertiesEx],
    [RetrieveProperties]).

    Go's [reflect] package is modelled by self-describing values: a value
    carries its kind and, where Go needs it, its static type.  A panic is
    an explicit outcome of the [run] monad. *)

From Stdlib Require Import ZArith Ascii String.
From stdpp Require Import base option list strings gmap.

Set Warnings "-register-all".
Set Default Proof Using "Type".
Set Warnings "-clear-no-such-hyp".

(** ** Outcomes *)

Inductive panic : Type :=
| BoundsPanic       (* slice bounds out of range: s[:1] on an empty string *)
| ReflectPanic      (* a reflect method used on the wrong kind, index or nil *)
| ZeroValuePanic    (* reflect.Value.Elem called on the zero Value *)
| AssertPanic       (* a failed interface type assertion *)
| NilPanic.         (* a nil pointer dereference *)

(** A Go call either returns or panics. *)
Inductive run (A : Type) : Type :=
| Ret (a : A)
| Panic (p : panic).
Arguments Ret {A} a.
Arguments Panic {A} p.

#[global] Instance run_ret : MRet run := @Ret.
#[global] Instance run_bind : MBind run := λ A B f m,
  match m with
  | Ret a => f a
  | Panic p => Panic p
  end.
#[global] Instance run_fmap : FMap run := λ A B f m,
  match m with
  | Ret a => Ret (f a)
  | Panic p => Panic p
  end.

(** The recursive visits run on a budget: they return, panic, or exhaust it. *)
Inductive fueled (A : Type) : Type :=
| Done (a : A)
| Panicked (p : panic)
| OutOfFuel.
Arguments Done {A} a.
Arguments Panicked {A} p.
Arguments OutOfFuel {A}.

#[global] Instance fueled_ret : MRet fueled := @Done.
#[global] Instance fueled_bind : MBind fueled := λ A B f m,
  match m with
  | Done a => f a
  | Panicked p => Panicked p
  | OutOfFuel => OutOfFuel
  end.

Definition lift {A : Type} (m : run A) : fueled A :=
  match m with
  | Ret a => Done a
  | Panic p => Panicked p
  end.

(** ** Strings: [strings.Split], [strings.ToUpper], [strings.ToLower], [path.Base] *)

(** [strings.Split(s, sep)] for a one-byte separator; the result is never empty. *)
Fixpoint split_on (sep : ascii) (s : string) : list string :=
  match s with
  | EmptyString => [""]
  | String c s' =>
      if decide (c = sep) then "" :: split_on sep s'
      else match split_on sep s' with
           | x :: xs => String c x :: xs
           | [] => [String c ""]
           end
  end.

(** One byte through [strings.ToUpper] / [strings.ToLower]: the ASCII letters
    change case, every other byte is kept (a lone byte above 0x7f is no
    letter, and the mapping leaves an unchanged string as it is). *)
Definition upper_byte (c : ascii) : ascii :=
  let n := N_of_ascii c in
  if ((97 <=? n) && (n <=? 122))%N then ascii_of_N (n - 32) else c.

Definition lower_byte (c : ascii) : ascii :=
  let n := N_of_ascii c in
  if ((65 <=? n) && (n <=? 90))%N then ascii_of_N (n + 32) else c.

(** [lcFirst]: [strings.ToLower(s[:1]) + s[1:]]; [s[:1]] panics on the
    empty string. *)
Definition lcFirst (s : string) : run string :=
  match s with
  | EmptyString => Panic BoundsPanic
  | String c rest => Ret (String (lower_byte c) rest)
  end.

(** [ucFirst]: [strings.ToUpper(s[:1]) + s[1:]]; [s[:1]] panics on the
    empty string. *)
Definition ucFirst (s : string) : run string :=
  match s with
  | EmptyString => Panic BoundsPanic
  | String c rest => Ret (String (upper_byte c) rest)
  end.

(** [path.Base]: the last element of a slash-separated path, trailing
    slashes removed; a dot for the empty path, a slash for a path made of
    slashes only. *)
Fixpoint last_nonempty (segs : list string) : option string :=
  match segs with
  | [] => None
  | s :: rest =>
      match last_nonempty rest with
      | Some x => Some x
      | None => if decide (s = "") then None else Some s
      end
  end.

Definition path_Base (p : string) : string :=
  if decide (p = "") then "."
  else match last_nonempty (split_on "/" p) with
       | None => "/"
       | Some s => s
       end.

(** ** Reflection: types and values *)

Record fieldOf (A : Type) : Type := mkField {
  fname : string;      (* StructField.Name *)
  fanon : bool;        (* StructField.Anonymous: an embedded field *)
  fbody : A
}.
Arguments mkField {A} fname fanon fbody.
Arguments fname {A} f.
Arguments fanon {A} f.
Arguments fbody {A} f.

(** [reflect.Type]. *)
Inductive rtype : Type :=
| TBool
| TInt32
| TString
| TPtr (elem : rtype)
| TSlice (elem : rtype)
| TStruct (pkg name : string) (fields : list (fieldOf rtype)).

(** A Go value as [reflect] sees it.  A nil pointer and a slice keep their
    element type, which Go knows statically. *)
Inductive value : Type :=
| VBool (b : bool)
| VInt32 (z : Z)
| VString (s : string)
| VNil (elem : rtype)
| VPtr (v : value)
| VSlice (elem : rtype) (vs : list value)
| VStruct (pkg name : string) (fields : list (fieldOf value)).

(** [Type.Name]: empty for the unnamed pointer and slice types. *)
Definition Type_Name (t : rtype) : string :=
  match t with
  | TBool => "bool"
  | TInt32 => "int32"
  | TString => "string"
  | TPtr _ | TSlice _ => ""
  | TStruct _ name _ => name
  end.

(** [Type.PkgPath]: empty for predeclared and unnamed types. *)
Definition Type_PkgPath (t : rtype) : string :=
  match t with
  | TStruct pkg _ _ => pkg
  | _ => ""
  end.

(** [Type.Elem]: panics unless the kind is Ptr or Slice. *)
Definition Type_Elem (t : rtype) : run rtype :=
  match t with
  | TPtr e | TSlice e => Ret e
  | _ => Panic ReflectPanic
  end.

Fixpoint Value_Type (v : value) : rtype :=
  match v with
  | VBool _ => TBool
  | VInt32 _ => TInt32
  | VString _ => TString
  | VNil t => TPtr t
  | VPtr w => TPtr (Value_Type w)
  | VSlice t _ => TSlice t
  | VStruct pkg name fs =>
      TStruct pkg name
        (map (λ f, mkField (fname f) (fanon f) (Value_Type (fbody f))) fs)
  end.

(** The zero value of a type, as [reflect.New] allocates it. *)
Fixpoint zero (t : rtype) : value :=
  match t with
  | TBool => VBool false
  | TInt32 => VInt32 0
  | TString => VString ""
  | TPtr e => VNil e
  | TSlice e => VSlice e []
  | TStruct pkg name fs =>
      VStruct pkg name (map (λ f, mkField (fname f) (fanon f) (zero (fbody f))) fs)
  end.

(** Type identity, which [Value.Set] requires of the assigned value. *)
Fixpoint rtype_eqb (a b : rtype) : bool :=
  match a, b with
  | TBool, TBool | TInt32, TInt32 | TString, TString => true
  | TPtr x, TPtr y | TSlice x, TSlice y => rtype_eqb x y
  | TStruct p n fs, TStruct q m gs =>
      bool_decide (p = q) && bool_decide (n = m) &&
      (fix eqs (fs gs : list (fieldOf rtype)) : bool :=
         match fs, gs with
         | [], [] => true
         | f :: fs', g :: gs' =>
             bool_decide (fname f = fname g) && Bool.eqb (fanon f) (fanon g) &&
             rtype_eqb (fbody f) (fbody g) && eqs fs' gs'
         | _, _ => false
         end) fs gs
  | _, _ => false
  end.

(** Nesting depth of a type: bounds the levels a field search can descend. *)
Fixpoint Type_depth (t : rtype) : nat :=
  match t with
  | TBool | TInt32 | TString => 0
  | TPtr e | TSlice e => S (Type_depth e)
  | TStruct _ _ fs => S (foldr (λ f n, Nat.max (Type_depth (fbody f)) n) 0 fs)
  end.

Definition fields_depth (fs : list (fieldOf rtype)) : nat :=
  foldr (λ f n, Nat.max (Type_depth (fbody f)) n) 0 fs.

(** [reflect.StructField], with the index sequence that leads to the field. *)
Record StructField : Type := mkStructField {
  sf_Name : string;
  sf_Anonymous : bool;
  sf_Type : rtype;
  sf_Index : list nat
}.

(** ** [Type.FieldByName]

    Go searches the struct breadth first through its embedded structs (and
    embedded pointers to structs): the field at the shallowest depth wins,
    and a name met twice at that depth is not found. *)

Definition scan : Type := (list nat * list (fieldOf rtype))%type.

Definition scan_matches (name : string) (s : scan) : list StructField :=
  mjoin (imap (λ i f,
    if decide (fname f = name)
    then [mkStructField (fname f) (fanon f) (fbody f) (s.1 ++ [i])]
    else []) s.2).

Definition embedded_struct (t : rtype) : option (list (fieldOf rtype)) :=
  match t with
  | TStruct _ _ fs => Some fs
  | TPtr (TStruct _ _ fs) => Some fs
  | _ => None
  end.

Definition scan_children (s : scan) : list scan :=
  mjoin (imap (λ i f,
    if fanon f
    then match embedded_struct (fbody f) with
         | Some fs => [(s.1 ++ [i], fs)]
         | None => []
         end
    else []) s.2).

(** The description of a field of a struct value. *)
Definition field_type (f : fieldOf value) : fieldOf rtype :=
  mkField (fname f) (fanon f) (Value_Type (fbody f)).

(** The fields of the struct an index sequence leads to, through embedded
    structs and embedded pointers to structs. *)
Fixpoint fields_at (fs : list (fieldOf rtype)) (index : list nat)
  : option (list (fieldOf rtype)) :=
  match index with
  | [] => Some fs
  | i :: rest =>
      match fs !! i with
      | Some f =>
          match embedded_struct (fbody f) with
          | Some gs => fields_at gs rest
          | None => None
          end
      | None => None
      end
  end.

(** The type of the field an index sequence leads to, through embedded
    structs and embedded pointers to structs. *)
Fixpoint field_type_at (fs : list (fieldOf rtype)) (index : list nat) : option rtype :=
  match index with
  | [] => None
  | i :: rest =>
      match fs !! i with
      | Some f =>
          match rest with
          | [] => Some (fbody f)
          | _ :: _ =>
              match embedded_struct (fbody f) with
              | Some gs => field_type_at gs rest
              | None => None
              end
          end
      | None => None
      end
  end.

Definition level_matches (name : string) (cur : list scan) : list StructField :=
  cur ≫= scan_matches name.

Definition level_next (cur : list scan) : list scan :=
  cur ≫= scan_children.

Fixpoint FieldByNameFunc (depth : nat) (name : string) (cur : list scan)
  : option StructField :=
  match level_matches name cur with
  | [m] => Some m
  | _ :: _ :: _ => None
  | [] =>
      match depth with
      | 0 => None
      | S d => FieldByNameFunc d name (level_next cur)
      end
  end.

(** [Type.FieldByName]: panics unless the kind is Struct; the empty name is
    never found. *)
Definition Type_FieldByName (t : rtype) (name : string) : run (option StructField) :=
  match t with
  | TStruct _ _ fs =>
      if decide (name = "") then Ret None
      else Ret (FieldByNameFunc (Type_depth t) name [([], fs)])
  | _ => Panic ReflectPanic
  end.

(** ** [reflect.Value] accessors *)

(** [Value.Field(i)]: panics unless the kind is Struct and [i] is in range. *)
Definition Value_Field (v : value) (i : nat) : run value :=
  match v with
  | VStruct _ _ fs =>
      match fs !! i with
      | Some f => Ret (fbody f)
      | None => Panic ReflectPanic
      end
  | _ => Panic ReflectPanic
  end.

(** The steps of [Value.FieldByIndex] after the first: an embedded pointer to
    a struct is followed, and panics when nil. *)
Fixpoint FieldByIndex_rest (v : value) (index : list nat) : run value :=
  match index with
  | [] => Ret v
  | x :: rest =>
      v1 ← match v with
           | VNil (TStruct _ _ _) => Panic ReflectPanic
           | VPtr (VStruct p n fs) => Ret (VStruct p n fs)
           | _ => Ret v
           end;
      v2 ← Value_Field v1 x;
      FieldByIndex_rest v2 rest
  end.

Definition Value_FieldByIndex (v : value) (index : list nat) : run value :=
  match index with
  | [] => match v with VStruct _ _ _ => Ret v | _ => Panic ReflectPanic end
  | x :: rest => v1 ← Value_Field v x; FieldByIndex_rest v1 rest
  end.

(** [Value.FieldByName]: panics unless the kind is Struct; [None] is Go's
    zero Value, returned when no field has that name. *)
Definition Value_FieldByName (v : value) (name : string) : run (option value) :=
  match v with
  | VStruct _ _ _ =>
      o ← Type_FieldByName (Value_Type v) name;
      match o with
      | Some f => Some <$> Value_FieldByIndex v (sf_Index f)
      | None => Ret None
      end
  | _ => Panic ReflectPanic
  end.

(** Storing [x] at the field an index sequence leads to ([Value.Set] on the
    result of [FieldByIndex]). *)
Fixpoint Value_SetByIndex (v : value) (index : list nat) (x : value) : run value :=
  match index with
  | [] => Ret x
  | i :: rest =>
      match v with
      | VStruct pkg name fs =>
          match fs !! i with
          | Some f =>
              new ← match rest, fbody f with
                    | [], _ => Ret x
                    | _ :: _, VNil (TStruct _ _ _) => Panic ReflectPanic
                    | _ :: _, VPtr (VStruct p n gs) =>
                        VPtr <$> Value_SetByIndex (VStruct p n gs) rest x
                    | _ :: _, w => Value_SetByIndex w rest x
                    end;
              Ret (VStruct pkg name (<[i := mkField (fname f) (fanon f) new]> fs))
          | None => Panic ReflectPanic
          end
      | _ => Panic ReflectPanic
      end
  end.

(** ** The resolver *)

Definition typesPkg : string := "github.com/vmware/govmomi/vim25/types".
Definition moPkg : string := "github.com/vmware/govmomi/vim25/mo".

(** [interface{}]: nil, or a dynamic value. *)
Definition iface : Type := option value.

Inductive fieldError : Type := errMissingField | errEmptyField.

(** [isEmpty] *)
Definition isEmpty (rval : value) : bool :=
  match rval with
  | VNil _ => true
  | VPtr _ => false
  | VString s => bool_decide (String.length s = 0)
  | VSlice _ vs => bool_decide (length vs = 0)
  | _ => false
  end.

(** [isTrue], [isFalse] on a [*bool]. *)
Definition isTrue (v : option bool) : bool :=
  match v with Some b => b | None => false end.

Definition isFalse (v : option bool) : bool :=
  match v with Some b => negb b | None => true end.

(** ** The API types (govmomi's [types] package) *)

Record ManagedObjectReference : Type := mkRef {
  mor_Type : string;
  mor_Value : string
}.

#[global] Instance ManagedObjectReference_eq_dec : EqDecision ManagedObjectReference.
Proof. solve_decision. Defined.

#[global] Instance ManagedObjectReference_countable : Countable ManagedObjectReference.
Proof.
  apply (inj_countable' (λ r, (mor_Type r, mor_Value r)) (λ p, mkRef p.1 p.2)).
  by intros [].
Defined.

Definition TManagedObjectReference : rtype :=
  TStruct typesPkg "ManagedObjectReference"
    [mkField "Type" false TString; mkField "Value" false TString].

Definition TArrayOfManagedObjectReference : rtype :=
  TStruct typesPkg "ArrayOfManagedObjectReference"
    [mkField "ManagedObjectReference" false (TSlice TManagedObjectReference)].

(** A reference as a reflected value, and back. *)
Definition ref_value (r : ManagedObjectReference) : value :=
  VStruct typesPkg "ManagedObjectReference"
    [mkField "Type" false (VString (mor_Type r));
     mkField "Value" false (VString (mor_Value r))].

Definition value_ref (v : value) : option ManagedObjectReference :=
  if rtype_eqb (Value_Type v) TManagedObjectReference then
    match v with
    | VStruct _ _ [f1; f2] =>
        match fbody f1, fbody f2 with
        | VString t, VString x => Some (mkRef t x)
        | _, _ => None
        end
    | _ => None
    end
  else None.

Inductive BaseMethodFault : Type :=
| ManagedObjectNotFound (Obj : ManagedObjectReference)
| InvalidProperty (Name : string).

Record LocalizedMethodFault : Type := mkLocalizedMethodFault {
  lmf_Fault : BaseMethodFault;
  lmf_LocalizedMessage : string
}.

Record DynamicProperty : Type := mkDynamicProperty {
  dp_Name : string;
  dp_Val : iface
}.

Record MissingProperty : Type := mkMissingProperty {
  mp_Path : string;
  mp_Fault : LocalizedMethodFault
}.

Record ObjectContent : Type := mkObjectContent {
  oc_Obj : ManagedObjectReference;
  oc_PropSet : list DynamicProperty;
  oc_MissingSet : list MissingProperty
}.

Record RetrieveResult : Type := mkRetrieveResult {
  Token : string;
  Objects : list ObjectContent
}.

Record PropertySpec : Type := mkPropertySpec {
  ps_Type : string;
  ps_All : option bool;
  ps_PathSet : list string
}.

(** [BaseSelectionSpec]: the interface behind an entry of a select set; its
    implementations are [*SelectionSpec] and [*TraversalSpec].  A Go slice
    is nil ([None]) or holds a possibly empty sequence. *)
Inductive BaseSelectionSpec : Type :=
| SelectionSpec (Name : string)
| TraversalSpec (Name : string) (Type_ : string) (Path : string)
    (Skip : option bool) (SelectSet : option (list BaseSelectionSpec)).

Record ObjectSpec : Type := mkObjectSpec {
  os_Obj : ManagedObjectReference;
  os_Skip : option bool;
  os_SelectSet : option (list BaseSelectionSpec)
}.

Record PropertyFilterSpec : Type := mkPropertyFilterSpec {
  pfs_PropSet : list PropertySpec;
  pfs_ObjectSet : list ObjectSpec;
  pfs_ReportMissingObjectsInResults : option bool
}.

Record RetrieveOptions : Type := mkRetrieveOptions {
  MaxObjects : Z
}.

Record RetrievePropertiesEx_req : Type := mkRetrievePropertiesEx {
  rpx_This : ManagedObjectReference;
  rpx_SpecSet : list PropertyFilterSpec;
  rpx_Options : RetrieveOptions
}.

Record RetrieveProperties_req : Type := mkRetrieveProperties {
  rp_This : ManagedObjectReference;
  rp_SpecSet : list PropertyFilterSpec
}.

(** The elements a [range] over a possibly nil slice visits. *)
Definition range {A : Type} (s : option (list A)) : list A :=
  match s with Some l => l | None => [] end.

(** [fieldRefs]: the type switch compares dynamic types; dereferencing a
    typed nil pointer panics. *)
Definition fieldRefs (f : iface) : run (list ManagedObjectReference) :=
  match f with
  | None => Ret []
  | Some fv =>
      if rtype_eqb (Value_Type fv) TManagedObjectReference then
        Ret (option_list (value_ref fv))
      else if rtype_eqb (Value_Type fv) (TPtr TManagedObjectReference) then
        match fv with
        | VPtr w => Ret (option_list (value_ref w))
        | _ => Panic NilPanic
        end
      else if rtype_eqb (Value_Type fv) (TPtr TArrayOfManagedObjectReference) then
        match fv with
        | VPtr w =>
            s ← Value_Field w 0;
            match s with
            | VSlice _ vs => Ret (omap value_ref vs)
            | _ => Ret []
            end
        | _ => Panic NilPanic
        end
      else Ret []
  end.

(** A monadic left fold: a [for ... range] loop threading its state. *)
Fixpoint foldM {A B : Type} (f : B → A → run B) (l : list A) (b : B) : run B :=
  match l with
  | [] => Ret b
  | a :: l' => b' ← f b a; foldM f l' b'
  end.

Fixpoint foldF {A B : Type} (f : B → A → fueled B) (l : list A) (b : B) : fueled B :=
  match l with
  | [] => Done b
  | a :: l' => b' ← f b a; foldF f l' b'
  end.

Section Simulator.

(** [typeFunc]: govmomi's table from a vSphere type name to its Go type. *)
Variable typeFunc : string → option rtype.

(** [fieldValueInterface] *)
Definition fieldValueInterface (f : StructField) (rval : value) : run iface :=
  match rval with
  | VSlice TString _ =>
      Ret (Some (VPtr (VStruct typesPkg "ArrayOfString" [mkField "String" false rval])))
  | VSlice TInt32 _ =>
      Ret (Some (VPtr (VStruct typesPkg "ArrayOfInt" [mkField "Int" false rval])))
  | VSlice _ _ =>
      et ← Type_Elem (sf_Type f);
      let kind := Type_Name et in
      match typeFunc ("ArrayOf" +:+ kind) with
      | None => Panic ReflectPanic            (* reflect.New(nil) *)
      | Some akind =>
          o ← Type_FieldByName akind kind;
          match o with
          | None => Panic ReflectPanic        (* Set on the zero Value *)
          | Some sf =>
              if rtype_eqb (Value_Type rval) (sf_Type sf)
              then c ← Value_SetByIndex (zero akind) (sf_Index sf) rval;
                   Ret (Some (VPtr c))
              else Panic ReflectPanic         (* value not assignable *)
          end
      end
  | _ => Ret (Some rval)
  end.

(** The loop of [fieldValue] over the path segments still to resolve; the
    test [i == len(fields)-1] holds exactly when no segment is left. *)
Fixpoint fieldValue_loop (rval : value) (fields : list string)
  : run (iface + fieldError) :=
  match fields with
  | [] => Ret (inl None)
  | name :: rest =>
      x ← ucFirst name;
      val ← Value_FieldByName rval x;
      match val with
      | None => Ret (inr errMissingField)
      | Some val =>
          if isEmpty val then Ret (inr errEmptyField)
          else match rest with
               | [] =>
                   o ← Type_FieldByName (Value_Type rval) x;
                   match o with
                   | Some ftype => inl <$> fieldValueInterface ftype val
                   | None => Panic ReflectPanic   (* the lookup above found it *)
                   end
               | _ :: _ => fieldValue_loop val rest
               end
      end
  end.

(** [fieldValue]: a pointer is dereferenced once; [Elem] of a nil pointer is
    the zero Value, on which the first [FieldByName] panics. *)
Definition fieldValue (rval : value) (p : string) : run (iface + fieldError) :=
  let fields := split_on "." p in
  match rval with
  | VPtr w => fieldValue_loop w fields
  | VNil _ =>
      match fields with
      | [] => Ret (inl None)
      | name :: _ => _ ← ucFirst name; Panic ReflectPanic
      end
  | _ => fieldValue_loop rval fields
  end.

(** ** The traversal engine *)

(** The Registry [Map]: a store from an object reference to the
    managed-object instance registered under it, an interface value that a
    retrieval reflects on. *)
Variable Map : gmap ManagedObjectReference value.

(** Modelled from the spec: [Registry.Get] (registry.go is not at hand, only
    its test): [get(reference)] answers the object or absent, and absent is
    Go's nil interface. *)
Definition Map_Get (ref : ManagedObjectReference) : option value := Map !! ref.

(** [retrieveResult]: the maps [recurse] and [collected] only ever hold
    [true], so they are the sets of their keys. *)
Record retrieveResult : Type := mkRetrieveResult_ {
  rr_RetrieveResult : RetrieveResult;
  req : RetrievePropertiesEx_req;
  recurse : gset string;
  collected : gset ManagedObjectReference
}.

Definition add_PropSet (content : ObjectContent) (p : DynamicProperty) : ObjectContent :=
  mkObjectContent (oc_Obj content) (oc_PropSet content ++ [p]) (oc_MissingSet content).

Definition add_MissingSet (content : ObjectContent) (m : MissingProperty) : ObjectContent :=
  mkObjectContent (oc_Obj content) (oc_PropSet content) (oc_MissingSet content ++ [m]).

(** [collectAll]: [rtype] is always the type of [rval], so the field
    descriptions are read off the value; [i] is the field index. *)
Fixpoint collectAll (rval : value) (content : ObjectContent) : run ObjectContent :=
  match rval with
  | VStruct _ _ fs =>
      (fix fields_loop (i : nat) (fs : list (fieldOf value)) (content : ObjectContent)
         : run ObjectContent :=
         match fs with
         | [] => Ret content
         | fld :: rest =>
             let val := fbody fld in
             if isEmpty val then fields_loop (S i) rest content
             else if fanon fld then
               content' ← collectAll val content;
               fields_loop (S i) rest content'
             else
               let f := mkStructField (fname fld) (fanon fld) (Value_Type val) [i] in
               name ← lcFirst (sf_Name f);
               pval ← fieldValueInterface f val;
               fields_loop (S i) rest (add_PropSet content (mkDynamicProperty name pval))
         end) 0 fs content
  | _ => Panic ReflectPanic        (* NumField on another kind *)
  end.

Definition InvalidProperty_entry (name : string) : MissingProperty :=
  mkMissingProperty name (mkLocalizedMethodFault (InvalidProperty name) "").

(** The loop of [collectFields], with the references gathered so far. *)
Fixpoint collectFields_loop (rr : retrieveResult) (rval : value) (fields : list string)
    (content : ObjectContent) (refs : list ManagedObjectReference)
  : run (ObjectContent * list ManagedObjectReference) :=
  match fields with
  | [] => Ret (content, refs)
  | name :: rest =>
      r ← fieldValue rval name;
      match r with
      | inl val =>
          more ← (if decide (name ∈ recurse rr) then fieldRefs val else Ret []);
          collectFields_loop rr rval rest
            (add_PropSet content (mkDynamicProperty name val)) (refs ++ more)
      | inr errEmptyField =>
          collectFields_loop rr rval rest content refs
      | inr errMissingField =>
          collectFields_loop rr rval rest
            (add_MissingSet content (InvalidProperty_entry name)) refs
      end
  end.

(** [collectFields] *)
Definition collectFields (rr : retrieveResult) (rval : value) (fields : list string)
    (content : ObjectContent) : run (ObjectContent * list ManagedObjectReference) :=
  collectFields_loop rr rval fields content [].

(** The test that guards a property spec in [collect]: the spec's type is
    the reference's type, or names an anonymous field of the object's type. *)
Definition spec_applies (ref : ManagedObjectReference) (rtype : rtype) (p : PropertySpec)
  : run bool :=
  if decide (ps_Type p ≠ mor_Type ref) then
    o ← Type_FieldByName rtype (ps_Type p);
    Ret (match o with
         | Some field => sf_Anonymous field
         | None => false
         end)
  else Ret true.

(** One iteration of the inner loop of [collect], over a property spec. *)
Definition collect_prop (rr : retrieveResult) (ref : ManagedObjectReference)
    (rval : value) (rtype : rtype)
    (acc : ObjectContent * list ManagedObjectReference) (p : PropertySpec)
  : run (ObjectContent * list ManagedObjectReference) :=
  ok ← spec_applies ref rtype p;
  if negb ok then Ret acc
  else if isTrue (ps_All p) then
    content ← collectAll rval acc.1;
    Ret (content, acc.2)
  else
    '(content, more) ← collectFields rr rval (ps_PathSet p) acc.1;
    Ret (content, acc.2 ++ more).

(** The object behind a registry entry, as [collect] reflects on it:
    [reflect.ValueOf(obj).Elem()], then the first field of a wrapper type
    declared outside package [mo]. *)
Definition reflect_object (obj : option value) : run (value * rtype) :=
  rval ← match obj with
         | None => Panic ZeroValuePanic     (* ValueOf(nil) is the zero Value *)
         | Some (VPtr w) => Ret w
         | Some _ => Panic ReflectPanic
         end;
  let rtype := Value_Type rval in
  if decide (path_Base (Type_PkgPath rtype) ≠ "mo") then
    rval' ← Value_Field rval 0;
    Ret (rval', Value_Type rval')
  else Ret (rval, rtype).

(** The body of [collect] for a reference not yet collected: the object
    content and the references to visit next. *)
Definition visit (rr : retrieveResult) (ref : ManagedObjectReference)
  : run (ObjectContent * list ManagedObjectReference) :=
  let obj := Map_Get ref in
  let content := mkObjectContent ref [] [] in
  '(rval, rtype) ← reflect_object obj;
  foldM (λ acc spec, foldM (collect_prop rr ref rval rtype) (pfs_PropSet spec) acc)
        (rpx_SpecSet (req rr)) (content, []).

Definition emit (rr : retrieveResult) (ref : ManagedObjectReference)
    (content : ObjectContent) : retrieveResult :=
  mkRetrieveResult_
    (mkRetrieveResult (Token (rr_RetrieveResult rr))
                      (Objects (rr_RetrieveResult rr) ++ [content]))
    (req rr) (recurse rr) ({[ref]} ∪ collected rr).

(** [retrieveResult.collect]; [fuel] bounds the depth of the recursion. *)
Fixpoint collect (fuel : nat) (rr : retrieveResult) (ref : ManagedObjectReference)
  : fueled retrieveResult :=
  match fuel with
  | 0 => OutOfFuel
  | S n =>
      if decide (ref ∈ collected rr) then Done rr
      else
        '(content, refs) ← lift (visit rr ref);
        foldF (collect n) refs (emit rr ref content)
  end.

(** ** The service *)

(** The seed state of [PropertyCollector.collect]: the [recurse] marks and
    the references selected so far. *)
Definition seed : Type := (gset string * list ManagedObjectReference)%type.

(** One iteration of the loop over an object spec's select set. *)
Definition seed_select (obj : value) (st : seed) (ss : BaseSelectionSpec) : run seed :=
  match ss with
  | TraversalSpec _ _ path _ sel =>
      let marks := match sel with
                   | Some _ => {[path]} ∪ st.1
                   | None => st.1
                   end in
      f ← fieldValue obj path;
      more ← fieldRefs (match f with inl v => v | inr _ => None end);
      Ret (marks, st.2 ++ more)
  | SelectionSpec _ => Panic AssertPanic
  end.

(** The loop over the object specs of one filter spec; a fault ends the call. *)
Fixpoint seed_objects (report : option bool) (os : list ObjectSpec) (st : seed)
  : run (seed + BaseMethodFault) :=
  match os with
  | [] => Ret (inl st)
  | o :: rest =>
      match Map_Get (os_Obj o) with
      | None =>
          if isFalse report then Ret (inr (ManagedObjectNotFound (os_Obj o)))
          else seed_objects report rest st
      | Some obj =>
          let refs := if bool_decide (os_SelectSet o = None) || isFalse (os_Skip o)
                      then st.2 ++ [os_Obj o] else st.2 in
          r ← foldM (seed_select obj) (range (os_SelectSet o)) (st.1, refs);
          seed_objects report rest r
      end
  end.

Fixpoint seed_specs (specs : list PropertyFilterSpec) (st : seed)
  : run (seed + BaseMethodFault) :=
  match specs with
  | [] => Ret (inl st)
  | spec :: rest =>
      r ← seed_objects (pfs_ReportMissingObjectsInResults spec) (pfs_ObjectSet spec) st;
      match r with
      | inl st' => seed_specs rest st'
      | inr fault => Ret (inr fault)
      end
  end.

(** The engine state when the visits start: nothing collected, and the
    [recurse] marks the seed loop has set. *)
Definition initial (r : RetrievePropertiesEx_req) (marks : gset string) : retrieveResult :=
  mkRetrieveResult_ (mkRetrieveResult "" []) r marks ∅.

(** [PropertyCollector.collect], with the recursion budget of the visits. *)
Definition pc_collect_fuel (fuel : nat) (r : RetrievePropertiesEx_req)
  : fueled (RetrieveResult + BaseMethodFault) :=
  s ← lift (seed_specs (rpx_SpecSet r) (∅, []));
  match s with
  | inr fault => Done (inr fault)
  | inl (marks, refs) =>
      rr ← foldF (collect fuel) refs (initial r marks);
      Done (inl (rr_RetrieveResult rr))
  end.

(** A visit that recurses adds a registered reference to [collected] first,
    so the recursion is never deeper than the registry is large, plus one. *)
Definition pc_collect (r : RetrievePropertiesEx_req)
  : fueled (RetrieveResult + BaseMethodFault) :=
  pc_collect_fuel (S (size Map)) r.

(** The SOAP bodies.  [Fault] wraps a method fault in a [soapFault] for
    transport; the simulator declares it in another file, and it never
    returns nil. *)
Variable soapFault : Type.
Variable Fault : string → BaseMethodFault → soapFault.

Record RetrievePropertiesExResponse : Type := mkRetrievePropertiesExResponse {
  rpxr_Returnval : option RetrieveResult
}.

Record RetrievePropertiesExBody : Type := mkRetrievePropertiesExBody {
  rpxb_Res : option RetrievePropertiesExResponse;
  rpxb_Fault_ : option soapFault
}.

Record RetrievePropertiesResponse : Type := mkRetrievePropertiesResponse {
  rpr_Returnval : list ObjectContent
}.

Record RetrievePropertiesBody : Type := mkRetrievePropertiesBody {
  rpb_Res : option RetrievePropertiesResponse;
  rpb_Fault_ : option soapFault
}.

(** [PropertyCollector.RetrievePropertiesEx] *)
Definition RetrievePropertiesEx (r : RetrievePropertiesEx_req)
  : fueled RetrievePropertiesExBody :=
  c ← pc_collect r;
  match c with
  | inr fault => Done (mkRetrievePropertiesExBody None (Some (Fault "" fault)))
  | inl res =>
      Done (mkRetrievePropertiesExBody
              (Some (mkRetrievePropertiesExResponse (Some res))) None)
  end.

(** [PropertyCollector.RetrieveProperties] *)
Definition RetrieveProperties (r : RetrieveProperties_req)
  : fueled RetrievePropertiesBody :=
  res ← RetrievePropertiesEx
          (mkRetrievePropertiesEx (rp_This r) (rp_SpecSet r) (mkRetrieveOptions 0));
  match rpxb_Fault_ res with
  | Some fault => Done (mkRetrievePropertiesBody None (Some fault))
  | None =>
      match rpxb_Res res with
      | Some resp =>
          match rpxr_Returnval resp with
          | Some rv =>
              Done (mkRetrievePropertiesBody
                      (Some (mkRetrievePropertiesResponse (Objects rv))) None)
          | None => Panicked NilPanic
          end
      | None => Panicked NilPanic
      end
  end.


(** ** Predicates used to state the properties *)

(** The property specs of a request, filter spec by filter spec. *)
Definition prop_sets (r : RetrievePropertiesEx_req) : list (list PropertySpec) :=
  pfs_PropSet <$> rpx_SpecSet r.

(** The invariant of the visits: the collected set is the set of emitted
    references, none emitted twice, all of them registered. *)
Definition collected_inv (rr : retrieveResult) : Prop :=
  NoDup (oc_Obj <$> Objects (rr_RetrieveResult rr)) ∧
  (∀ ref, ref ∈ collected rr ↔ ref ∈ (oc_Obj <$> Objects (rr_RetrieveResult rr))) ∧
  (∀ ref, ref ∈ collected rr → is_Some (Map !! ref)).

(** What a visit guarantees about the state it started from. *)
Definition collect_post (rr : retrieveResult) (out : fueled retrieveResult) : Prop :=
  match out with
  | Done rr' =>
      collected_inv rr' ∧ collected rr ⊆ collected rr' ∧
      req rr' = req rr ∧ recurse rr' = recurse rr
  | Panicked _ => True
  | OutOfFuel => False
  end.

(** Two engine states a visit cannot tell apart. *)
Definition same_view (rr rr' : retrieveResult) : Prop :=
  rr_RetrieveResult rr = rr_RetrieveResult rr' ∧ recurse rr = recurse rr' ∧
  collected rr = collected rr' ∧ prop_sets (req rr) = prop_sets (req rr').

Definition same_outcome (a b : fueled retrieveResult) : Prop :=
  match a, b with
  | Done x, Done y => same_view x y
  | Panicked p, Panicked q => p = q
  | OutOfFuel, OutOfFuel => True
  | _, _ => False
  end.

(** The seed loop up to an object spec [o] of the request. *)
Definition reaches_object (specs1 : list PropertyFilterSpec) (report : option bool)
    (os1 : list ObjectSpec) (st : seed) : Prop :=
  ∃ st1, seed_specs specs1 (∅, []) = Ret (inl st1) ∧
         seed_objects report os1 st1 = Ret (inl st).


(** The object a path is resolved on: [fieldValue] follows a pointer once. *)
Definition indirect (rval : value) : value :=
  match rval with
  | VPtr w => w
  | _ => rval
  end.

(** [reaches v segs w]: walking the path segments [segs] from the record [v],
    each segment names a field whose value is not empty, and the last one
    holds [w]. *)
Inductive reaches : value → list string → value → Prop :=
| reaches_nil v : reaches v [] v
| reaches_cons v s x val segs w :
    ucFirst s = Ret x →
    Value_FieldByName v x = Ret (Some val) →
    isEmpty val = false →
    reaches val segs w →
    reaches v (s :: segs) w.

(** The structs a field search meets [d] levels below a struct. *)
Definition levels (fs : list (fieldOf rtype)) (d : nat) : list scan :=
  Nat.iter d level_next [([], fs)].

(** Go's rule for a selector: [f] is the only field called [name] at the
    shallowest depth where the name occurs. *)
Definition promoted (fs : list (fieldOf rtype)) (name : string) (f : StructField) : Prop :=
  ∃ d, level_matches name (levels fs d) = [f] ∧
       ∀ d', d' < d → level_matches name (levels fs d') = [].

(** [name] selects an embedded (anonymous) field of the struct type [t]: the
    record of a base type the struct is composed from. *)
Definition names_embedded_base (t : rtype) (name : string) : Prop :=
  match t with
  | TStruct _ _ fs =>
      name ≠ "" ∧ ∃ f, promoted fs name f ∧ sf_Anonymous f = true
  | _ => False
  end.

(** A path is marked recursive by a traversal spec of the request that
    carries a nested select set. *)
Definition marked_by_request (r : RetrievePropertiesEx_req) (path : string) : Prop :=
  ∃ spec o name ty skip nested,
    spec ∈ rpx_SpecSet r ∧ o ∈ pfs_ObjectSet spec ∧
    TraversalSpec name ty path skip (Some nested) ∈ range (os_SelectSet o).

(** A reference a visit takes from a path: the path is listed by a property
    spec of the request, is marked recursive, resolves on the object, and
    its value holds the reference. *)
Definition taken_from_marked_path (rr : retrieveResult) (rval : value)
    (x : ManagedObjectReference) : Prop :=
  ∃ spec p name v l,
    spec ∈ rpx_SpecSet (req rr) ∧ p ∈ pfs_PropSet spec ∧ name ∈ ps_PathSet p ∧
    name ∈ recurse rr ∧
    fieldValue rval name = Ret (inl v) ∧ fieldRefs v = Ret l ∧ x ∈ l.

(** A reference found by following one traversal spec of a select set from
    the object [obj]. *)
Definition discovered_by_traversal (obj : value) (sel : list BaseSelectionSpec)
    (ref : ManagedObjectReference) : Prop :=
  ∃ name ty path skip nested v found,
    TraversalSpec name ty path skip nested ∈ sel ∧
    fieldValue obj path = Ret (inl v) ∧ fieldRefs v = Ret found ∧ ref ∈ found.

(** A reference handed on by the visit of some object. *)
Definition discovered_by_visit (r : RetrievePropertiesEx_req) (marks : gset string)
    (ref : ManagedObjectReference) : Prop :=
  ∃ parent content found,
    visit (initial r marks) parent = Ret (content, found) ∧ ref ∈ found.

(** The root of an object spec is seeded unless it is marked skip and
    carries a select set. *)
Definition root_seeded (o : ObjectSpec) : bool :=
  negb (bool_decide (os_Skip o = Some true) && bool_decide (os_SelectSet o ≠ None)).

(** Where the references selected by the seed loop come from. *)
Definition seeded_by (o : ObjectSpec) (x : ManagedObjectReference) : Prop :=
  ∃ obj, Map !! os_Obj o = Some obj ∧
    ((x = os_Obj o ∧ root_seeded o = true) ∨
     discovered_by_traversal obj (range (os_SelectSet o)) x).

End Simulator.

(** ** A small inventory, used to run the model

    Folders shaped like govmomi's [mo.Folder]: the embedded [ManagedEntity]
    embeds [ExtensibleManagedObject], which holds [Self]. *)

Definition exTypeFunc (n : string) : option rtype :=
  if decide (n = "ArrayOfManagedObjectReference")
  then Some TArrayOfManagedObjectReference else None.

Definition exFolder (self : ManagedObjectReference) (name : string)
    (parent : option ManagedObjectReference) (children : list ManagedObjectReference)
  : value :=
  VStruct moPkg "Folder"
    [mkField "ManagedEntity" true
       (VStruct moPkg "ManagedEntity"
          [mkField "ExtensibleManagedObject" true
             (VStruct moPkg "ExtensibleManagedObject"
                [mkField "Self" false (ref_value self)]);
           mkField "Parent" false
             (match parent with
              | Some p => VPtr (ref_value p)
              | None => VNil TManagedObjectReference
              end);
           mkField "Name" false (VString name)]);
     mkField "ChildType" false (VSlice TString [VString "Folder"]);
     mkField "ChildEntity" false
       (VSlice TManagedObjectReference (map ref_value children))].

Definition exA : ManagedObjectReference := mkRef "Folder" "A".
Definition exB : ManagedObjectReference := mkRef "Folder" "B".
Definition exC : ManagedObjectReference := mkRef "Folder" "C".
Definition exD : ManagedObjectReference := mkRef "Folder" "D".

(** [A] holds [B] and [C]; [B] points back to [A]; [D] is not registered. *)
Definition exMap : gmap ManagedObjectReference value :=
  <[exA := VPtr (exFolder exA "a" None [exB; exC])]>
  (<[exB := VPtr (exFolder exB "" (Some exA) [exA])]>
  (<[exC := VPtr (exFolder exC "c" (Some exA) [])]> ∅)).

(** [C] holds the unregistered [D]. *)
Definition exDangling : gmap ManagedObjectReference value :=
  <[exC := VPtr (exFolder exC "c" None [exD])]> ∅.

Definition exRequest (props : list PropertySpec) (objs : list ObjectSpec)
    (report : option bool) : RetrievePropertiesEx_req :=
  mkRetrievePropertiesEx (mkRef "PropertyCollector" "pc")
    [mkPropertyFilterSpec props objs report] (mkRetrieveOptions 0).

Definition exChildren (nested : option (list BaseSelectionSpec)) : BaseSelectionSpec :=
  TraversalSpec "" "Folder" "childEntity" None nested.

Arguments mkRetrievePropertiesExBody {soapFault} rpxb_Res rpxb_Fault_.
Arguments mkRetrievePropertiesBody {soapFault} rpb_Res rpb_Fault_.
Arguments rpxb_Res {soapFault} r.
Arguments rpxb_Fault_ {soapFault} r.
Arguments rpb_Res {soapFault} r.
Arguments rpb_Fault_ {soapFault} r.

Definition exFault (msg : string) (fault : BaseMethodFault) : string * BaseMethodFault :=
  (msg, fault).

Definition exCycleRequest : RetrievePropertiesEx_req :=
  exRequest [mkPropertySpec "Folder" None ["name"; "childEntity"]]
            [mkObjectSpec exA None (Some [exChildren (Some [])])] None.

(** The references of the object contents a call returned, in order. *)
Definition returned {F : Type} (out : fueled (RetrieveResult + F))
  : option (list ManagedObjectReference) :=
  match out with
  | Done (inl res) => Some (oc_Obj <$> Objects res)
  | _ => None
  end.

Definition exCycleResult : RetrieveResult :=
  Eval vm_compute in
    match pc_collect exTypeFunc exMap exCycleRequest with
    | Done (inl res) => res
    | _ => mkRetrieveResult "" []
    end.

Definition exNameSpec : list PropertySpec := [mkPropertySpec "Folder" None ["name"]].

(** A root marked skip without a select set. *)
Definition exSkippedRoot : ObjectSpec := mkObjectSpec exA (Some true) None.

(** A root marked skip whose select set follows [childEntity] one hop. *)
Definition exSkippedParent : ObjectSpec :=
  mkObjectSpec exA (Some true) (Some [exChildren None]).

(** An object spec whose select set holds a plain [SelectionSpec]. *)
Definition exNamedSelection (root : ManagedObjectReference) : ObjectSpec :=
  mkObjectSpec root None (Some [SelectionSpec "visitFolders"]).

(** The field descriptions of the inventory's folder type. *)
Definition exFolderFields : list (fieldOf rtype) :=
  Eval vm_compute in
    match Value_Type (exFolder exA "a" None []) with
    | TStruct _ _ fs => fs
    | _ => []
    end.

Definition exChildEntityField : StructField :=
  mkStructField "ChildEntity" false (TSlice TManagedObjectReference) [2].

(** ** Predicates used to state the properties of the single functions *)

(** The fields a wildcard retrieval reports for a record, in the order it
    reports them: an empty field is left out, and a non-empty embedded
    record stands for the fields it reports itself. *)
Fixpoint all_fields (rval : value) : list (fieldOf value) :=
  match rval with
  | VStruct _ _ fs =>
      (fix fields (fs : list (fieldOf value)) : list (fieldOf value) :=
         match fs with
         | [] => []
         | fld :: rest =>
             (if isEmpty (fbody fld) then []
              else if fanon fld then all_fields (fbody fld)
              else [fld]) ++ fields rest
         end) fs
  | _ => []
  end.

(** The property a wildcard retrieval reports for the field [fld]: its name
    with the first letter in lower case, and its value converted under a
    field description that carries the value's own type. *)
Definition reports (typeFunc : string → option rtype) (fld : fieldOf value)
    (dp : DynamicProperty) : Prop :=
  lcFirst (fname fld) = Ret (dp_Name dp) ∧
  ∃ f, sf_Name f = fname fld ∧ sf_Type f = Value_Type (fbody fld) ∧
       fieldValueInterface typeFunc f (fbody fld) = Ret (dp_Val dp).

(** What one path of a path set contributes to an object content: a
    property when the path resolves, a missing entry when a segment names
    no field, and the references it hands on when it is marked. *)
Definition resolved_property (typeFunc : string → option rtype) (rval : value)
    (name : string) : option DynamicProperty :=
  match fieldValue typeFunc rval name with
  | Ret (inl val) => Some (mkDynamicProperty name val)
  | _ => None
  end.

Definition missing_property (typeFunc : string → option rtype) (rval : value)
    (name : string) : option MissingProperty :=
  match fieldValue typeFunc rval name with
  | Ret (inr errMissingField) => Some (InvalidProperty_entry name)
  | _ => None
  end.

Definition marked_refs (typeFunc : string → option rtype) (marks : gset string)
    (rval : value) (name : string) : list ManagedObjectReference :=
  if decide (name ∈ marks) then
    match fieldValue typeFunc rval name with
    | Ret (inl val) => match fieldRefs val with Ret l => l | Panic _ => [] end
    | _ => []
    end
  else [].

(** The references of a list in the order of their first occurrence. *)
Definition first_seen (refs : list ManagedObjectReference) : list ManagedObjectReference :=
  foldl (λ acc x, if decide (x ∈ acc) then acc else acc ++ [x]) [] refs.

(** ** Predicates used to state the properties of a whole retrieval *)

(** The visit of the reference of [c] in a call on the request [r] that has
    marked the paths [marks] returns [c] and hands on [found]. *)
Definition visited (typeFunc : string → option rtype)
    (Map : gmap ManagedObjectReference value) (r : RetrievePropertiesEx_req)
    (marks : gset string) (c : ObjectContent) (found : list ManagedObjectReference)
  : Prop :=
  visit typeFunc Map (initial r marks) (oc_Obj c) = Ret (c, found).

(** What the visits started on the references [from] have done between the
    engine states [rr] and [rr']: they have emitted the object contents
    [new], in this order. *)
Definition traced (typeFunc : string → option rtype)
    (Map : gmap ManagedObjectReference value) (r : RetrievePropertiesEx_req)
    (marks : gset string) (from : list ManagedObjectReference)
    (rr rr' : retrieveResult) (new : list ObjectContent) : Prop :=
  rr_RetrieveResult rr' =
    mkRetrieveResult (Token (rr_RetrieveResult rr))
                     (Objects (rr_RetrieveResult rr) ++ new) ∧
  req rr' = req rr ∧ recurse rr' = recurse rr ∧
  (∀ x, x ∈ collected rr' ↔ x ∈ collected rr ∨ x ∈ (oc_Obj <$> new)) ∧
  (∀ x, x ∈ from → x ∈ collected rr') ∧
  (∀ c, c ∈ new →
     ∃ found, visited typeFunc Map r marks c found ∧
              ∀ x, x ∈ found → x ∈ collected rr') ∧
  (∀ i c, new !! i = Some c →
     oc_Obj c ∈ from ∨
     ∃ j p found, j < i ∧ new !! j = Some p ∧
                  visited typeFunc Map r marks p found ∧ oc_Obj c ∈ found).

(** Two engine states that hold the same result and the same collected set
    and whose visits agree on every reference, and two outcomes that agree
    up to such states. *)
Definition same_visits (typeFunc : string → option rtype)
    (Map : gmap ManagedObjectReference value) (rr rr' : retrieveResult) : Prop :=
  rr_RetrieveResult rr = rr_RetrieveResult rr' ∧ collected rr = collected rr' ∧
  ∀ x, visit typeFunc Map rr x = visit typeFunc Map rr' x.

Definition same_visits_outcome (typeFunc : string → option rtype)
    (Map : gmap ManagedObjectReference value) (a b : fueled retrieveResult) : Prop :=
  match a, b with
  | Done x, Done y => same_visits typeFunc Map x y
  | Panicked p, Panicked q => p = q
  | OutOfFuel, OutOfFuel => True
  | _, _ => False
  end.

(** ** More of the inventory *)

(** The result a call returned; the empty result stands for a fault or a
    panic. *)
Definition result_of {F : Type} (out : fueled (RetrieveResult + F)) : RetrieveResult :=
  match out with
  | Done (inl res) => res
  | _ => mkRetrieveResult "" []
  end.

(** A second reference that is not registered. *)
Definition exE : ManagedObjectReference := mkRef "Folder" "E".

(** The folder [A] with both children, as the visits see it. *)
Definition exFolderA : value := exFolder exA "a" None [exB; exC].

(** A request for the names of the listed folders, without traversal. *)
Definition exFlatRequest (roots : list ManagedObjectReference) : RetrievePropertiesEx_req :=
  exRequest exNameSpec ((λ x, mkObjectSpec x None None) <$> roots) None.

(** The object content a wildcard retrieval gives for the folder [A]. *)
Definition exWildcard : ObjectContent :=
  Eval vm_compute in
    match collectAll exTypeFunc exFolderA (mkObjectContent exA [] []) with
    | Ret c => c
    | Panic _ => mkObjectContent exA [] []
    end.

(** The object spec of [exCycleRequest], and the object content of [B] in
    its result. *)
Definition exCycleRoot : ObjectSpec := mkObjectSpec exA None (Some [exChildren (Some [])]).

Definition exCycleSecond : ObjectContent :=
  Eval vm_compute in
    match Objects exCycleResult !! 1 with
    | Some c => c
    | None => mkObjectContent exB [] []
    end.


(** * Properties *)

(** ** Proof tools *)

Ltac run_unfold :=
  unfold mbind, mret, fmap, run_bind, run_ret, run_fmap in *.

Lemma bind_Ret_inv {A B : Type} (m : run A) (k : A → run B) (b : B) :
  (m ≫= k) = Ret b → ∃ a, m = Ret a ∧ k a = Ret b.
Proof. destruct m; run_unfold; simpl; intros; eauto; discriminate. Qed.


Lemma foldM_app {A B : Type} (f : B → A → run B) (l1 l2 : list A) (b : B) :
  foldM f (l1 ++ l2) b = foldM f l1 b ≫= foldM f l2.
Proof.
  revert b. induction l1 as [|a l1 IH]; intros b; simpl; [done|].
  destruct (f b a); simpl; auto.
Qed.

Lemma foldM_inv {A B : Type} (P : B → Prop) (f : B → A → run B) (l : list A) :
  (∀ b a b', P b → a ∈ l → f b a = Ret b' → P b') →
  ∀ b b', P b → foldM f l b = Ret b' → P b'.
Proof.
  induction l as [|a l IH]; intros Hf b b' Hb; simpl.
  - by intros [= <-].
  - intros (b1 & H1 & H2)%bind_Ret_inv.
    eapply IH; [| |exact H2].
    + intros; eapply Hf; eauto. by right.
    + eapply Hf; eauto. by left.
Qed.

(** Structural induction on values, through the fields of a struct. *)
Section value_induction.
Variable P : value → Prop.
Hypothesis Hbool : ∀ b, P (VBool b).
Hypothesis Hint : ∀ z, P (VInt32 z).
Hypothesis Hstring : ∀ s, P (VString s).
Hypothesis Hnil : ∀ t, P (VNil t).
Hypothesis Hptr : ∀ v, P v → P (VPtr v).
Hypothesis Hslice : ∀ t vs, Forall P vs → P (VSlice t vs).
Hypothesis Hstruct : ∀ pkg name fs, Forall (λ f, P (fbody f)) fs → P (VStruct pkg name fs).

Fixpoint value_fields_ind (v : value) : P v :=
    match v with
    | VBool b => Hbool b
    | VInt32 z => Hint z
    | VString s => Hstring s
    | VNil t => Hnil t
    | VPtr w => Hptr w (value_fields_ind w)
    | VSlice t vs =>
        Hslice t vs
          ((fix go (vs : list value) : Forall P vs :=
              match vs with
              | [] => List.Forall_nil _
              | x :: xs => List.Forall_cons _ _ _ (value_fields_ind x) (go xs)
              end) vs)
    | VStruct pkg name fs =>
        Hstruct pkg name fs
          ((fix go (fs : list (fieldOf value)) : Forall (λ f, P (fbody f)) fs :=
              match fs with
              | [] => List.Forall_nil _
              | f :: fs' => List.Forall_cons _ _ _ (value_fields_ind (fbody f)) (go fs')
              end) fs)
    end.
End value_induction.

(** Structural induction on types, through the fields of a struct. *)
Section rtype_induction.
Variable P : rtype → Prop.
Hypothesis Hbool : P TBool.
Hypothesis Hint : P TInt32.
Hypothesis Hstring : P TString.
Hypothesis Hptr : ∀ t, P t → P (TPtr t).
Hypothesis Hslice : ∀ t, P t → P (TSlice t).
Hypothesis Hstruct : ∀ pkg name fs, Forall (λ f, P (fbody f)) fs → P (TStruct pkg name fs).

Fixpoint rtype_fields_ind (t : rtype) : P t :=
  match t with
  | TBool => Hbool
  | TInt32 => Hint
  | TString => Hstring
  | TPtr e => Hptr e (rtype_fields_ind e)
  | TSlice e => Hslice e (rtype_fields_ind e)
  | TStruct pkg name fs =>
      Hstruct pkg name fs
        ((fix go (fs : list (fieldOf rtype)) : Forall (λ f, P (fbody f)) fs :=
            match fs with
            | [] => List.Forall_nil _
            | f :: fs' => List.Forall_cons _ _ _ (rtype_fields_ind (fbody f)) (go fs')
            end) fs)
  end.
End rtype_induction.

Section Properties.
Variable typeFunc : string → option rtype.
Variable Map : gmap ManagedObjectReference value.
Variable soapFault : Type.
Variable Fault : string → BaseMethodFault → soapFault.

Lemma collectAll_Obj rval : ∀ content content',
  collectAll typeFunc rval content = Ret content' → oc_Obj content' = oc_Obj content.
Proof.
  induction rval as [| | | | |t vs _|pkg name fs IH] using value_fields_ind;
    intros content content'; simpl; try discriminate.
  generalize 0. revert content.
  induction IH as [|fld rest Hfld _ IHrest]; intros content i; simpl.
  - by intros [= <-].
  - destruct (isEmpty (fbody fld)); [apply IHrest|].
    destruct (fanon fld).
    + intros (c1 & H1 & H2)%bind_Ret_inv.
      apply IHrest in H2. apply Hfld in H1. congruence.
    + intros (n & H1 & (pv & H2 & H3)%bind_Ret_inv)%bind_Ret_inv.
      apply IHrest in H3. simpl in H3. done.
Qed.

Lemma collectFields_loop_Obj rr rval fields : ∀ content refs content' refs',
  collectFields_loop typeFunc rr rval fields content refs = Ret (content', refs') →
  oc_Obj content' = oc_Obj content.
Proof.
  induction fields as [|name rest IH]; intros content refs content' refs'; simpl.
  - by intros [= <- _].
  - intros ([val|[]] & H1 & H2)%bind_Ret_inv.
    + apply bind_Ret_inv in H2 as (more & _ & H2). by apply IH in H2.
    + by apply IH in H2.
    + by apply IH in H2.
Qed.

Lemma collect_prop_Obj rr ref rval rtype acc p acc' :
  collect_prop typeFunc rr ref rval rtype acc p = Ret acc' →
  oc_Obj acc'.1 = oc_Obj acc.1.
Proof.
  unfold collect_prop. intros (ok & _ & H)%bind_Ret_inv.
  destruct ok; simpl in H; [|by injection H as <-].
  destruct (isTrue (ps_All p)).
  - apply bind_Ret_inv in H as (c & H1 & [= <-]). simpl. eauto using collectAll_Obj.
  - apply bind_Ret_inv in H as ([c more] & H1 & [= <-]). simpl.
    eauto using collectFields_loop_Obj.
Qed.

Lemma visit_Ret rr ref content refs :
  visit typeFunc Map rr ref = Ret (content, refs) →
  is_Some (Map !! ref) ∧ oc_Obj content = ref.
Proof.
  unfold visit. intros ([rval rtype] & H1 & H2)%bind_Ret_inv. split.
  - unfold reflect_object, Map_Get in H1. destruct (Map !! ref); [eauto|discriminate].
  - revert H2.
    apply (foldM_inv (λ acc, oc_Obj acc.1 = ref)); [|done].
    intros acc spec acc' Hacc _.
    apply (foldM_inv (λ acc, oc_Obj acc.1 = ref)); [|done].
    intros b p b' Hb _ Hp. apply collect_prop_Obj in Hp. congruence.
Qed.


(** *** The visits: termination and the collected set *)

Lemma emit_inv rr ref content :
  collected_inv Map rr → ref ∉ collected rr → oc_Obj content = ref →
  is_Some (Map !! ref) → collected_inv Map (emit rr ref content).
Proof.
  intros (Hnd & Hiff & Hreg) Hnot Hobj Hsome. split; [|split]; simpl.
  - rewrite fmap_app. apply NoDup_app. split; [done|]. split.
    + intros x Hx [->|[]%elem_of_nil]%elem_of_cons. subst. by apply Hnot, Hiff.
    + simpl. apply NoDup_singleton.
  - intros x. rewrite fmap_app, elem_of_app, elem_of_union, Hiff. simpl.
    rewrite elem_of_singleton, list_elem_of_singleton. subst. tauto.
  - intros x [->%elem_of_singleton|Hx]%elem_of_union; auto.
Qed.

Lemma measure_emit rr ref content :
  is_Some (Map !! ref) → ref ∉ collected rr →
  size (dom Map ∖ collected (emit rr ref content)) < size (dom Map ∖ collected rr).
Proof.
  intros Hin%elem_of_dom Hnot. apply subset_size. simpl. split.
  - intros x [Hx Hn]%elem_of_difference. apply elem_of_difference.
    split; [done|]. intros ?. apply Hn, elem_of_union. auto.
  - intros Hsub. specialize (Hsub ref).
    rewrite !elem_of_difference, elem_of_union, elem_of_singleton in Hsub.
    naive_solver.
Qed.

Lemma measure_mono (X Y : gset ManagedObjectReference) (n : nat) :
  X ⊆ Y → size (dom Map ∖ X) < n → size (dom Map ∖ Y) < n.
Proof.
  intros Hsub Hlt. eapply Nat.le_lt_trans; [|exact Hlt]. apply subseteq_size.
  intros x [Hx Hn]%elem_of_difference. apply elem_of_difference. auto.
Qed.

Lemma foldF_collect_post fuel :
  (∀ rr ref, collected_inv Map rr → size (dom Map ∖ collected rr) < fuel →
     collect_post Map rr (collect typeFunc Map fuel rr ref)) →
  ∀ refs rr, collected_inv Map rr → size (dom Map ∖ collected rr) < fuel →
    collect_post Map rr (foldF (collect typeFunc Map fuel) refs rr).
Proof.
  intros IH refs. induction refs as [|ref refs IHrefs]; intros rr Hinv Hlt; simpl.
  - done.
  - specialize (IH rr ref Hinv Hlt).
    destruct (collect typeFunc Map fuel rr ref) as [rr1| |]; simpl in *; try done.
    destruct IH as (Hinv1 & Hsub & Hreq & Hrec).
    specialize (IHrefs rr1 Hinv1 (measure_mono _ _ _ Hsub Hlt)).
    destruct (foldF (collect typeFunc Map fuel) refs rr1) as [rr2| |]; simpl in *; try done.
    destruct IHrefs as (? & ? & ? & ?).
    split; [done|]. split; [by etrans|]. split; congruence.
Qed.

Lemma collect_collect_post fuel : ∀ rr ref,
  collected_inv Map rr → size (dom Map ∖ collected rr) < fuel →
  collect_post Map rr (collect typeFunc Map fuel rr ref).
Proof.
  induction fuel as [|n IH]; intros rr ref Hinv Hlt; [lia|]. simpl.
  destruct (decide (ref ∈ collected rr)) as [Hin|Hnot]; [by simpl|].
  destruct (visit typeFunc Map rr ref) as [[content refs]|] eqn:Hv; simpl; try done.
  apply visit_Ret in Hv as [Hsome Hobj].
  pose proof (measure_emit rr ref content Hsome Hnot) as Hm.
  pose proof (emit_inv rr ref content Hinv Hnot Hobj Hsome) as Hinv'.
  assert (size (dom Map ∖ collected (emit rr ref content)) < n) as Hlt' by lia.
  pose proof (foldF_collect_post n IH refs _ Hinv' Hlt') as Hpost.
  destruct (foldF (collect typeFunc Map n) refs (emit rr ref content)) as [rr2| |];
    simpl in *; try done.
  destruct Hpost as (? & Hsub & ? & ?).
  split; [done|]. split; [|by split].
  etrans; [|exact Hsub]. simpl. apply union_subseteq_r.
Qed.

(** More fuel never changes an outcome that was reached. *)
Lemma collect_fuel_mono fuel : ∀ fuel' rr ref,
  fuel ≤ fuel' → collect typeFunc Map fuel rr ref ≠ OutOfFuel →
  collect typeFunc Map fuel' rr ref = collect typeFunc Map fuel rr ref.
Proof.
  induction fuel as [|n IH]; intros fuel' rr ref Hle Hne; [done|].
  destruct fuel' as [|n']; [lia|]. simpl in *.
  destruct (decide (ref ∈ collected rr)); [done|].
  destruct (visit typeFunc Map rr ref) as [[content refs]|]; simpl in *; try done.
  generalize dependent (emit rr ref content). clear content.
  induction refs as [|r refs IHrefs]; intros st Hne; simpl in *; [done|].
  destruct (collect typeFunc Map n st r) as [st1| |] eqn:Hc; simpl in *; try done.
  - rewrite (IH n' st r) by (lia || congruence). rewrite Hc. simpl. by apply IHrefs.
  - rewrite (IH n' st r) by (lia || congruence). by rewrite Hc.
Qed.

Lemma foldF_collect_fuel_mono fuel fuel' refs : ∀ rr,
  fuel ≤ fuel' → foldF (collect typeFunc Map fuel) refs rr ≠ OutOfFuel →
  foldF (collect typeFunc Map fuel') refs rr = foldF (collect typeFunc Map fuel) refs rr.
Proof.
  induction refs as [|r refs IH]; intros rr Hle Hne; simpl in *; [done|].
  destruct (collect typeFunc Map fuel rr r) as [st1| |] eqn:Hc; simpl in *; try done.
  - rewrite (collect_fuel_mono fuel fuel' rr r) by (lia || congruence).
    rewrite Hc. simpl. by apply IH.
  - rewrite (collect_fuel_mono fuel fuel' rr r) by (lia || congruence). by rewrite Hc.
Qed.

Lemma pc_collect_fuel_eq fuel r :
  pc_collect_fuel typeFunc Map fuel r =
  match seed_specs typeFunc Map (rpx_SpecSet r) (∅, []) with
  | Ret (inl (marks, refs)) =>
      match foldF (collect typeFunc Map fuel) refs (initial r marks) with
      | Done rr => Done (inl (rr_RetrieveResult rr))
      | Panicked p => Panicked p
      | OutOfFuel => OutOfFuel
      end
  | Ret (inr fault) => Done (inr fault)
  | Panic p => Panicked p
  end.
Proof.
  unfold pc_collect_fuel.
  by destruct (seed_specs typeFunc Map (rpx_SpecSet r) (∅, [])) as [[[marks refs]|fault]|].
Qed.

Lemma visits_post fuel r marks refs :
  size Map < fuel →
  collect_post Map (initial r marks) (foldF (collect typeFunc Map fuel) refs (initial r marks)).
Proof.
  intros Hlt. apply foldF_collect_post; [apply collect_collect_post| |].
  - split; [|split]; simpl; [apply NoDup_nil_2| |]; intros x; set_solver.
  - simpl. by rewrite difference_empty_L, size_dom.
Qed.

Lemma pc_collect_within_budget (r : RetrievePropertiesEx_req) :
  pc_collect typeFunc Map r ≠ OutOfFuel.
Proof.
  unfold pc_collect. rewrite pc_collect_fuel_eq.
  destruct (seed_specs _ _ _ _) as [[[marks refs]|fault]|]; try done.
  pose proof (visits_post (S (size Map)) r marks refs (Nat.lt_succ_diag_r _)) as Hp.
  by destruct (foldF _ refs _).
Qed.

(** C1: for every registry and every request the retrieval terminates: the
    call reaches an outcome (a result, a fault or a panic) within the
    recursion budget [S (size Map)], and no larger budget changes that
    outcome; in a returned result no reference appears twice among the
    object contents.  Nothing is assumed of the object graph, cycles
    included. *)
Theorem C1_retrieval_terminates_without_duplicates (r : RetrievePropertiesEx_req) :
  pc_collect typeFunc Map r ≠ OutOfFuel ∧
  (∀ fuel, size Map < fuel →
     pc_collect_fuel typeFunc Map fuel r = pc_collect typeFunc Map r) ∧
  (∀ res, pc_collect typeFunc Map r = Done (inl res) →
     NoDup (oc_Obj <$> Objects res)).
Proof.
  split; [apply pc_collect_within_budget|]. unfold pc_collect. split.
  - intros fuel Hlt. rewrite !pc_collect_fuel_eq.
    destruct (seed_specs _ _ _ _) as [[[marks refs]|fault]|]; try done.
    pose proof (visits_post (S (size Map)) r marks refs (Nat.lt_succ_diag_r _)) as Hp.
    rewrite (foldF_collect_fuel_mono (S (size Map)) fuel); [done|lia|].
    intros Heq. by rewrite Heq in Hp.
  - intros res. rewrite pc_collect_fuel_eq.
    destruct (seed_specs _ _ _ _) as [[[marks refs]|fault]|]; try done.
    pose proof (visits_post (S (size Map)) r marks refs (Nat.lt_succ_diag_r _)) as Hp.
    destruct (foldF _ refs _) as [rr| |]; try done.
    intros [= <-]. apply Hp.
Qed.


Lemma objects_registered r res :
  pc_collect typeFunc Map r = Done (inl res) →
  ∀ ref, ref ∈ (oc_Obj <$> Objects res) → is_Some (Map !! ref).
Proof.
  unfold pc_collect. rewrite pc_collect_fuel_eq.
  destruct (seed_specs _ _ _ _) as [[[marks refs]|fault]|]; try done.
  pose proof (visits_post (S (size Map)) r marks refs (Nat.lt_succ_diag_r _)) as Hp.
  destruct (foldF _ refs _) as [rr| |]; try done.
  intros [= <-] ref Href. destruct Hp as ((_ & Hiff & Hreg) & _). by apply Hreg, Hiff.
Qed.


(** *** The seed loop *)

Lemma seed_objects_app report os1 os2 st :
  seed_objects typeFunc Map report (os1 ++ os2) st =
  match seed_objects typeFunc Map report os1 st with
  | Ret (inl st') => seed_objects typeFunc Map report os2 st'
  | out => out
  end.
Proof.
  revert st. induction os1 as [|o os1 IH]; intros st; simpl; [done|].
  destruct (Map_Get Map (os_Obj o)) as [obj|].
  - destruct (foldM _ _ _) as [r|]; simpl; [apply IH|done].
  - destruct (isFalse report); [done|apply IH].
Qed.

Lemma seed_specs_app specs1 specs2 st :
  seed_specs typeFunc Map (specs1 ++ specs2) st =
  match seed_specs typeFunc Map specs1 st with
  | Ret (inl st') => seed_specs typeFunc Map specs2 st'
  | out => out
  end.
Proof.
  revert st. induction specs1 as [|spec specs1 IH]; intros st; simpl; [done|].
  destruct (seed_objects _ _ _ _ _) as [[st'|fault]|]; simpl; [apply IH|done|done].
Qed.

Lemma seed_specs_at specs1 props os1 o os2 report specs2 st :
  reaches_object typeFunc Map specs1 report os1 st →
  seed_specs typeFunc Map
    (specs1 ++ mkPropertyFilterSpec props (os1 ++ o :: os2) report :: specs2) (∅, []) =
  (r ← seed_objects typeFunc Map report (o :: os2) st;
   match r with
   | inl st' => seed_specs typeFunc Map specs2 st'
   | inr fault => Ret (inr fault)
   end).
Proof.
  intros (st1 & H1 & H2). rewrite seed_specs_app, H1. cbn [seed_specs].
  cbn [pfs_ReportMissingObjectsInResults pfs_ObjectSet].
  by rewrite seed_objects_app, H2.
Qed.

Lemma seed_select_assertion obj l n : ∀ st,
  SelectionSpec n ∈ l → ∃ p, foldM (seed_select typeFunc obj) l st = Panic p.
Proof.
  induction l as [|ss l IH]; intros st Hin; [by apply elem_of_nil in Hin|].
  apply elem_of_cons in Hin as [<-|Hin]; simpl; [by eexists|].
  destruct (seed_select typeFunc obj st ss) as [st'|p]; simpl; [by apply IH|by eexists].
Qed.

(** *** What a visit reads of the engine state *)

Lemma foldM_ext {A B : Type} (f g : B → A → run B) (l : list A) :
  (∀ b a, a ∈ l → f b a = g b a) → ∀ b, foldM f l b = foldM g l b.
Proof.
  induction l as [|a l IH]; intros Hfg b; simpl; [done|].
  rewrite Hfg by left. destruct (g b a); simpl; [|done].
  apply IH. intros; apply Hfg. by right.
Qed.

Lemma foldM_fmap {A B C : Type} (f : B → C → run B) (g : A → C) (l : list A) :
  ∀ b, foldM (λ b a, f b (g a)) l b = foldM f (g <$> l) b.
Proof.
  induction l as [|a l IH]; intros b; simpl; [done|].
  destruct (f b (g a)); simpl; auto.
Qed.

Lemma collectFields_loop_ext rr rr' rval fields :
  recurse rr = recurse rr' → ∀ content refs,
  collectFields_loop typeFunc rr rval fields content refs =
  collectFields_loop typeFunc rr' rval fields content refs.
Proof.
  intros Hrec. induction fields as [|name rest IH]; intros content refs; simpl; [done|].
  destruct (fieldValue typeFunc rval name) as [[val|[]]|]; simpl; auto.
  rewrite Hrec. destruct (if decide _ then _ else _); simpl; auto.
Qed.

Lemma collect_prop_ext rr rr' ref rval rtype acc p :
  recurse rr = recurse rr' →
  collect_prop typeFunc rr ref rval rtype acc p =
  collect_prop typeFunc rr' ref rval rtype acc p.
Proof.
  intros Hrec. unfold collect_prop, collectFields.
  by rewrite (collectFields_loop_ext rr rr').
Qed.

Lemma visit_ext rr rr' ref :
  recurse rr = recurse rr' → prop_sets (req rr) = prop_sets (req rr') →
  visit typeFunc Map rr ref = visit typeFunc Map rr' ref.
Proof.
  intros Hrec Hprops. unfold visit.
  destruct (reflect_object (Map_Get Map ref)) as [[rval rtype]|]; simpl; [|done].
  rewrite (foldM_fmap (λ acc ps, foldM (collect_prop typeFunc rr ref rval rtype) ps acc)
             pfs_PropSet).
  rewrite (foldM_fmap (λ acc ps, foldM (collect_prop typeFunc rr' ref rval rtype) ps acc)
             pfs_PropSet).
  unfold prop_sets in Hprops. rewrite Hprops.
  apply foldM_ext. intros acc ps _. apply foldM_ext. intros b p _.
  by apply collect_prop_ext.
Qed.

Lemma collect_same_view fuel : ∀ rr rr' ref,
  same_view rr rr' →
  same_outcome (collect typeFunc Map fuel rr ref) (collect typeFunc Map fuel rr' ref).
Proof.
  induction fuel as [|n IH]; intros rr rr' ref Hv; simpl; [done|].
  destruct Hv as (Hres & Hrec & Hcol & Hprops). rewrite <- Hcol.
  destruct (decide (ref ∈ collected rr)); [by simpl|].
  rewrite <- (visit_ext rr rr' ref Hrec Hprops).
  destruct (visit typeFunc Map rr ref) as [[content refs]|]; simpl; [|done].
  assert (same_view (emit rr ref content) (emit rr' ref content)) as Hemit.
  { unfold emit, same_view; simpl. by rewrite Hres, Hrec, Hcol. }
  generalize dependent (emit rr' ref content).
  generalize dependent (emit rr ref content).
  clear -IH. induction refs as [|r refs IHrefs]; intros st st' Hst; simpl; [done|].
  specialize (IH st st' r Hst).
  destruct (collect typeFunc Map n st r), (collect typeFunc Map n st' r); simpl in *;
    try done.
  by apply IHrefs.
Qed.

Lemma foldF_collect_same_view fuel refs : ∀ rr rr',
  same_view rr rr' →
  same_outcome (foldF (collect typeFunc Map fuel) refs rr)
               (foldF (collect typeFunc Map fuel) refs rr').
Proof.
  induction refs as [|r refs IH]; intros rr rr' Hv; simpl; [done|].
  pose proof (collect_same_view fuel rr rr' r Hv) as Hc.
  destruct (collect typeFunc Map fuel rr r), (collect typeFunc Map fuel rr' r);
    simpl in *; try done.
  by apply IH.
Qed.

(** Two requests with the same seeds and the same property specs are
    answered alike. *)
Lemma pc_collect_same_seed r r' :
  seed_specs typeFunc Map (rpx_SpecSet r) (∅, []) =
    seed_specs typeFunc Map (rpx_SpecSet r') (∅, []) →
  prop_sets r = prop_sets r' →
  pc_collect typeFunc Map r = pc_collect typeFunc Map r'.
Proof.
  intros Hseed Hprops. unfold pc_collect. rewrite !pc_collect_fuel_eq, Hseed.
  clear Hseed.
  destruct (seed_specs typeFunc Map (rpx_SpecSet r') (∅, [])) as [[[marks refs]|fault]|];
    try done.
  pose proof (foldF_collect_same_view (S (size Map)) refs (initial r marks)
                (initial r' marks)
                (conj eq_refl (conj eq_refl (conj eq_refl Hprops)))) as Hs.
  destruct (foldF _ refs (initial r marks)) as [a| |],
           (foldF _ refs (initial r' marks)) as [b| |];
    cbn [same_outcome] in Hs; try done.
  - by destruct Hs as [-> _].
  - by rewrite Hs.
Qed.

(** *** Absent roots *)

Lemma seed_objects_fault report os : ∀ st fault,
  seed_objects typeFunc Map report os st = Ret (inr fault) →
  isFalse report = true ∧
  ∃ o, o ∈ os ∧ Map !! os_Obj o = None ∧ fault = ManagedObjectNotFound (os_Obj o).
Proof.
  induction os as [|o os IH]; intros st fault; simpl; [done|].
  unfold Map_Get. destruct (Map !! os_Obj o) as [obj|] eqn:Hget.
  - intros (r & _ & H)%bind_Ret_inv. apply IH in H as (? & o' & ? & ? & ?).
    split; [done|]. exists o'. split; [by right|done].
  - destruct (isFalse report) eqn:Hrep.
    + intros [= <-]. split; [done|]. exists o. split; [by left|done].
    + intros H. apply IH in H as (? & o' & ? & ? & ?). done.
Qed.

Lemma seed_specs_fault specs : ∀ st fault,
  seed_specs typeFunc Map specs st = Ret (inr fault) →
  ∃ spec o, spec ∈ specs ∧ o ∈ pfs_ObjectSet spec ∧
    isFalse (pfs_ReportMissingObjectsInResults spec) = true ∧
    Map !! os_Obj o = None ∧ fault = ManagedObjectNotFound (os_Obj o).
Proof.
  induction specs as [|spec specs IH]; intros st fault; simpl; [done|].
  intros ([st'|f] & H1 & H2)%bind_Ret_inv.
  - apply IH in H2 as (spec' & o & ? & ?). exists spec', o. split; [by right|done].
  - injection H2 as <-. apply seed_objects_fault in H1 as (? & o & ? & ? & ?).
    exists spec, o. split; [by left|done].
Qed.

Lemma seed_objects_no_result report os o : ∀ st st',
  o ∈ os → Map !! os_Obj o = None → isFalse report = true →
  seed_objects typeFunc Map report os st ≠ Ret (inl st').
Proof.
  induction os as [|o' os IH]; intros st st' Hin Habs Hrep; [by apply elem_of_nil in Hin|].
  simpl. unfold Map_Get. apply elem_of_cons in Hin as [<-|Hin].
  - by rewrite Habs, Hrep.
  - destruct (Map !! os_Obj o') as [obj|].
    + intros (r & _ & H)%bind_Ret_inv. by eapply IH.
    + rewrite Hrep. done.
Qed.

Lemma seed_specs_no_result specs spec o : ∀ st st',
  spec ∈ specs → o ∈ pfs_ObjectSet spec → Map !! os_Obj o = None →
  isFalse (pfs_ReportMissingObjectsInResults spec) = true →
  seed_specs typeFunc Map specs st ≠ Ret (inl st').
Proof.
  induction specs as [|spec' specs IH]; intros st st' Hin Ho Habs Hrep;
    [by apply elem_of_nil in Hin|].
  simpl. intros ([st1|f] & H1 & H2)%bind_Ret_inv; [|done].
  apply elem_of_cons in Hin as [<-|Hin].
  - by eapply seed_objects_no_result.
  - by eapply IH.
Qed.

Lemma seed_objects_skips_absent report os1 o os2 st :
  Map !! os_Obj o = None → isFalse report = false →
  seed_objects typeFunc Map report (os1 ++ o :: os2) st =
  seed_objects typeFunc Map report (os1 ++ os2) st.
Proof.
  intros Habs Hrep. rewrite !seed_objects_app.
  destruct (seed_objects typeFunc Map report os1 st) as [[st'|]|]; try done.
  simpl. unfold Map_Get. by rewrite Habs, Hrep.
Qed.

(** C3 (amended): an object spec [o] of the request whose root is not
    registered.
    With the report flag of its filter spec unset (nil or false) the call
    never returns a result, any fault it returns is a ManagedObjectNotFound
    carrying an unregistered root of a filter spec with the flag unset, and
    once the seed loop reaches [o] the call returns the fault carrying the
    reference of [o], which [RetrievePropertiesEx] wraps in its body with no
    result.  With the flag set the root is skipped silently: the call
    answers as it answers the request without [o], and no object content is
    returned for the reference. *)
Theorem C3_absent_root_faults_or_is_skipped
    (this : ManagedObjectReference) (opts : RetrieveOptions)
    (specs1 specs2 : list PropertyFilterSpec) (props : list PropertySpec)
    (os1 os2 : list ObjectSpec) (o : ObjectSpec) (report : option bool) :
  let r := mkRetrievePropertiesEx this
             (specs1 ++ mkPropertyFilterSpec props (os1 ++ o :: os2) report :: specs2)
             opts in
  let r' := mkRetrievePropertiesEx this
              (specs1 ++ mkPropertyFilterSpec props (os1 ++ os2) report :: specs2)
              opts in
  Map !! os_Obj o = None →
  if isFalse report then
    (∀ res, pc_collect typeFunc Map r ≠ Done (inl res)) ∧
    (∀ fault, pc_collect typeFunc Map r = Done (inr fault) →
       ∃ spec' o', spec' ∈ rpx_SpecSet r ∧ o' ∈ pfs_ObjectSet spec' ∧
         isFalse (pfs_ReportMissingObjectsInResults spec') = true ∧
         Map !! os_Obj o' = None ∧ fault = ManagedObjectNotFound (os_Obj o')) ∧
    (∀ st, reaches_object typeFunc Map specs1 report os1 st →
       pc_collect typeFunc Map r = Done (inr (ManagedObjectNotFound (os_Obj o))) ∧
       RetrievePropertiesEx typeFunc Map soapFault Fault r =
         Done (mkRetrievePropertiesExBody None
                 (Some (Fault "" (ManagedObjectNotFound (os_Obj o))))))
  else
    pc_collect typeFunc Map r = pc_collect typeFunc Map r' ∧
    RetrievePropertiesEx typeFunc Map soapFault Fault r =
      RetrievePropertiesEx typeFunc Map soapFault Fault r' ∧
    (∀ res, pc_collect typeFunc Map r = Done (inl res) →
       os_Obj o ∉ (oc_Obj <$> Objects res)).
Proof.
  intros r r' Habs. destruct (isFalse report) eqn:Hrep.
  - split; [|split].
    + intros res. unfold pc_collect. rewrite pc_collect_fuel_eq.
      destruct (seed_specs _ _ _ _) as [[[marks refs]|fault]|] eqn:Hseed; try done.
      exfalso. revert Hseed.
      apply (seed_specs_no_result _
               (mkPropertyFilterSpec props (os1 ++ o :: os2) report) o);
        [|simpl|exact Habs|exact Hrep].
      * apply elem_of_app. right. left.
      * apply elem_of_app. right. left.
    + intros fault. unfold pc_collect. rewrite pc_collect_fuel_eq.
      destruct (seed_specs _ _ _ _) as [[[marks refs]|f]|] eqn:Hseed; try done.
      * by destruct (foldF _ refs _).
      * intros [= ->]. by apply seed_specs_fault in Hseed.
    + intros st Hreach.
      assert (pc_collect typeFunc Map r = Done (inr (ManagedObjectNotFound (os_Obj o)))) as Hc.
      { unfold pc_collect. rewrite pc_collect_fuel_eq. unfold r.
        cbn [rpx_SpecSet]. rewrite (seed_specs_at _ _ _ _ _ _ _ _ Hreach).
        simpl. unfold Map_Get. by rewrite Habs, Hrep. }
      split; [done|]. unfold RetrievePropertiesEx. by rewrite Hc.
  - assert (pc_collect typeFunc Map r = pc_collect typeFunc Map r') as Hc.
    { apply pc_collect_same_seed.
      - unfold r, r'. cbn [rpx_SpecSet]. rewrite !seed_specs_app.
        destruct (seed_specs typeFunc Map specs1 (∅, [])) as [[st1|]|]; try done.
        cbn [seed_specs pfs_ReportMissingObjectsInResults pfs_ObjectSet].
        by rewrite seed_objects_skips_absent.
      - unfold prop_sets, r, r'. cbn [rpx_SpecSet]. by rewrite !fmap_app. }
    split; [done|]. split.
    + unfold RetrievePropertiesEx. by rewrite Hc.
    + intros res Hres Hin. apply (objects_registered _ _ Hres) in Hin.
      rewrite Habs in Hin. by destruct Hin.
Qed.

(** *** The seeds of one object spec *)

Lemma root_seeded_guard o :
  bool_decide (os_SelectSet o = None) || isFalse (os_Skip o) = root_seeded o.
Proof.
  unfold root_seeded. destruct o as [obj [[]|] [sel|]]; simpl;
    repeat case_bool_decide; simpl; congruence.
Qed.

Lemma seed_select_discovers obj sel : ∀ all st st',
  (∀ ss, ss ∈ sel → ss ∈ all) →
  foldM (seed_select typeFunc obj) sel st = Ret st' →
  ∃ found, st'.2 = st.2 ++ found ∧
    Forall (discovered_by_traversal typeFunc obj all) found.
Proof.
  induction sel as [|ss sel IH]; intros all st st' Hall; simpl.
  - intros [= <-]. exists []. by rewrite app_nil_r.
  - intros (st1 & H1 & H2)%bind_Ret_inv.
    apply (IH all) in H2 as (found2 & Heq2 & Hf2); [|intros; apply Hall; by right].
    destruct ss as [|name ty path skip nested]; [done|]. simpl in H1.
    apply bind_Ret_inv in H1 as (f & Hf & H1).
    apply bind_Ret_inv in H1 as (more & Hmore & [= <-]). simpl in Heq2.
    exists (more ++ found2). split; [by rewrite Heq2, app_assoc|].
    apply Forall_app. split; [|done].
    apply Forall_forall. intros ref Href.
    destruct f as [v|e]; [|by injection Hmore as <-; apply elem_of_nil in Href].
    exists name, ty, path, skip, nested, v, more.
    split; [apply Hall; by left|done].
Qed.

Lemma seed_object_step report o rest st obj :
  Map !! os_Obj o = Some obj →
  seed_objects typeFunc Map report (o :: rest) st =
  (r ← foldM (seed_select typeFunc obj) (range (os_SelectSet o))
         (st.1, st.2 ++ (if root_seeded o then [os_Obj o] else []));
   seed_objects typeFunc Map report rest r).
Proof.
  intros Hobj. simpl. unfold Map_Get. rewrite Hobj, root_seeded_guard.
  destruct (root_seeded o); [done|]. by rewrite app_nil_r.
Qed.

Lemma seed_objects_frontier report os : ∀ st st',
  seed_objects typeFunc Map report os st = Ret (inl st') →
  ∀ x, x ∈ st'.2 → x ∈ st.2 ∨ ∃ o, o ∈ os ∧ seeded_by typeFunc Map o x.
Proof.
  induction os as [|o os IH]; intros st st'.
  - simpl. intros [= <-]. auto.
  - destruct (Map !! os_Obj o) as [obj|] eqn:Hobj.
    + rewrite (seed_object_step _ _ _ _ obj Hobj).
      intros (st1 & H1 & H2)%bind_Ret_inv x Hx.
      apply (seed_select_discovers _ _ (range (os_SelectSet o))) in H1
        as (found & Heq & Hfound); [|done].
      destruct (IH _ _ H2 x Hx) as [Hin|(o' & Ho' & Hs)];
        [|right; exists o'; split; [by right|done]].
      rewrite Heq in Hin. simpl in Hin.
      apply elem_of_app in Hin as [Hin|Hin];
        [apply elem_of_app in Hin as [Hin|Hin]|]; [by left| |].
      * right. exists o. split; [by left|]. exists obj. split; [done|]. left.
        destruct (root_seeded o); [|by apply elem_of_nil in Hin].
        by apply list_elem_of_singleton in Hin.
      * right. exists o. split; [by left|]. exists obj. split; [done|]. right.
        rewrite Forall_forall in Hfound. auto.
    + simpl. unfold Map_Get. rewrite Hobj. destruct (isFalse report); [done|].
      intros H x Hx. destruct (IH _ _ H x Hx) as [?|(o' & ? & ?)]; [by left|].
      right. exists o'. split; [by right|done].
Qed.

Lemma seed_specs_frontier specs : ∀ st st',
  seed_specs typeFunc Map specs st = Ret (inl st') →
  ∀ x, x ∈ st'.2 →
    x ∈ st.2 ∨ ∃ spec o, spec ∈ specs ∧ o ∈ pfs_ObjectSet spec ∧ seeded_by typeFunc Map o x.
Proof.
  induction specs as [|spec specs IH]; intros st st'; simpl.
  - intros [= <-]. auto.
  - intros ([st1|f] & H1 & H2)%bind_Ret_inv x Hx; [|done].
    destruct (IH _ _ H2 x Hx) as [Hin|(spec' & o & ? & ? & ?)].
    + destruct (seed_objects_frontier _ _ _ _ H1 x Hin) as [?|(o & ? & ?)]; [by left|].
      right. exists spec, o. split; [by left|done].
    + right. exists spec', o. split; [by right|done].
Qed.

(** *** Every emitted object was seeded or handed on by a visit *)

Lemma collect_from_frontier r marks fuel : ∀ rr ref rr',
  req rr = r → recurse rr = marks →
  collect typeFunc Map fuel rr ref = Done rr' →
  req rr' = r ∧ recurse rr' = marks ∧
  ∀ x, x ∈ collected rr' →
    x ∈ collected rr ∨ x = ref ∨ discovered_by_visit typeFunc Map r marks x.
Proof.
  induction fuel as [|n IH]; intros rr ref rr' Hreq Hrec; simpl; [done|].
  destruct (decide (ref ∈ collected rr)); [intros [= <-]; auto|].
  destruct (visit typeFunc Map rr ref) as [[content found]|] eqn:Hv; simpl; [|done].
  assert (∀ x, x ∈ found → discovered_by_visit typeFunc Map r marks x) as Hdisc.
  { intros x Hx. exists ref, content, found. split; [|done].
    rewrite <- Hv. apply visit_ext; simpl; congruence. }
  assert (req (emit rr ref content) = r ∧ recurse (emit rr ref content) = marks ∧
          ∀ x, x ∈ collected (emit rr ref content) →
            x ∈ collected rr ∨ x = ref ∨ discovered_by_visit typeFunc Map r marks x)
    as Hemit.
  { split; [done|]. split; [done|]. simpl.
    intros x [->%elem_of_singleton|?]%elem_of_union; auto. }
  clear Hv. generalize dependent (emit rr ref content).
  induction found as [|y found IHfound]; intros st (Hreq' & Hrec' & Hcol); simpl.
  - by intros [= <-].
  - destruct (collect typeFunc Map n st y) as [st1| |] eqn:Hc; simpl; try done.
    apply (IH _ _ _ Hreq' Hrec') in Hc as (Hreq1 & Hrec1 & Hcol1).
    apply IHfound.
    + intros x Hx. apply Hdisc. by right.
    + split; [done|]. split; [done|]. intros x Hx.
      destruct (Hcol1 x Hx) as [Hin|[->|?]]; auto.
      do 2 right. apply Hdisc. by left.
Qed.

Lemma foldF_collect_from_frontier r marks fuel refs : ∀ rr rr',
  req rr = r → recurse rr = marks →
  foldF (collect typeFunc Map fuel) refs rr = Done rr' →
  ∀ x, x ∈ collected rr' →
    x ∈ collected rr ∨ x ∈ refs ∨ discovered_by_visit typeFunc Map r marks x.
Proof.
  induction refs as [|y refs IH]; intros rr rr' Hreq Hrec; simpl.
  - intros [= <-]. auto.
  - destruct (collect typeFunc Map fuel rr y) as [st1| |] eqn:Hc; simpl; try done.
    apply (collect_from_frontier r marks) in Hc as (Hreq1 & Hrec1 & Hcol1); [|done..].
    intros H x Hx. destruct (IH _ _ Hreq1 Hrec1 H x Hx) as [Hin|[Hin|?]]; auto.
    + destruct (Hcol1 x Hin) as [?|[->|?]]; auto. right. left. by left.
    + right. left. by right.
Qed.

Lemma emitted_from_frontier r marks frontier res :
  seed_specs typeFunc Map (rpx_SpecSet r) (∅, []) = Ret (inl (marks, frontier)) →
  pc_collect typeFunc Map r = Done (inl res) →
  ∀ x, x ∈ (oc_Obj <$> Objects res) →
    x ∈ frontier ∨ discovered_by_visit typeFunc Map r marks x.
Proof.
  intros Hseed. unfold pc_collect. rewrite pc_collect_fuel_eq, Hseed.
  pose proof (visits_post (S (size Map)) r marks frontier (Nat.lt_succ_diag_r _)) as Hp.
  destruct (foldF _ frontier _) as [rr| |] eqn:Hf; try done.
  intros [= <-] x Hx. destruct Hp as ((_ & Hiff & _) & _). apply Hiff in Hx.
  destruct (foldF_collect_from_frontier r marks _ _ (initial r marks) rr
              eq_refl eq_refl Hf x Hx) as [Hin|[?|?]]; auto.
  by apply elem_of_empty in Hin.
Qed.

(** C7 (amended): for an object spec whose root is registered, the root is
    added to the frontier unless the skip flag is true and the select set is
    not nil; what the object spec adds besides comes from resolving the
    paths of its traversal specs on the root.  So an object content is
    returned for a reference only if some object spec seeds it as its root
    (skip unset or false, or no select set), or it is found along a
    traversal spec's path at the seed, or the visit of an object hands it
    on. *)
Theorem C7_root_seeded_unless_skipped_with_select_set (r : RetrievePropertiesEx_req) :
  (∀ report o obj st st',
     Map !! os_Obj o = Some obj →
     seed_objects typeFunc Map report [o] st = Ret (inl st') →
     ∃ found,
       st'.2 = st.2 ++ (if root_seeded o then [os_Obj o] else []) ++ found ∧
       Forall (discovered_by_traversal typeFunc obj (range (os_SelectSet o))) found) ∧
  (∀ marks frontier res,
     seed_specs typeFunc Map (rpx_SpecSet r) (∅, []) = Ret (inl (marks, frontier)) →
     pc_collect typeFunc Map r = Done (inl res) →
     ∀ x, x ∈ (oc_Obj <$> Objects res) →
       (∃ spec o, spec ∈ rpx_SpecSet r ∧ o ∈ pfs_ObjectSet spec ∧
                  seeded_by typeFunc Map o x) ∨
       discovered_by_visit typeFunc Map r marks x).
Proof.
  split.
  - intros report o obj st st' Hobj. rewrite (seed_object_step _ _ _ _ obj Hobj).
    intros (st1 & H1 & [= <-])%bind_Ret_inv.
    apply (seed_select_discovers _ _ (range (os_SelectSet o))) in H1
      as (found & Heq & Hfound); [|done].
    exists found. simpl in Heq. by rewrite Heq, app_assoc.
  - intros marks frontier res Hseed Hres x Hx.
    destruct (emitted_from_frontier _ _ _ _ Hseed Hres x Hx) as [Hin|?]; [|by right].
    left. destruct (seed_specs_frontier _ _ _ Hseed x Hin) as [Hin'|?]; [|done].
    by apply elem_of_nil in Hin'.
Qed.

(** *** Select sets *)

(** C10 (amended): the seed loop type-asserts the select-set entries of an
    object spec only when the root of that object spec is registered.  Once
    the loop reaches such an object spec and its select set holds an entry
    that is not a TraversalSpec, [PropertyCollector.collect] and
    [RetrievePropertiesEx] panic instead of returning a result or a fault;
    the panic is the failed type assertion when the entries before the
    offending one are processed without a panic of their own. *)
Theorem C10_registered_root_requires_traversal_specs
    (this : ManagedObjectReference) (opts : RetrieveOptions)
    (specs1 specs2 : list PropertyFilterSpec) (props : list PropertySpec)
    (os1 os2 : list ObjectSpec) (o : ObjectSpec) (report : option bool)
    (st : seed) (obj : value) (n : string) :
  let r := mkRetrievePropertiesEx this
             (specs1 ++ mkPropertyFilterSpec props (os1 ++ o :: os2) report :: specs2)
             opts in
  reaches_object typeFunc Map specs1 report os1 st →
  Map !! os_Obj o = Some obj →
  SelectionSpec n ∈ range (os_SelectSet o) →
  (∃ p, pc_collect typeFunc Map r = Panicked p ∧
        RetrievePropertiesEx typeFunc Map soapFault Fault r = Panicked p) ∧
  (∀ pre post st',
     range (os_SelectSet o) = pre ++ SelectionSpec n :: post →
     foldM (seed_select typeFunc obj) pre
       (st.1, st.2 ++ (if root_seeded o then [os_Obj o] else [])) = Ret st' →
     pc_collect typeFunc Map r = Panicked AssertPanic).
Proof.
  intros r Hreach Hobj Hin.
  assert (pc_collect typeFunc Map r =
          match foldM (seed_select typeFunc obj) (range (os_SelectSet o))
                  (st.1, st.2 ++ (if root_seeded o then [os_Obj o] else [])) with
          | Ret _ => pc_collect typeFunc Map r
          | Panic p => Panicked p
          end) as Heq.
  { destruct (foldM _ _ _) as [st'|p] eqn:Hsel; [done|].
    unfold pc_collect. rewrite pc_collect_fuel_eq. unfold r. cbn [rpx_SpecSet].
    rewrite (seed_specs_at _ _ _ _ _ _ _ _ Hreach).
    by rewrite (seed_object_step _ _ _ _ obj Hobj), Hsel. }
  split.
  - destruct (seed_select_assertion obj _ n
                (st.1, st.2 ++ (if root_seeded o then [os_Obj o] else [])) Hin)
      as [p Hp].
    rewrite Hp in Heq. exists p. split; [done|].
    unfold RetrievePropertiesEx. by rewrite Heq.
  - intros pre post st' Hsplit Hpre. rewrite Heq, Hsplit, foldM_app, Hpre. done.
Qed.

(** *** The visit of a reference that is not registered *)

Lemma collect_unregistered fuel rr ref :
  ref ∉ collected rr → Map !! ref = None →
  collect typeFunc Map (S fuel) rr ref = Panicked ZeroValuePanic.
Proof.
  intros Hnot Habs. simpl. destruct (decide (ref ∈ collected rr)); [done|].
  unfold visit, Map_Get. by rewrite Habs.
Qed.

(** *** The legacy entry point *)

(** C9: [RetrieveProperties] answers a legacy request with what
    [RetrievePropertiesEx] answers the request built from the same [This]
    and [SpecSet]: the same fault when that call faults, the [Objects] list
    of its result otherwise, and the same panic when it panics. *)
Theorem C9_RetrieveProperties_is_RetrievePropertiesEx_unwrapped
    (r : RetrieveProperties_req) :
  let rx := mkRetrievePropertiesEx (rp_This r) (rp_SpecSet r) (mkRetrieveOptions 0) in
  match RetrievePropertiesEx typeFunc Map soapFault Fault rx with
  | Done body =>
      match rpxb_Fault_ body with
      | Some fault =>
          RetrieveProperties typeFunc Map soapFault Fault r =
            Done (mkRetrievePropertiesBody None (Some fault))
      | None =>
          ∃ res, rpxb_Res body = Some (mkRetrievePropertiesExResponse (Some res)) ∧
            pc_collect typeFunc Map rx = Done (inl res) ∧
            RetrieveProperties typeFunc Map soapFault Fault r =
              Done (mkRetrievePropertiesBody
                      (Some (mkRetrievePropertiesResponse (Objects res))) None)
      end
  | Panicked p => RetrieveProperties typeFunc Map soapFault Fault r = Panicked p
  | OutOfFuel => False
  end.
Proof.
  intros rx. unfold RetrieveProperties. fold rx. unfold RetrievePropertiesEx.
  pose proof (pc_collect_within_budget rx) as Hfuel.
  destruct (pc_collect typeFunc Map rx) as [[res|fault]|p|]; simpl; try done.
  by exists res.
Qed.

(** *** Which paths hand references on *)

Lemma collectFields_loop_refs rr rval fields : ∀ (all : list string) content refs content' refs',
  (∀ name, name ∈ fields → name ∈ all) →
  collectFields_loop typeFunc rr rval fields content refs = Ret (content', refs') →
  ∃ found, refs' = refs ++ found ∧
    ∀ x, x ∈ found →
      ∃ name v l, name ∈ all ∧ name ∈ recurse rr ∧
        fieldValue typeFunc rval name = Ret (inl v) ∧ fieldRefs v = Ret l ∧ x ∈ l.
Proof.
  induction fields as [|name rest IH]; intros all content refs content' refs' Hall; simpl.
  - intros [= <- <-]. exists []. split; [by rewrite app_nil_r|].
    intros x Hx. by apply elem_of_nil in Hx.
  - assert (∀ n, n ∈ rest → n ∈ all) as Hall' by (intros; apply Hall; by right).
    intros ([val|[]] & H1 & H2)%bind_Ret_inv.
    + apply bind_Ret_inv in H2 as (more & Hmore & H2).
      apply (IH all) in H2 as (found & -> & Hfound); [|done].
      exists (more ++ found). split; [by rewrite app_assoc|].
      intros x [Hx|Hx]%elem_of_app; [|by apply Hfound].
      destruct (decide (name ∈ recurse rr)) as [Hmark|];
        [|by injection Hmore as <-; apply elem_of_nil in Hx].
      exists name, val, more. split; [apply Hall; by left|done].
    + by apply (IH all) in H2.
    + by apply (IH all) in H2.
Qed.

Lemma seed_select_marks obj sel : ∀ (all : list BaseSelectionSpec) st st',
  (∀ ss, ss ∈ sel → ss ∈ all) →
  foldM (seed_select typeFunc obj) sel st = Ret st' →
  ∀ path, path ∈ st'.1 → path ∈ st.1 ∨
    ∃ name ty skip nested, TraversalSpec name ty path skip (Some nested) ∈ all.
Proof.
  induction sel as [|ss sel IH]; intros all st st' Hall; simpl.
  - intros [= <-]. auto.
  - intros (st1 & H1 & H2)%bind_Ret_inv path Hpath.
    destruct (IH all _ _ (λ s H, Hall s (list_elem_of_further _ _ _ H)) H2 path Hpath)
      as [Hin|?]; [|by right].
    destruct ss as [|name ty p skip nested]; [done|]. simpl in H1.
    apply bind_Ret_inv in H1 as (f & _ & H1).
    apply bind_Ret_inv in H1 as (more & _ & [= <-]). simpl in Hin.
    destruct nested as [nested|]; [|by left].
    apply elem_of_union in Hin as [->%elem_of_singleton|?]; [|by left].
    right. exists name, ty, skip, nested. apply Hall. by left.
Qed.

Lemma seed_objects_marks report os : ∀ st st',
  seed_objects typeFunc Map report os st = Ret (inl st') →
  ∀ path, path ∈ st'.1 → path ∈ st.1 ∨
    ∃ o name ty skip nested, o ∈ os ∧
      TraversalSpec name ty path skip (Some nested) ∈ range (os_SelectSet o).
Proof.
  induction os as [|o os IH]; intros st st'.
  - simpl. intros [= <-]. auto.
  - destruct (Map !! os_Obj o) as [obj|] eqn:Hobj.
    + rewrite (seed_object_step _ _ _ _ obj Hobj).
      intros (st1 & H1 & H2)%bind_Ret_inv path Hpath.
      destruct (IH _ _ H2 path Hpath) as [Hin|(o' & ? & ? & ? & ? & ? & ?)].
      * destruct (seed_select_marks _ _ (range (os_SelectSet o)) _ _ (λ _ H, H) H1
                    path Hin) as [?|(name & ty & skip & nested & ?)]; [by left|].
        right. exists o, name, ty, skip, nested. split; [by left|done].
      * right. eexists o', _, _, _, _. split; [by right|done].
    + simpl. unfold Map_Get. rewrite Hobj. destruct (isFalse report); [done|].
      intros H path Hpath.
      destruct (IH _ _ H path Hpath) as [?|(o' & ? & ? & ? & ? & ? & ?)]; [by left|].
      right. eexists o', _, _, _, _. split; [by right|done].
Qed.

Lemma seed_specs_marks specs : ∀ st st',
  seed_specs typeFunc Map specs st = Ret (inl st') →
  ∀ path, path ∈ st'.1 → path ∈ st.1 ∨
    ∃ spec o name ty skip nested, spec ∈ specs ∧ o ∈ pfs_ObjectSet spec ∧
      TraversalSpec name ty path skip (Some nested) ∈ range (os_SelectSet o).
Proof.
  induction specs as [|spec specs IH]; intros st st'; simpl.
  - intros [= <-]. auto.
  - intros ([st1|f] & H1 & H2)%bind_Ret_inv path Hpath; [|done].
    destruct (IH _ _ H2 path Hpath) as [Hin|(spec' & o & ? & ? & ? & ? & ? & ? & ?)].
    + destruct (seed_objects_marks _ _ _ _ H1 path Hin)
        as [?|(o & ? & ? & ? & ? & ? & ?)]; [by left|].
      right. eexists spec, o, _, _, _, _. split; [by left|done].
    + right. eexists spec', o, _, _, _, _. split; [by right|done].
Qed.

Lemma collect_prop_refs rr ref rval rtype acc p acc' :
  collect_prop typeFunc rr ref rval rtype acc p = Ret acc' →
  ∃ found, acc'.2 = acc.2 ++ found ∧
    ∀ x, x ∈ found →
      ∃ name v l, name ∈ ps_PathSet p ∧ name ∈ recurse rr ∧
        fieldValue typeFunc rval name = Ret (inl v) ∧ fieldRefs v = Ret l ∧ x ∈ l.
Proof.
  unfold collect_prop. intros (ok & _ & H)%bind_Ret_inv.
  assert (∃ found : list ManagedObjectReference, acc.2 = acc.2 ++ found ∧
            ∀ x, x ∈ found → ∃ name v l, name ∈ ps_PathSet p ∧ name ∈ recurse rr ∧
              fieldValue typeFunc rval name = Ret (inl v) ∧ fieldRefs v = Ret l ∧ x ∈ l)
    as Hnone.
  { exists []. split; [by rewrite app_nil_r|]. intros x Hx. by apply elem_of_nil in Hx. }
  destruct ok; simpl in H; [|by injection H as <-].
  destruct (isTrue (ps_All p)).
  - by apply bind_Ret_inv in H as (c & _ & [= <-]).
  - apply bind_Ret_inv in H as ([c more] & H1 & [= <-]). simpl.
    unfold collectFields in H1.
    apply (collectFields_loop_refs _ _ _ (ps_PathSet p)) in H1 as (found & -> & Hf);
      [|done].
    exists found. split; [done|]. intros x Hx. by apply Hf.
Qed.

Lemma visit_refs rr ref content found :
  visit typeFunc Map rr ref = Ret (content, found) →
  ∃ rval rtype, reflect_object (Map_Get Map ref) = Ret (rval, rtype) ∧
    ∀ x, x ∈ found → taken_from_marked_path typeFunc rr rval x.
Proof.
  unfold visit. intros ([rval rtype] & H1 & H2)%bind_Ret_inv.
  exists rval, rtype. split; [done|].
  revert H2.
  apply (foldM_inv (λ acc, ∀ x, x ∈ acc.2 → taken_from_marked_path typeFunc rr rval x));
    [|intros x Hx; by apply elem_of_nil in Hx].
  intros acc spec acc' Hacc Hspec.
  apply (foldM_inv (λ acc, ∀ x, x ∈ acc.2 → taken_from_marked_path typeFunc rr rval x));
    [|done].
  intros b p b' Hb Hp (fnd & Heq & Hf)%collect_prop_refs x Hx.
  rewrite Heq in Hx. apply elem_of_app in Hx as [Hx|Hx]; [by apply Hb|].
  destruct (Hf x Hx) as (name & v & l & ? & ? & ? & ? & ?).
  by exists spec, p, name, v, l.
Qed.

(** C6 (amended): apart from the seed step, which puts on the frontier the
    references each traversal spec's path resolves to on its registered
    root, whether or not the spec carries a nested select set, only a
    property path marked recursive by a traversal spec carrying a nested
    select set adds its resolved references to the frontier.  A mark comes
    from such a traversal spec of the request; [collectFields] returns only
    references read from resolved, marked paths, and none at all when no
    listed path is marked, whatever the values are; the references a visit
    hands on all come that way; so every object content returned is for a
    seed or for a reference read from a marked path. *)
Theorem C6_frontier_fed_by_seed_and_marked_paths (r : RetrievePropertiesEx_req) :
  (∀ marks frontier,
     seed_specs typeFunc Map (rpx_SpecSet r) (∅, []) = Ret (inl (marks, frontier)) →
     ∀ path, path ∈ marks → marked_by_request r path) ∧
  (∀ rr rval fields content content' found,
     collectFields typeFunc rr rval fields content = Ret (content', found) →
     (∀ x, x ∈ found →
        ∃ name v l, name ∈ fields ∧ name ∈ recurse rr ∧
          fieldValue typeFunc rval name = Ret (inl v) ∧ fieldRefs v = Ret l ∧ x ∈ l) ∧
     ((∀ name, name ∈ fields → name ∉ recurse rr) → found = [])) ∧
  (∀ rr ref content found,
     visit typeFunc Map rr ref = Ret (content, found) →
     ∃ rval rtype, reflect_object (Map_Get Map ref) = Ret (rval, rtype) ∧
       ∀ x, x ∈ found → taken_from_marked_path typeFunc rr rval x) ∧
  (∀ marks frontier res,
     seed_specs typeFunc Map (rpx_SpecSet r) (∅, []) = Ret (inl (marks, frontier)) →
     pc_collect typeFunc Map r = Done (inl res) →
     ∀ x, x ∈ (oc_Obj <$> Objects res) →
       (∃ spec o, spec ∈ rpx_SpecSet r ∧ o ∈ pfs_ObjectSet spec ∧
                  seeded_by typeFunc Map o x) ∨
       (∃ parent rval rtype,
          reflect_object (Map_Get Map parent) = Ret (rval, rtype) ∧
          taken_from_marked_path typeFunc (initial r marks) rval x)).
Proof.
  split; [|split; [|split]].
  - intros marks frontier Hseed path Hpath.
    destruct (seed_specs_marks _ _ _ Hseed path Hpath)
      as [Hin|(spec & o & name & ty & skip & nested & ? & ? & ?)];
      [by apply elem_of_empty in Hin|].
    by exists spec, o, name, ty, skip, nested.
  - intros rr rval fields content content' found H.
    apply (collectFields_loop_refs _ _ _ fields) in H as (fnd & Heq & Hf); [|done].
    simpl in Heq. subst fnd. split; [done|].
    intros Hnone. destruct found as [|x found]; [done|].
    destruct (Hf x) as (name & _ & _ & Hin & Hmark & _); [by left|].
    by destruct (Hnone name Hin).
  - apply visit_refs.
  - intros marks frontier res Hseed Hres x Hx.
    destruct (emitted_from_frontier _ _ _ _ Hseed Hres x Hx)
      as [Hin|(parent & content & found & Hv & Hfound)].
    + left. destruct (seed_specs_frontier _ _ _ Hseed x Hin) as [Hin'|?]; [|done].
      by apply elem_of_nil in Hin'.
    + right. apply visit_refs in Hv as (rval & rtype & Hobj & Htaken).
      exists parent, rval, rtype. split; [done|]. by apply Htaken.
Qed.

(** *** Missing and empty path segments *)

Lemma fieldValue_loop_reaches v0 pre v : ∀ s post,
  reaches v0 pre v →
  fieldValue_loop typeFunc v0 (pre ++ s :: post) = fieldValue_loop typeFunc v (s :: post).
Proof.
  intros s post Hr. induction Hr as [v|v s0 x val segs w Hx Hf He Hr IH]; [done|].
  cbn [app fieldValue_loop]. rewrite Hx. cbn [mbind run_bind]. rewrite Hf.
  cbn [mbind run_bind]. rewrite He.
  transitivity (fieldValue_loop typeFunc val (segs ++ s :: post)); [|exact IH].
  by destruct segs.
Qed.

Lemma reaches_record v0 pre v x o :
  reaches v0 pre v → Value_FieldByName v x = Ret o →
  ∃ pkg name fs, v0 = VStruct pkg name fs.
Proof.
  intros Hr Hf.
  assert (∀ w y o', Value_FieldByName w y = Ret o' → ∃ pkg name fs, w = VStruct pkg name fs)
    as Hstruct by (intros [] ? ? ?; simpl in *; try discriminate; eauto).
  destruct Hr; eauto.
Qed.

Lemma fieldValue_indirect rval p pkg name fs :
  indirect rval = VStruct pkg name fs →
  fieldValue typeFunc rval p = fieldValue_loop typeFunc (indirect rval) (split_on "." p).
Proof. destruct rval; simpl; try discriminate; done. Qed.

Lemma fieldValue_at_segment rval p pre s post x v o :
  split_on "." p = pre ++ s :: post →
  reaches (indirect rval) pre v →
  ucFirst s = Ret x →
  Value_FieldByName v x = Ret o →
  fieldValue typeFunc rval p =
  match o with
  | None => Ret (inr errMissingField)
  | Some val =>
      if isEmpty val then Ret (inr errEmptyField)
      else fieldValue_loop typeFunc v (s :: post)
  end.
Proof.
  intros Hsplit Hr Hx Hf.
  destruct (reaches_record _ _ _ _ _ Hr Hf) as (pkg & name & fs & Hind).
  rewrite (fieldValue_indirect _ _ _ _ _ Hind), Hsplit, (fieldValue_loop_reaches _ _ _ _ _ Hr).
  destruct o as [val|].
  - destruct (isEmpty val) eqn:He; [|done].
    cbn [fieldValue_loop]. rewrite Hx. cbn [mbind run_bind]. rewrite Hf.
    cbn [mbind run_bind]. by rewrite He.
  - cbn [fieldValue_loop]. rewrite Hx. cbn [mbind run_bind]. by rewrite Hf.
Qed.

(** C2 (amended): a path is walked segment by segment; suppose every segment
    before the segment [s] names a field holding a non-empty value, down to
    the record [v].  If [s] names no field of [v] or its embedded records,
    the object content gains exactly one missingSet entry carrying the path
    and an InvalidProperty fault, and no propSet entry.  If [s] names a
    field whose value is empty (nil pointer, empty string, empty slice),
    whether [s] is the last segment or not, neither entry is produced.  In
    both cases [collectFields] goes on with the remaining paths. *)
Theorem C2_missing_segment_is_reported_empty_value_is_silent
    (rr : retrieveResult) (rval : value) (p : string) (rest : list string)
    (content : ObjectContent) (refs : list ManagedObjectReference)
    (pre post : list string) (s x : string) (v : value) :
  split_on "." p = pre ++ s :: post →
  reaches (indirect rval) pre v →
  ucFirst s = Ret x →
  (Value_FieldByName v x = Ret None →
     fieldValue typeFunc rval p = Ret (inr errMissingField) ∧
     collectFields typeFunc rr rval [p] content =
       Ret (add_MissingSet content (InvalidProperty_entry p), []) ∧
     collectFields_loop typeFunc rr rval (p :: rest) content refs =
       collectFields_loop typeFunc rr rval rest
         (add_MissingSet content (InvalidProperty_entry p)) refs) ∧
  (∀ val, Value_FieldByName v x = Ret (Some val) → isEmpty val = true →
     fieldValue typeFunc rval p = Ret (inr errEmptyField) ∧
     collectFields typeFunc rr rval [p] content = Ret (content, []) ∧
     collectFields_loop typeFunc rr rval (p :: rest) content refs =
       collectFields_loop typeFunc rr rval rest content refs).
Proof.
  intros Hsplit Hr Hx. split.
  - intros Hf. pose proof (fieldValue_at_segment _ _ _ _ _ _ _ _ Hsplit Hr Hx Hf) as Hv.
    split; [done|]. unfold collectFields. cbn [collectFields_loop]. by rewrite Hv.
  - intros val Hf He.
    pose proof (fieldValue_at_segment _ _ _ _ _ _ _ _ Hsplit Hr Hx Hf) as Hv.
    cbn beta iota in Hv. rewrite He in Hv. split; [done|].
    unfold collectFields. cbn [collectFields_loop]. by rewrite Hv.
Qed.

(** *** [Type.FieldByName] finds the promoted field *)

Lemma iter_level_next_nil d : Nat.iter d level_next [] = [].
Proof. induction d as [|d IH]; [done|]. simpl. by rewrite IH. Qed.

Lemma field_depth_le fs : ∀ i f,
  fs !! i = Some f → Type_depth (fbody f) ≤ fields_depth fs.
Proof.
  induction fs as [|g fs IH]; intros [|i] f; simpl; try done.
  - intros [= ->]. unfold fields_depth. simpl. lia.
  - intros H%IH. unfold fields_depth in *. simpl. lia.
Qed.

Lemma embedded_depth t gs :
  embedded_struct t = Some gs → fields_depth gs < Type_depth t.
Proof.
  destruct t as [| | |[]| |]; simpl; try discriminate; intros [= ->];
    unfold fields_depth; lia.
Qed.

Lemma child_depth s c : c ∈ scan_children s → fields_depth c.2 < fields_depth s.2.
Proof.
  unfold scan_children. intros (l & Hc & Hl)%list_elem_of_join.
  apply elem_of_lookup_imap in Hl as (i & f & -> & Hf).
  destruct (fanon f); [|by apply elem_of_nil in Hc].
  destruct (embedded_struct (fbody f)) as [gs|] eqn:He; [|by apply elem_of_nil in Hc].
  apply list_elem_of_singleton in Hc as ->. simpl.
  apply embedded_depth in He. apply field_depth_le in Hf. lia.
Qed.

Lemma levels_run_out n : ∀ cur d,
  Forall (λ s : scan, fields_depth s.2 ≤ n) cur → n < d →
  Nat.iter d level_next cur = [].
Proof.
  induction n as [|n IH]; intros cur d Hb Hlt.
  - destruct d as [|d]; [lia|]. rewrite Nat.iter_succ_r.
    replace (level_next cur) with (@nil scan); [apply iter_level_next_nil|].
    symmetry. destruct (level_next cur) as [|c l] eqn:Hn; [done|].
    assert (c ∈ level_next cur) as Hc by (rewrite Hn; left).
    apply list_elem_of_bind in Hc as (s & Hc & Hs).
    apply child_depth in Hc. rewrite Forall_forall in Hb. specialize (Hb s Hs). lia.
  - destruct d as [|d]; [lia|]. rewrite Nat.iter_succ_r. apply IH; [|lia].
    apply Forall_forall. intros c (s & Hc & Hs)%list_elem_of_bind.
    apply child_depth in Hc. rewrite Forall_forall in Hb. specialize (Hb s Hs). lia.
Qed.

Lemma FieldByNameFunc_sound name : ∀ depth cur f,
  FieldByNameFunc depth name cur = Some f →
  ∃ d, level_matches name (Nat.iter d level_next cur) = [f] ∧
       ∀ d', d' < d → level_matches name (Nat.iter d' level_next cur) = [].
Proof.
  induction depth as [|k IH]; intros cur f; cbn [FieldByNameFunc];
    destruct (level_matches name cur) as [|m [|m' l]] eqn:Hm; try done.
  - intros [= <-]. exists 0. split; [done|]. intros; lia.
  - intros (d & Hd & Hmin)%IH. exists (S d). rewrite Nat.iter_succ_r. split; [done|].
    intros [|d'] Hlt; [done|]. rewrite Nat.iter_succ_r. apply Hmin. lia.
  - intros [= <-]. exists 0. split; [done|]. intros; lia.
Qed.

Lemma FieldByNameFunc_complete name : ∀ depth cur f d,
  d ≤ depth →
  level_matches name (Nat.iter d level_next cur) = [f] →
  (∀ d', d' < d → level_matches name (Nat.iter d' level_next cur) = []) →
  FieldByNameFunc depth name cur = Some f.
Proof.
  induction depth as [|k IH]; intros cur f d Hle Hd Hmin.
  - assert (d = 0) as -> by lia.
    change (Nat.iter 0 level_next cur) with cur in Hd.
    cbn [FieldByNameFunc]. by rewrite Hd.
  - destruct d as [|d].
    + change (Nat.iter 0 level_next cur) with cur in Hd.
      cbn [FieldByNameFunc]. by rewrite Hd.
    + pose proof (Hmin 0 ltac:(lia)) as H0.
      change (Nat.iter 0 level_next cur) with cur in H0.
      cbn [FieldByNameFunc]. rewrite H0. rewrite Nat.iter_succ_r in Hd.
      apply (IH _ _ d); [lia|done|].
      intros d' Hlt. specialize (Hmin (S d')). rewrite Nat.iter_succ_r in Hmin.
      apply Hmin. lia.
Qed.

Lemma promoted_unique fs name f f' :
  promoted fs name f → promoted fs name f' → f = f'.
Proof.
  intros (d & Hd & Hmin) (d' & Hd' & Hmin').
  destruct (Nat.lt_trichotomy d d') as [Hlt|[->|Hlt]].
  - rewrite (Hmin' d Hlt) in Hd. done.
  - congruence.
  - rewrite (Hmin d' Hlt) in Hd'. done.
Qed.

Lemma Type_FieldByName_promoted pkg n fs name :
  name ≠ "" →
  ∃ o, Type_FieldByName (TStruct pkg n fs) name = Ret o ∧
       ∀ f, o = Some f ↔ promoted fs name f.
Proof.
  intros Hname. unfold Type_FieldByName. destruct (decide (name = "")); [done|].
  eexists. split; [done|]. intros f. split.
  - apply FieldByNameFunc_sound.
  - intros (d & Hd & Hmin).
    apply (FieldByNameFunc_complete _ _ _ _ d); [|done|done].
    destruct (decide (d ≤ Type_depth (TStruct pkg n fs))) as [|Hgt]; [done|].
    unfold levels in Hd. rewrite (levels_run_out (fields_depth fs)) in Hd; [done| |].
    + by apply Forall_singleton.
    + change (Type_depth (TStruct pkg n fs)) with (S (fields_depth fs)) in Hgt. lia.
Qed.

Lemma spec_applies_struct ref pkg n fs p :
  ∃ ok, spec_applies ref (TStruct pkg n fs) p = Ret ok ∧
    (ok = true ↔
     ps_Type p = mor_Type ref ∨ names_embedded_base (TStruct pkg n fs) (ps_Type p)).
Proof.
  unfold spec_applies.
  destruct (decide (ps_Type p ≠ mor_Type ref)) as [Hne|Heq%dec_stable];
    [|exists true; split; [done|]; split; auto].
  destruct (decide (ps_Type p = "")) as [Hempty|Hname].
  - exists false. unfold Type_FieldByName. rewrite Hempty.
    split; [done|]. split; [done|]. intros [?|[? _]]; [congruence|done].
  - destruct (Type_FieldByName_promoted pkg n fs _ Hname) as (o & -> & Hiff).
    cbn [mbind run_bind]. eexists. split; [done|].
    destruct o as [f|].
    + assert (promoted fs (ps_Type p) f) as Hp by (by apply Hiff).
      split.
      * intros Hanon. right. split; [done|]. by exists f.
      * intros [?|(_ & f' & Hp' & Hanon)]; [done|].
        by rewrite (promoted_unique _ _ _ _ Hp Hp').
    + split; [done|]. intros [?|(_ & f' & Hp' & _)]; [done|].
      by apply Hiff in Hp'.
Qed.

(** C5: for a visited object reflected as a struct of type [rtype], a
    property spec is applied if and only if its target type is the type
    name of the object's reference or selects an embedded (anonymous) field
    of [rtype]: then its properties are extracted, all of them or the
    listed paths; otherwise the spec is passed over, the content and the
    pending references unchanged, and nothing fails. *)
Theorem C5_property_spec_applies_to_own_type_or_embedded_record
    (rr : retrieveResult) (ref : ManagedObjectReference) (rval : value)
    (pkg n : string) (fs : list (fieldOf rtype))
    (acc : ObjectContent * list ManagedObjectReference) (p : PropertySpec) :
  let rtype := TStruct pkg n fs in
  (ps_Type p = mor_Type ref ∨ names_embedded_base rtype (ps_Type p) →
     collect_prop typeFunc rr ref rval rtype acc p =
       if isTrue (ps_All p)
       then content ← collectAll typeFunc rval acc.1; Ret (content, acc.2)
       else '(content, more) ← collectFields typeFunc rr rval (ps_PathSet p) acc.1;
            Ret (content, acc.2 ++ more)) ∧
  (¬ (ps_Type p = mor_Type ref ∨ names_embedded_base rtype (ps_Type p)) →
     collect_prop typeFunc rr ref rval rtype acc p = Ret acc).
Proof.
  intros rtype. subst rtype. unfold collect_prop.
  destruct (spec_applies_struct ref pkg n fs p) as (ok & -> & Hiff).
  cbn [mbind run_bind]. split.
  - intros H. apply Hiff in H as ->. done.
  - intros H. destruct ok; [|done]. destruct H. by apply Hiff.
Qed.

(** *** Array containers *)



Lemma level_matches_index name : ∀ cur f,
  f ∈ level_matches name cur → sf_Index f ≠ [].
Proof.
  intros cur f (s & Hf & _)%list_elem_of_bind.
  unfold scan_matches in Hf. apply list_elem_of_join in Hf as (l & Hf & Hl).
  apply elem_of_lookup_imap in Hl as (i & g & -> & _).
  destruct (decide (fname g = name)); [|by apply elem_of_nil in Hf].
  apply list_elem_of_singleton in Hf as ->. simpl. by destruct (s.1).
Qed.

Lemma Type_FieldByName_index t name sf :
  Type_FieldByName t name = Ret (Some sf) → sf_Index sf ≠ [].
Proof.
  destruct t as [| | | | |pkg n fs]; try done. unfold Type_FieldByName.
  destruct (decide (name = "")); [done|]. intros H.
  assert (FieldByNameFunc (Type_depth (TStruct pkg n fs)) name [([], fs)] = Some sf)
    as H' by congruence.
  apply FieldByNameFunc_sound in H' as (d & Hd & _).
  apply (level_matches_index name (Nat.iter d level_next [([], fs)])).
  rewrite Hd. left.
Qed.

Lemma Value_Type_struct pkg name fs :
  Value_Type (VStruct pkg name fs) = TStruct pkg name (field_type <$> fs).
Proof. done. Qed.


Lemma rtype_eqb_eq a : ∀ b, rtype_eqb a b = true → a = b.
Proof.
  induction a as [| | |a IH|a IH|pkg name fs IH] using rtype_fields_ind;
    intros [| | |b|b|pkg' name' gs]; simpl; try done.
  - by intros ->%IH.
  - by intros ->%IH.
  - intros [[->%bool_decide_eq_true ->%bool_decide_eq_true]%andb_true_iff H]%andb_true_iff.
    f_equal. revert gs H.
    induction IH as [|[n a t] fs Ht _ IHfs]; intros [|[m b u] gs]; try done.
    simpl in *. intros H.
    apply andb_true_iff in H as [H Hrest]. apply andb_true_iff in H as [H Ht'].
    apply andb_true_iff in H as [Hn Ha]. apply bool_decide_eq_true in Hn.
    apply Bool.eqb_prop in Ha. apply Ht in Ht'. apply IHfs in Hrest. congruence.
Qed.

Lemma fields_at_snoc fs : ∀ pre gs i f hs,
  fields_at fs pre = Some gs → gs !! i = Some f →
  embedded_struct (fbody f) = Some hs →
  fields_at fs (pre ++ [i]) = Some hs.
Proof.
  intros pre. revert fs. induction pre as [|j pre IH]; intros fs gs i f hs; simpl.
  - intros [= ->] -> ->. done.
  - destruct (fs !! j) as [g|]; [|done].
    destruct (embedded_struct (fbody g)) as [ks|]; [|done]. apply IH.
Qed.

Lemma field_type_at_snoc fs : ∀ pre gs i f,
  fields_at fs pre = Some gs → gs !! i = Some f →
  field_type_at fs (pre ++ [i]) = Some (fbody f).
Proof.
  intros pre. revert fs. induction pre as [|j pre IH]; intros fs gs i f; simpl.
  - intros [= ->] ->. done.
  - destruct (fs !! j) as [g|]; [|done].
    destruct (embedded_struct (fbody g)) as [ks|]; [|done].
    intros H1 H2. rewrite (IH _ _ _ _ H1 H2). by destruct pre.
Qed.

Lemma levels_fields_at fs d : ∀ s,
  s ∈ Nat.iter d level_next [([], fs)] → fields_at fs s.1 = Some s.2.
Proof.
  induction d as [|d IH]; intros s.
  - intros ->%list_elem_of_singleton. done.
  - cbn [Nat.iter nat_rect]. intros (s0 & Hs & Hs0)%list_elem_of_bind.
    apply IH in Hs0. unfold scan_children in Hs.
    apply list_elem_of_join in Hs as (l & Hs & Hl).
    apply elem_of_lookup_imap in Hl as (i & f & -> & Hf).
    destruct (fanon f); [|by apply elem_of_nil in Hs].
    destruct (embedded_struct (fbody f)) as [gs|] eqn:He; [|by apply elem_of_nil in Hs].
    apply list_elem_of_singleton in Hs as ->. simpl.
    by eapply fields_at_snoc.
Qed.

Lemma Type_FieldByName_type pkg n fs name sf :
  Type_FieldByName (TStruct pkg n fs) name = Ret (Some sf) →
  field_type_at fs (sf_Index sf) = Some (sf_Type sf).
Proof.
  unfold Type_FieldByName. destruct (decide (name = "")); [done|]. intros H.
  assert (FieldByNameFunc (Type_depth (TStruct pkg n fs)) name [([], fs)] = Some sf)
    as H' by congruence.
  apply FieldByNameFunc_sound in H' as (d & Hd & _).
  assert (sf ∈ level_matches name (Nat.iter d level_next [([], fs)])) as Hin
    by (rewrite Hd; left).
  apply list_elem_of_bind in Hin as (s & Hsf & Hs).
  apply levels_fields_at in Hs. unfold scan_matches in Hsf.
  apply list_elem_of_join in Hsf as (l & Hsf & Hl).
  apply elem_of_lookup_imap in Hl as (i & f & -> & Hf).
  destruct (decide (fname f = name)); [|by apply elem_of_nil in Hsf].
  apply list_elem_of_singleton in Hsf as ->. simpl.
  by eapply field_type_at_snoc.
Qed.




(** ** The single functions *)

(** *** First letters *)

Lemma upper_lower_byte c : upper_byte (lower_byte c) = upper_byte c.
Proof. destruct c as [[] [] [] [] [] [] [] []]; reflexivity. Qed.

Lemma lower_upper_byte c : lower_byte (upper_byte c) = lower_byte c.
Proof. destruct c as [[] [] [] [] [] [] [] []]; reflexivity. Qed.

Lemma upper_byte_idemp c : upper_byte (upper_byte c) = upper_byte c.
Proof. destruct c as [[] [] [] [] [] [] [] []]; reflexivity. Qed.

Lemma lower_byte_idemp c : lower_byte (lower_byte c) = lower_byte c.
Proof. destruct c as [[] [] [] [] [] [] [] []]; reflexivity. Qed.

(** X1: [lcFirst] and [ucFirst] panic on the empty string and on no other;
    on a name that starts with an ASCII byte they change the case of the
    first letter and nothing else, so they undo each other up to that
    letter: upper-casing a lower-cased name gives the upper-cased name,
    lower-casing an upper-cased name gives the lower-cased name, each of
    them is idempotent, and the length is kept. *)
Theorem X1_first_letter_case_round_trip (s : string) :
  (s = "" ↔ lcFirst s = Panic BoundsPanic) ∧
  (s = "" ↔ ucFirst s = Panic BoundsPanic) ∧
  ∀ c rest, s = String c rest → (N_of_ascii c < 128)%N →
    (lcFirst s ≫= ucFirst) = ucFirst s ∧
    (ucFirst s ≫= lcFirst) = lcFirst s ∧
    (ucFirst s ≫= ucFirst) = ucFirst s ∧
    (lcFirst s ≫= lcFirst) = lcFirst s ∧
    (∀ y, lcFirst s = Ret y ∨ ucFirst s = Ret y → String.length y = String.length s).
Proof.
  split; [by destruct s|]. split; [by destruct s|].
  intros c rest -> _. cbn [lcFirst ucFirst mbind run_bind].
  rewrite upper_lower_byte, lower_upper_byte, upper_byte_idemp, lower_byte_idemp.
  repeat (split; [done|]). by intros y [[= <-]|[= <-]].
Qed.

(** *** The resolver *)

Lemma split_on_nonempty sep s : split_on sep s ≠ [].
Proof.
  induction s as [|c s IH]; simpl; [done|].
  destruct (decide (c = sep)); [done|]. by destruct (split_on sep s).
Qed.

Lemma fieldValue_loop_case v : ∀ fields fields',
  ucFirst <$> fields = ucFirst <$> fields' →
  fieldValue_loop typeFunc v fields = fieldValue_loop typeFunc v fields'.
Proof.
  intros fields. revert v.
  induction fields as [|s rest IH]; intros v [|s' rest']; try done.
  intros [= Hs Hrest]. cbn [fieldValue_loop]. rewrite Hs.
  destruct (ucFirst s') as [x|]; cbn [mbind run_bind]; [|done].
  destruct (Value_FieldByName v x) as [[val|]|]; cbn [mbind run_bind]; try done.
  destruct (isEmpty val); [done|].
  destruct rest as [|r rest], rest' as [|r' rest'']; try done.
  by apply IH.
Qed.

(** X2: a path is resolved through [ucFirst] of its segments only, so two
    paths whose segments differ in nothing but the case of their first
    letters resolve alike on every value: to the same property value, the
    same error or the same panic. *)
Theorem X2_fieldValue_ignores_first_letter_case (rval : value) (p q : string) :
  ucFirst <$> split_on "." p = ucFirst <$> split_on "." q →
  fieldValue typeFunc rval p = fieldValue typeFunc rval q.
Proof.
  intros Heq. unfold fieldValue.
  destruct rval; try (by apply fieldValue_loop_case).
  destruct (split_on "." p) as [|s rest], (split_on "." q) as [|s' rest']; try done.
  injection Heq as Hs _. cbn [mbind run_bind]. by rewrite Hs.
Qed.

Lemma FieldByIndex_rest_type : ∀ rest v val,
  rest ≠ [] → FieldByIndex_rest v rest = Ret val →
  ∃ gs, embedded_struct (Value_Type v) = Some gs ∧
        field_type_at gs rest = Some (Value_Type val).
Proof.
  induction rest as [|x rest IH]; intros v val Hne; [done|].
  cbn [FieldByIndex_rest].
  intros (v1 & Hv1 & (v2 & Hv2 & Hrest)%bind_Ret_inv)%bind_Ret_inv.
  assert (∃ p n fs, v1 = VStruct p n fs ∧
            embedded_struct (Value_Type v) = Some (field_type <$> fs)) as
    (p & n & fs & -> & Hemb).
  { destruct v1; try discriminate Hv2.
    destruct v as [| | |t|w| |]; simpl in Hv1; try discriminate Hv1.
    - destruct t; discriminate.
    - destruct w; try discriminate. injection Hv1 as -> -> ->. eauto 6.
    - injection Hv1 as -> -> ->. eauto 6. }
  exists (field_type <$> fs). split; [done|].
  simpl in Hv2. destruct (fs !! x) as [f|] eqn:Hx; [|discriminate].
  injection Hv2 as <-.
  cbn [field_type_at]. rewrite list_lookup_fmap, Hx. simpl.
  destruct rest as [|y rest].
  - simpl in Hrest. by injection Hrest as <-.
  - destruct (IH (fbody f) val) as (gs & -> & Hgs); done.
Qed.

Lemma FieldByIndex_type p n fs idx val :
  idx ≠ [] → Value_FieldByIndex (VStruct p n fs) idx = Ret val →
  field_type_at (field_type <$> fs) idx = Some (Value_Type val).
Proof.
  destruct idx as [|x rest]; [done|]. intros _.
  cbn [Value_FieldByIndex]. intros (v1 & Hv1 & Hrest)%bind_Ret_inv.
  simpl in Hv1. destruct (fs !! x) as [f|] eqn:Hx; [|discriminate].
  injection Hv1 as <-.
  cbn [field_type_at]. rewrite list_lookup_fmap, Hx. simpl.
  destruct rest as [|y rest].
  - simpl in Hrest. by injection Hrest as <-.
  - destruct (FieldByIndex_rest_type (y :: rest) (fbody f) val) as (gs & -> & Hgs); done.
Qed.

(** The field a name selects on a record value is the field the name
    selects on the record's type, and it is described with the type of the
    value it holds. *)
Lemma FieldByName_described v x val :
  Value_FieldByName v x = Ret (Some val) →
  ∃ f, Type_FieldByName (Value_Type v) x = Ret (Some f) ∧ sf_Type f = Value_Type val.
Proof.
  destruct v as [| | | | | |p n fs]; try discriminate.
  unfold Value_FieldByName. intros ([f|] & Hf & Hval)%bind_Ret_inv; [|discriminate].
  exists f. split; [done|].
  destruct (Value_FieldByIndex (VStruct p n fs) (sf_Index f)) as [val'|] eqn:Hidx;
    [|discriminate].
  injection Hval as ->.
  rewrite Value_Type_struct in Hf.
  pose proof (Type_FieldByName_index _ _ _ Hf) as Hne.
  apply Type_FieldByName_type in Hf.
  apply FieldByIndex_type in Hidx; [|done]. congruence.
Qed.

(** What an outcome of the loop of [fieldValue] says about the path. *)
Lemma fieldValue_loop_inv : ∀ fields v0 r,
  fields ≠ [] → fieldValue_loop typeFunc v0 fields = Ret r →
  match r with
  | inl o =>
      ∃ pre s x v val f,
        fields = pre ++ [s] ∧ reaches v0 pre v ∧ ucFirst s = Ret x ∧
        Value_FieldByName v x = Ret (Some val) ∧ isEmpty val = false ∧
        Type_FieldByName (Value_Type v) x = Ret (Some f) ∧
        sf_Type f = Value_Type val ∧
        fieldValueInterface typeFunc f val = Ret o
  | inr errMissingField =>
      ∃ pre s post x v,
        fields = pre ++ s :: post ∧ reaches v0 pre v ∧ ucFirst s = Ret x ∧
        Value_FieldByName v x = Ret None
  | inr errEmptyField =>
      ∃ pre s post x v val,
        fields = pre ++ s :: post ∧ reaches v0 pre v ∧ ucFirst s = Ret x ∧
        Value_FieldByName v x = Ret (Some val) ∧ isEmpty val = true
  end.
Proof.
  induction fields as [|s rest IH]; intros v0 r Hne; [done|].
  cbn [fieldValue_loop].
  intros (x & Hx & ([val|] & Hval & Hr)%bind_Ret_inv)%bind_Ret_inv.
  - destruct (isEmpty val) eqn:He.
    { injection Hr as <-. exists [], s, rest, x, v0, val.
      repeat (split; [done || constructor|]). done. }
    destruct rest as [|s' rest].
    + apply bind_Ret_inv in Hr as ([f|] & Hf & Hr); [|discriminate].
      destruct (fieldValueInterface typeFunc f val) as [o|] eqn:Ho; [|discriminate].
      injection Hr as <-.
      destruct (FieldByName_described _ _ _ Hval) as (f' & Hf' & Hty).
      assert (f' = f) as -> by congruence.
      exists [], s, x, v0, val, f. repeat (split; [done || constructor|]). done.
    + apply IH in Hr; [|done].
      destruct r as [o|[]].
      * destruct Hr as (pre & s1 & x1 & v & val1 & f & -> & Hreach & Hrest).
        exists (s :: pre), s1, x1, v, val1, f. split; [done|].
        split; [by econstructor|done].
      * destruct Hr as (pre & s1 & post & x1 & v & -> & Hreach & Hrest).
        exists (s :: pre), s1, post, x1, v. split; [done|].
        split; [by econstructor|done].
      * destruct Hr as (pre & s1 & post & x1 & v & val1 & -> & Hreach & Hrest).
        exists (s :: pre), s1, post, x1, v, val1. split; [done|].
        split; [by econstructor|done].
  - injection Hr as <-. exists [], s, rest, x, v0.
    repeat (split; [done || constructor|]). done.
Qed.

Lemma fieldValue_inv rval p r :
  fieldValue typeFunc rval p = Ret r →
  fieldValue_loop typeFunc (indirect rval) (split_on "." p) = Ret r.
Proof.
  unfold fieldValue. pose proof (split_on_nonempty "." p) as Hne.
  destruct rval; try done. simpl.
  destruct (split_on "." p) as [|s rest]; [done|].
  by destruct (ucFirst s).
Qed.

(** X3: when [fieldValue] resolves a path, every segment but the last names
    a field holding a non-empty value, the last segment names a field of
    the record reached whose value is not empty either, and the result is
    that value as [fieldValueInterface] converts it, under a field
    description that carries the type of the value. *)
Theorem X3_fieldValue_result_is_converted_last_field
    (rval : value) (p : string) (o : iface) :
  fieldValue typeFunc rval p = Ret (inl o) →
  ∃ pre s x v val f,
    split_on "." p = pre ++ [s] ∧ reaches (indirect rval) pre v ∧
    ucFirst s = Ret x ∧
    Value_FieldByName v x = Ret (Some val) ∧ isEmpty val = false ∧
    Type_FieldByName (Value_Type v) x = Ret (Some f) ∧
    sf_Type f = Value_Type val ∧
    fieldValueInterface typeFunc f val = Ret o.
Proof.
  intros H%fieldValue_inv.
  apply fieldValue_loop_inv in H; [|apply split_on_nonempty].
  destruct H as (pre & s & x & v & val & f & H). by exists pre, s, x, v, val, f.
Qed.

(** X4: [fieldValue] answers [errMissingField] only if some segment of the
    path, reached through fields holding non-empty values, names no field
    of the record reached; it answers [errEmptyField] only if some segment
    so reached names a field whose value is empty. *)
Theorem X4_fieldValue_errors_only_for_missing_or_empty_segment
    (rval : value) (p : string) (e : fieldError) :
  fieldValue typeFunc rval p = Ret (inr e) →
  ∃ pre s post x v,
    split_on "." p = pre ++ s :: post ∧ reaches (indirect rval) pre v ∧
    ucFirst s = Ret x ∧
    match e with
    | errMissingField => Value_FieldByName v x = Ret None
    | errEmptyField =>
        ∃ val, Value_FieldByName v x = Ret (Some val) ∧ isEmpty val = true
    end.
Proof.
  intros H%fieldValue_inv.
  apply fieldValue_loop_inv in H; [|apply split_on_nonempty].
  destruct e.
  - destruct H as (pre & s & post & x & v & H). by exists pre, s, post, x, v.
  - destruct H as (pre & s & post & x & v & val & H1 & H2 & H3 & H4).
    exists pre, s, post, x, v. eauto.
Qed.

(** X5: a path with an empty segment, or one that runs on through a value
    that is no record, is not answered with an error: once the segments
    before it have resolved to non-empty values, an empty segment panics
    with an index out of range (so do the empty path and a path ending in
    a dot), and a non-empty segment looked up on a value that is no record
    panics in [reflect]. *)
Theorem X5_fieldValue_panics_on_empty_segment_and_non_record
    (rval : value) (p : string) (pre post : list string) (s : string) (v : value) :
  split_on "." p = pre ++ s :: post →
  reaches (indirect rval) pre v →
  (s = "" → fieldValue typeFunc rval p = Panic BoundsPanic) ∧
  (s ≠ "" → (∀ pkg n fs, v ≠ VStruct pkg n fs) →
     fieldValue typeFunc rval p = Panic ReflectPanic).
Proof.
  intros Hsplit Hr.
  assert (fieldValue typeFunc rval p =
          match ucFirst s with
          | Ret x => match v with
                     | VStruct _ _ _ => fieldValue_loop typeFunc v (s :: post)
                     | _ => Panic ReflectPanic
                     end
          | Panic q => Panic q
          end) as ->.
  { inversion Hr as [v' Hv|v' s0 x val segs w Hx Hf He Hr' Hv Hpre]; subst.
    - unfold fieldValue. rewrite Hsplit. simpl.
      destruct rval as [| | | |w| |]; simpl; destruct (ucFirst s); try done.
      by destruct w.
    - destruct (reaches_record _ _ _ _ _ (reaches_nil _) Hf) as (pkg & n & fs & Hind).
      rewrite (fieldValue_indirect _ _ _ _ _ Hind), Hsplit.
      rewrite (fieldValue_loop_reaches _ _ _ _ _ Hr).
      cbn [fieldValue_loop]. destruct (ucFirst s); [|done].
      destruct v; try done. }
  split.
  - by intros ->.
  - intros Hs Hv. destruct s as [|c rest]; [done|]. simpl.
    destruct v; try done. by destruct (Hv pkg name fields).
Qed.

(** *** References held by a value *)

Lemma value_ref_ref_value r : value_ref (ref_value r) = Some r.
Proof. by destruct r. Qed.

Lemma omap_value_ref (rs : list ManagedObjectReference) : omap value_ref (ref_value <$> rs) = rs.
Proof.
  induction rs as [|r rs IH]; [done|].
  cbn [fmap list_fmap omap list_omap]. by rewrite value_ref_ref_value, IH.
Qed.

(** X6: [fieldRefs] panics on a typed nil pointer to a reference or to
    the container of references, which its type switch dereferences, and
    on nothing else: the panic is a nil dereference, and on the nil
    interface and on every other value it returns. *)
Theorem X6_fieldRefs_panics_exactly_on_typed_nil_pointer (f : iface) (p : panic) :
  fieldRefs f = Panic p ↔
  p = NilPanic ∧
  (f = Some (VNil TManagedObjectReference) ∨
   f = Some (VNil TArrayOfManagedObjectReference)).
Proof.
  split; [|by intros [-> [->| ->]]].
  destruct f as [w|]; [|discriminate]. unfold fieldRefs.
  destruct (rtype_eqb (Value_Type w) TManagedObjectReference); [discriminate|].
  destruct (rtype_eqb (Value_Type w) (TPtr TManagedObjectReference)) eqn:E2.
  { destruct w as [| | |t|w| |]; try discriminate E2; [|discriminate].
    apply rtype_eqb_eq in E2. injection E2 as ->. intros [= <-]. auto. }
  destruct (rtype_eqb (Value_Type w) (TPtr TArrayOfManagedObjectReference)) eqn:E3;
    [|discriminate].
  destruct w as [| | |t|w| |]; try discriminate E3.
  - apply rtype_eqb_eq in E3. injection E3 as ->. intros [= <-]. auto.
  - apply rtype_eqb_eq in E3. injection E3 as E3.
    destruct w as [| | | | | |pkg n fs]; try discriminate E3.
    injection E3 as _ _ E3.
    destruct fs as [|fld [|g fs]]; try discriminate E3.
    cbn [Value_Field lookup list_lookup mbind run_bind].
    by destruct (fbody fld).
Qed.

(** X7: [fieldRefs] reads back the references a value was built from: one
    from a reference and from a pointer to a reference, and, when the type
    table registers the reference container under its name, all of them in
    order from a slice of references that [fieldValueInterface] has
    wrapped. *)
Theorem X7_fieldRefs_reads_back_wrapped_references
    (f : StructField) (rs : list ManagedObjectReference) :
  typeFunc "ArrayOfManagedObjectReference" = Some TArrayOfManagedObjectReference →
  sf_Type f = TSlice TManagedObjectReference →
  (∀ r, fieldRefs (Some (ref_value r)) = Ret [r] ∧
        fieldRefs (Some (VPtr (ref_value r))) = Ret [r]) ∧
  (fieldValueInterface typeFunc f (VSlice TManagedObjectReference (ref_value <$> rs))
     ≫= fieldRefs) = Ret rs.
Proof.
  intros Hreg Hf. split.
  - intros r. unfold fieldRefs.
    change (Value_Type (ref_value r)) with TManagedObjectReference.
    change (Value_Type (VPtr (ref_value r))) with (TPtr TManagedObjectReference).
    change (rtype_eqb TManagedObjectReference TManagedObjectReference) with true.
    change (rtype_eqb (TPtr TManagedObjectReference) TManagedObjectReference) with false.
    change (rtype_eqb (TPtr TManagedObjectReference) (TPtr TManagedObjectReference))
      with true.
    cbn match. by rewrite value_ref_ref_value.
  - unfold fieldValueInterface, TManagedObjectReference at 1. rewrite Hf.
    cbn [Type_Elem mbind run_bind].
    change ("ArrayOf" +:+ Type_Name TManagedObjectReference)
      with "ArrayOfManagedObjectReference".
    rewrite Hreg.
    change (Type_FieldByName TArrayOfManagedObjectReference
              (Type_Name TManagedObjectReference))
      with (Ret (Some (mkStructField "ManagedObjectReference" false
                         (TSlice TManagedObjectReference) [0]))).
    cbn [mbind run_bind sf_Type sf_Index Value_Type].
    change (rtype_eqb (TSlice _) (TSlice TManagedObjectReference)) with true.
    cbn [mbind run_bind].
    set (x := VSlice TManagedObjectReference (ref_value <$> rs)).
    change (Value_SetByIndex (zero TArrayOfManagedObjectReference) [0] x)
      with (Ret (VStruct typesPkg "ArrayOfManagedObjectReference"
                   [mkField "ManagedObjectReference" false x])).
    cbn [mbind run_bind]. unfold fieldRefs.
    change (Value_Type (VPtr _)) with (TPtr TArrayOfManagedObjectReference).
    change (rtype_eqb (TPtr TArrayOfManagedObjectReference) TManagedObjectReference)
      with false.
    change (rtype_eqb (TPtr TArrayOfManagedObjectReference)
              (TPtr TManagedObjectReference)) with false.
    change (rtype_eqb (TPtr TArrayOfManagedObjectReference)
              (TPtr TArrayOfManagedObjectReference)) with true.
    cbn [Value_Field lookup list_lookup mbind run_bind fbody]. subst x. cbn match.
    by rewrite omap_value_ref.
Qed.

(** *** Wildcard retrieval *)

Lemma all_fields_reported rval :
  Forall (λ fld, isEmpty (fbody fld) = false ∧ fanon fld = false) (all_fields rval).
Proof.
  induction rval as [| | | | |t vs _|pkg name fs IH] using value_fields_ind;
    try by constructor.
  simpl. induction IH as [|fld rest Hfld _ IHrest]; [by constructor|].
  apply Forall_app. split; [|done].
  destruct (isEmpty (fbody fld)) eqn:He; [by constructor|].
  destruct (fanon fld) eqn:Ha; [done|]. by repeat constructor.
Qed.

Lemma collectAll_reports rval : ∀ content content',
  collectAll typeFunc rval content = Ret content' →
  oc_Obj content' = oc_Obj content ∧
  oc_MissingSet content' = oc_MissingSet content ∧
  ∃ ps, oc_PropSet content' = oc_PropSet content ++ ps ∧
        Forall2 (reports typeFunc) (all_fields rval) ps.
Proof.
  induction rval as [| | | | |t vs _|pkg name fs IH] using value_fields_ind;
    intros content content'; simpl; try discriminate.
  generalize 0. revert content.
  induction IH as [|fld rest Hfld _ IHrest]; intros content i; simpl.
  - intros [= <-]. repeat (split; [done|]). exists []. by rewrite app_nil_r.
  - destruct (isEmpty (fbody fld)) eqn:He; [apply IHrest|].
    destruct (fanon fld) eqn:Ha.
    + intros (c1 & H1 & H2)%bind_Ret_inv.
      apply Hfld in H1 as (Ho1 & Hm1 & ps1 & Hp1 & Hf1).
      apply IHrest in H2 as (Ho2 & Hm2 & ps2 & Hp2 & Hf2).
      repeat (split; [congruence|]). exists (ps1 ++ ps2).
      split; [by rewrite Hp2, Hp1, (assoc_L (++))|by apply Forall2_app].
    + intros (n & H1 & (pv & H2 & H3)%bind_Ret_inv)%bind_Ret_inv.
      apply IHrest in H3 as (Ho2 & Hm2 & ps2 & Hp2 & Hf2). simpl in *.
      repeat (split; [done|]). exists (mkDynamicProperty n pv :: ps2).
      split; [by rewrite Hp2, <- (assoc_L (++))|].
      constructor; [|done]. split; [done|]. by eexists (mkStructField _ _ _ _).
Qed.

(** X8: a wildcard retrieval ([collectAll]) that returns has left the
    reference and the missing set of the object content alone and has
    appended one property for each field on which [isEmpty] is false, in
    order of declaration, the fields of such an embedded record taking the
    place of that record: the name is the field name as [lcFirst] returns
    it, the value is the field value as [fieldValueInterface] converts it.
    No property is appended for an embedded record itself. *)
Theorem X8_collectAll_reports_the_non_empty_fields
    (rval : value) (content content' : ObjectContent) :
  collectAll typeFunc rval content = Ret content' →
  oc_Obj content' = oc_Obj content ∧
  oc_MissingSet content' = oc_MissingSet content ∧
  ∃ ps, oc_PropSet content' = oc_PropSet content ++ ps ∧
        Forall2 (reports typeFunc) (all_fields rval) ps ∧
        Forall (λ fld, isEmpty (fbody fld) = false ∧ fanon fld = false)
               (all_fields rval).
Proof.
  intros (Ho & Hm & ps & Hp & Hf)%collectAll_reports.
  repeat (split; [done|]). exists ps. repeat (split; [done|]).
  apply all_fields_reported.
Qed.

(** *** Path sets *)

Lemma collectFields_loop_formula rr rval fields : ∀ content refs,
  (∀ name, name ∈ fields →
     ∃ r, fieldValue typeFunc rval name = Ret r ∧
          ∀ v, r = inl v → name ∈ recurse rr → ∃ l, fieldRefs v = Ret l) →
  collectFields_loop typeFunc rr rval fields content refs =
  Ret (mkObjectContent (oc_Obj content)
         (oc_PropSet content ++ omap (resolved_property typeFunc rval) fields)
         (oc_MissingSet content ++ omap (missing_property typeFunc rval) fields),
       refs ++ (fields ≫= marked_refs typeFunc (recurse rr) rval)).
Proof.
  induction fields as [|name rest IH]; intros content refs Hall.
  { simpl. rewrite !app_nil_r. by destruct content. }
  destruct (Hall name) as (r & Hr & Hrefs); [by left|].
  cbn [collectFields_loop omap list_omap mbind list_bind].
  unfold resolved_property at 1, missing_property at 1, marked_refs at 1.
  rewrite Hr. cbn [mbind run_bind].
  destruct r as [val|[]].
  - destruct (decide (name ∈ recurse rr)) as [Hin|Hnot].
    + destruct (Hrefs val eq_refl Hin) as [l Hl]. rewrite Hl. cbn [mbind run_bind].
      rewrite IH; [|intros; apply Hall; by right]. simpl.
      by rewrite <- !(assoc_L (++)).
    + cbn [mbind run_bind].
      rewrite IH; [|intros; apply Hall; by right]. simpl.
      by rewrite ?app_nil_r, <- !(assoc_L (++)).
  - rewrite IH; [|intros; apply Hall; by right]. simpl.
    destruct (decide (name ∈ recurse rr)); by rewrite <- !(assoc_L (++)).
  - rewrite IH; [|intros; apply Hall; by right]. simpl.
    by destruct (decide (name ∈ recurse rr)).
Qed.

Lemma collectFields_loop_returns rr rval fields : ∀ content refs out,
  collectFields_loop typeFunc rr rval fields content refs = Ret out →
  ∀ name, name ∈ fields →
    ∃ r, fieldValue typeFunc rval name = Ret r ∧
         ∀ v, r = inl v → name ∈ recurse rr → ∃ l, fieldRefs v = Ret l.
Proof.
  induction fields as [|name rest IH]; intros content refs out H n Hn.
  { by apply elem_of_nil in Hn. }
  cbn [collectFields_loop] in H.
  apply bind_Ret_inv in H as (r & Hr & H).
  destruct r as [val|[]].
  - apply bind_Ret_inv in H as (more & Hmore & H).
    apply elem_of_cons in Hn as [->|Hn]; [|eauto].
    exists (inl val). split; [done|]. intros v [= <-] Hin.
    rewrite decide_True in Hmore by done. eauto.
  - apply elem_of_cons in Hn as [->|Hn]; [|eauto].
    exists (inr errMissingField). split; [done|]. by intros v ?.
  - apply elem_of_cons in Hn as [->|Hn]; [|eauto].
    exists (inr errEmptyField). split; [done|]. by intros v ?.
Qed.

(** X9: [collectFields] returns exactly when [fieldValue] panics on none of
    the paths and [fieldRefs] panics on the value of none of the marked
    paths that resolve, and then each path has contributed on its own and
    in order: a property with the resolved value when it resolves, an
    InvalidProperty entry under its own name when a segment is missing,
    nothing when a segment is empty, and the references of its value when
    it is marked.  Nothing else of the object content changes, and a path
    listed twice contributes twice. *)
Theorem X9_collectFields_contributes_path_by_path
    (rr : retrieveResult) (rval : value) (fields : list string)
    (content : ObjectContent)
    (out : ObjectContent * list ManagedObjectReference) :
  collectFields typeFunc rr rval fields content = Ret out ↔
  (∀ name, name ∈ fields →
     ∃ r, fieldValue typeFunc rval name = Ret r ∧
          ∀ v, r = inl v → name ∈ recurse rr → ∃ l, fieldRefs v = Ret l) ∧
  out = (mkObjectContent (oc_Obj content)
           (oc_PropSet content ++ omap (resolved_property typeFunc rval) fields)
           (oc_MissingSet content ++ omap (missing_property typeFunc rval) fields),
         fields ≫= marked_refs typeFunc (recurse rr) rval).
Proof.
  unfold collectFields. split.
  - intros H. pose proof (collectFields_loop_returns _ _ _ _ _ _ H) as Hall.
    split; [done|]. rewrite collectFields_loop_formula in H by done.
    by injection H as <-.
  - intros [Hall ->]. by rewrite collectFields_loop_formula.
Qed.

Lemma collectFields_loop_refs_prefix rr rval fields : ∀ content refs,
  collectFields_loop typeFunc rr rval fields content refs =
  ('(c, found) ← collectFields_loop typeFunc rr rval fields content [];
   Ret (c, refs ++ found)).
Proof.
  induction fields as [|name rest IH]; intros content refs.
  { simpl. by rewrite app_nil_r. }
  cbn [collectFields_loop].
  destruct (fieldValue typeFunc rval name) as [[val|[]]|]; cbn [mbind run_bind];
    [|apply IH|apply IH|done].
  destruct (if decide (name ∈ recurse rr) then fieldRefs val else Ret [])
    as [more|]; cbn [mbind run_bind]; [|done].
  rewrite (IH _ (refs ++ more)), (IH _ ([] ++ more)).
  destruct (collectFields_loop typeFunc rr rval rest _ []) as [[c found]|];
    cbn [mbind run_bind]; [|done].
  by rewrite (assoc_L (++)).
Qed.

Lemma collectFields_loop_app rr rval fields1 fields2 : ∀ content refs,
  collectFields_loop typeFunc rr rval (fields1 ++ fields2) content refs =
  ('(c, found) ← collectFields_loop typeFunc rr rval fields1 content refs;
   collectFields_loop typeFunc rr rval fields2 c found).
Proof.
  induction fields1 as [|name rest IH]; intros content refs; [done|].
  cbn [app collectFields_loop].
  destruct (fieldValue typeFunc rval name) as [[val|[]]|]; cbn [mbind run_bind];
    [|apply IH|apply IH|done].
  destruct (if decide (name ∈ recurse rr) then fieldRefs val else Ret [])
    as [more|]; cbn [mbind run_bind]; [|done].
  apply IH.
Qed.

(** X10: path sets compose.  Two property specs of one type that list paths,
    applied one after the other to an object, leave the content and the
    references to visit that one property spec listing the paths of the
    first followed by the paths of the second leaves; they also panic
    alike. *)
Theorem X10_path_sets_of_one_type_compose
    (rr : retrieveResult) (ref : ManagedObjectReference) (rval : value)
    (rtype : rtype) (acc : ObjectContent * list ManagedObjectReference)
    (ty : string) (all : option bool) (fields1 fields2 : list string) :
  isTrue all = false →
  foldM (collect_prop typeFunc rr ref rval rtype)
    [mkPropertySpec ty all fields1; mkPropertySpec ty all fields2] acc =
  collect_prop typeFunc rr ref rval rtype acc
    (mkPropertySpec ty all (fields1 ++ fields2)).
Proof.
  intros Hall. cbn [foldM]. unfold collect_prop, spec_applies.
  cbn [ps_Type ps_All ps_PathSet]. rewrite Hall.
  set (guard := if decide (ty ≠ mor_Type ref)
                then o ← Type_FieldByName rtype ty;
                     Ret (match o with Some field => sf_Anonymous field | None => false end)
                else Ret true).
  destruct guard as [[]|]; cbn [mbind run_bind negb]; try done.
  unfold collectFields. rewrite collectFields_loop_app.
  destruct (collectFields_loop typeFunc rr rval fields1 acc.1 []) as [[c1 r1]|];
    cbn [mbind run_bind fst snd]; [|done].
  rewrite (collectFields_loop_refs_prefix _ _ _ c1 r1).
  destruct (collectFields_loop typeFunc rr rval fields2 c1 []) as [[c2 r2]|];
    cbn [mbind run_bind fst snd]; [|done].
  by rewrite (assoc_L (++)).
Qed.

(** ** The visits of a retrieval *)

Lemma traced_nil r marks from rr :
  (∀ x, x ∈ from → x ∈ collected rr) →
  traced typeFunc Map r marks from rr rr [].
Proof.
  intros Hfrom. split; [|split; [done|split; [done|split; [|split; [done|split]]]]].
  - rewrite app_nil_r. by destruct (rr_RetrieveResult rr).
  - intros x. split; [auto|]. intros [?|[]%elem_of_nil]. done.
  - by intros c ?%elem_of_nil.
  - by intros i c ?.
Qed.

Lemma traced_app r marks from1 from2 rr rr1 rr2 new1 new2 :
  traced typeFunc Map r marks from1 rr rr1 new1 →
  traced typeFunc Map r marks from2 rr1 rr2 new2 →
  traced typeFunc Map r marks (from1 ++ from2) rr rr2 (new1 ++ new2).
Proof.
  intros (Hres1 & Hreq1 & Hrec1 & Hcol1 & Hfrom1 & Hvis1 & Hpar1)
         (Hres2 & Hreq2 & Hrec2 & Hcol2 & Hfrom2 & Hvis2 & Hpar2).
  assert (∀ x, x ∈ collected rr1 → x ∈ collected rr2) as Hmono.
  { intros x ?. apply Hcol2. by left. }
  split; [|split; [congruence|split; [congruence|split; [|split; [|split]]]]].
  - rewrite Hres2, Hres1. simpl. by rewrite (assoc_L (++)).
  - intros x. rewrite Hcol2, Hcol1, fmap_app, elem_of_app. tauto.
  - intros x [?|?]%elem_of_app; auto.
  - intros c [Hc|Hc]%elem_of_app.
    + destruct (Hvis1 c Hc) as (found & Hv & Hin). exists found. auto.
    + by apply Hvis2.
  - intros i c [Hi|[Hlen Hi]]%lookup_app_Some.
    + destruct (Hpar1 i c Hi) as [Hin|(j & p & found & Hj & Hp & Hv & Hin)].
      * left. apply elem_of_app. by left.
      * right. exists j, p, found. split; [done|]. split; [|done].
        apply lookup_app_Some. by left.
    + destruct (Hpar2 _ c Hi) as [Hin|(j & p & found & Hj & Hp & Hv & Hin)].
      * left. apply elem_of_app. by right.
      * right. exists (length new1 + j), p, found. split; [lia|]. split; [|done].
        apply lookup_app_Some. right. split; [lia|].
        by replace (length new1 + j - length new1) with j by lia.
Qed.

Lemma traced_emit r marks rr ref content refs rr' new :
  req rr = r → recurse rr = marks →
  visit typeFunc Map rr ref = Ret (content, refs) →
  traced typeFunc Map r marks refs (emit rr ref content) rr' new →
  traced typeFunc Map r marks [ref] rr rr' (content :: new).
Proof.
  intros Hreq Hrec Hv (Hres & Hreq' & Hrec' & Hcol & Hfrom & Hvis & Hpar).
  pose proof (visit_Ret _ _ _ _ Hv) as [_ Hobj].
  assert (visited typeFunc Map r marks content refs) as Hvisited.
  { unfold visited. rewrite Hobj, <- Hv. apply visit_ext; simpl; congruence. }
  split; [|split; [done|split; [done|split; [|split; [|split]]]]].
  - rewrite Hres. simpl. by rewrite <- (assoc_L (++)).
  - intros x. rewrite Hcol. simpl. rewrite elem_of_union, elem_of_singleton, elem_of_cons.
    rewrite Hobj. tauto.
  - intros x ->%list_elem_of_singleton. apply Hcol. left. simpl.
    apply elem_of_union. left. by apply elem_of_singleton.
  - intros c [->|Hc]%elem_of_cons; [eauto|by apply Hvis].
  - intros [|i] c Hi; simpl in Hi.
    + injection Hi as <-. left. rewrite Hobj. by left.
    + right. destruct (Hpar i c Hi) as [Hin|(j & p & found & Hj & Hp & Hvp & Hin)].
      * exists 0, content, refs. split; [lia|]. by split.
      * exists (S j), p, found. split; [lia|]. by split.
Qed.

Lemma foldF_collect_traced r marks fuel :
  (∀ rr ref rr', req rr = r → recurse rr = marks →
     collect typeFunc Map fuel rr ref = Done rr' →
     ∃ new, traced typeFunc Map r marks [ref] rr rr' new) →
  ∀ refs rr rr', req rr = r → recurse rr = marks →
    foldF (collect typeFunc Map fuel) refs rr = Done rr' →
    ∃ new, traced typeFunc Map r marks refs rr rr' new.
Proof.
  intros IH refs. induction refs as [|y refs IHrefs]; intros rr rr' Hreq Hrec; simpl.
  - intros [= <-]. exists []. apply traced_nil. by intros x ?%elem_of_nil.
  - destruct (collect typeFunc Map fuel rr y) as [rr1| |] eqn:Hc; simpl; try done.
    intros Hf. destruct (IH _ _ _ Hreq Hrec Hc) as [new1 H1].
    pose proof H1 as (_ & Hreq1 & Hrec1 & _).
    destruct (IHrefs rr1 rr') as [new2 H2]; [congruence..|done|].
    exists (new1 ++ new2). by apply (traced_app _ _ [y] refs _ rr1).
Qed.

Lemma collect_traced r marks fuel : ∀ rr ref rr',
  req rr = r → recurse rr = marks →
  collect typeFunc Map fuel rr ref = Done rr' →
  ∃ new, traced typeFunc Map r marks [ref] rr rr' new.
Proof.
  induction fuel as [|n IH]; intros rr ref rr' Hreq Hrec; simpl; [done|].
  destruct (decide (ref ∈ collected rr)) as [Hin|Hnot].
  { intros [= <-]. exists []. apply traced_nil. by intros x ->%list_elem_of_singleton. }
  destruct (visit typeFunc Map rr ref) as [[content refs]|] eqn:Hv; simpl; [|done].
  intros Hf.
  destruct (foldF_collect_traced r marks n IH refs (emit rr ref content) rr'
              Hreq Hrec Hf) as [new Hnew].
  exists (content :: new). by apply (traced_emit _ _ _ _ _ refs).
Qed.

(** The visits of a call, from its seed to its result. *)
Lemma pc_collect_traced r marks frontier res :
  seed_specs typeFunc Map (rpx_SpecSet r) (∅, []) = Ret (inl (marks, frontier)) →
  pc_collect typeFunc Map r = Done (inl res) →
  ∃ rr', res = mkRetrieveResult "" (Objects res) ∧
         traced typeFunc Map r marks frontier (initial r marks) rr' (Objects res).
Proof.
  intros Hseed. unfold pc_collect. rewrite pc_collect_fuel_eq, Hseed.
  destruct (foldF _ frontier _) as [rr| |] eqn:Hf; try done.
  intros [= <-].
  destruct (foldF_collect_traced r marks _ (collect_traced r marks _) frontier
              (initial r marks) rr eq_refl eq_refl Hf) as [new Hnew].
  pose proof Hnew as (Hres & _). simpl in Hres. rewrite Hres. simpl.
  by exists rr.
Qed.

(** X11: a returned result is closed under the visits.  Every reference
    the seed loop selected has an object content; every object content is
    the one the visit of its reference computes from the request and the
    marked paths alone, whatever was collected before; and every reference
    such a visit hands on has an object content too. *)
Theorem X11_result_is_closed_under_visits
    (r : RetrievePropertiesEx_req) (marks : gset string)
    (frontier : list ManagedObjectReference) (res : RetrieveResult) :
  seed_specs typeFunc Map (rpx_SpecSet r) (∅, []) = Ret (inl (marks, frontier)) →
  pc_collect typeFunc Map r = Done (inl res) →
  (∀ x, x ∈ frontier → x ∈ (oc_Obj <$> Objects res)) ∧
  (∀ c, c ∈ Objects res →
     ∃ found, visited typeFunc Map r marks c found ∧
              ∀ x, x ∈ found → x ∈ (oc_Obj <$> Objects res)).
Proof.
  intros Hseed Hres.
  destruct (pc_collect_traced _ _ _ _ Hseed Hres)
    as (rr' & _ & _ & _ & _ & Hcol & Hfrom & Hvis & _).
  assert (∀ x, x ∈ collected rr' → x ∈ (oc_Obj <$> Objects res)) as Hin.
  { intros x [Hx|Hx]%Hcol; [|done]. by apply elem_of_empty in Hx. }
  split.
  - intros x Hx. by apply Hin, Hfrom.
  - intros c Hc. destruct (Hvis c Hc) as (found & Hv & Hfound).
    exists found. split; [done|]. intros x Hx. by apply Hin, Hfound.
Qed.

(** X12: parents come first.  The object content at a position of a
    returned result belongs to a reference the seed loop selected, or to a
    reference handed on by the visit of an object whose content stands at an
    earlier position. *)
Theorem X12_discovered_objects_follow_their_parent
    (r : RetrievePropertiesEx_req) (marks : gset string)
    (frontier : list ManagedObjectReference) (res : RetrieveResult)
    (i : nat) (c : ObjectContent) :
  seed_specs typeFunc Map (rpx_SpecSet r) (∅, []) = Ret (inl (marks, frontier)) →
  pc_collect typeFunc Map r = Done (inl res) →
  Objects res !! i = Some c →
  oc_Obj c ∈ frontier ∨
  ∃ j p found, j < i ∧ Objects res !! j = Some p ∧
               visited typeFunc Map r marks p found ∧ oc_Obj c ∈ found.
Proof.
  intros Hseed Hres Hi.
  destruct (pc_collect_traced _ _ _ _ Hseed Hres)
    as (rr' & _ & _ & _ & _ & _ & _ & _ & Hpar).
  destruct (Hpar i c Hi) as [Hin|(j & p & found & Hj & Hp & Hv & Hin)]; [by left|].
  right. by exists j, p, found.
Qed.

Lemma traced_included r r' marks frontier frontier' rr rr' new new' :
  prop_sets r = prop_sets r' →
  (∀ x, x ∈ frontier → x ∈ frontier') →
  traced typeFunc Map r marks frontier (initial r marks) rr new →
  traced typeFunc Map r' marks frontier' (initial r' marks) rr' new' →
  ∀ i c, new !! i = Some c → c ∈ new'.
Proof.
  intros Hprops Hsub (_ & _ & _ & _ & _ & Hvis & Hpar)
         (_ & _ & _ & Hcol' & Hfrom' & Hvis' & _).
  assert (∀ x, visit typeFunc Map (initial r marks) x =
               visit typeFunc Map (initial r' marks) x) as Hsame.
  { intros x. by apply visit_ext. }
  assert (∀ c, c ∈ new → oc_Obj c ∈ collected rr' → c ∈ new') as Hkey.
  { intros c Hc [Hin|Hin]%Hcol'; [by apply elem_of_empty in Hin|].
    apply list_elem_of_fmap in Hin as (c' & Heq & Hc').
    destruct (Hvis c Hc) as (found & Hv & _).
    destruct (Hvis' c' Hc') as (found' & Hv' & _).
    unfold visited in Hv, Hv'. rewrite Hsame, Heq, Hv' in Hv.
    by injection Hv as <- _. }
  intros i. induction (lt_wf i) as [i _ IH]. intros c Hi.
  pose proof (list_elem_of_lookup_2 _ _ _ Hi) as Hc.
  apply Hkey; [done|].
  destruct (Hpar i c Hi) as [Hin|(j & p & found & Hj & Hp & Hv & Hin)].
  - by apply Hfrom', Hsub.
  - pose proof (IH j Hj p Hp) as Hp'.
    destruct (Hvis' p Hp') as (found' & Hv' & Hfound').
    unfold visited in Hv, Hv'. rewrite Hsame, Hv' in Hv.
    injection Hv as <-. by apply Hfound'.
Qed.

(** X13: the object contents a call returns do not depend on the order in
    which the seed loop selected the references.  Two requests with the
    same property specs and marked paths whose seeds select the same
    references, in any order and any number of times, return the same
    object contents, possibly in another order. *)
Theorem X13_result_set_is_independent_of_seed_order
    (r r' : RetrievePropertiesEx_req) (marks : gset string)
    (frontier frontier' : list ManagedObjectReference) (res res' : RetrieveResult) :
  seed_specs typeFunc Map (rpx_SpecSet r) (∅, []) = Ret (inl (marks, frontier)) →
  seed_specs typeFunc Map (rpx_SpecSet r') (∅, []) = Ret (inl (marks, frontier')) →
  prop_sets r = prop_sets r' →
  (∀ x, x ∈ frontier ↔ x ∈ frontier') →
  pc_collect typeFunc Map r = Done (inl res) →
  pc_collect typeFunc Map r' = Done (inl res') →
  ∀ c, c ∈ Objects res ↔ c ∈ Objects res'.
Proof.
  intros Hseed Hseed' Hprops Hfrontier Hres Hres' c.
  destruct (pc_collect_traced _ _ _ _ Hseed Hres) as (rr & _ & Htr).
  destruct (pc_collect_traced _ _ _ _ Hseed' Hres') as (rr' & _ & Htr').
  split; intros (i & Hi)%list_elem_of_lookup_1.
  - eapply (traced_included r r'); [done| |exact Htr|exact Htr'|exact Hi].
    intros x. apply Hfrontier.
  - eapply (traced_included r' r); [done| |exact Htr'|exact Htr|exact Hi].
    intros x. apply Hfrontier.
Qed.

(** *** A call that marks no path *)

Lemma visit_unmarked rr ref content found :
  recurse rr = ∅ → visit typeFunc Map rr ref = Ret (content, found) → found = [].
Proof.
  intros Hrec (rval & rtype & _ & Htaken)%visit_refs.
  destruct found as [|x found]; [done|].
  destruct (Htaken x) as (spec & p & name & v & l & _ & _ & _ & Hin & _); [by left|].
  rewrite Hrec in Hin. by apply elem_of_empty in Hin.
Qed.

Lemma foldF_collect_unmarked fuel refs : ∀ rr rr',
  recurse rr = ∅ →
  (∀ x, x ∈ collected rr ↔ x ∈ (oc_Obj <$> Objects (rr_RetrieveResult rr))) →
  foldF (collect typeFunc Map (S fuel)) refs rr = Done rr' →
  oc_Obj <$> Objects (rr_RetrieveResult rr') =
  foldl (λ acc x, if decide (x ∈ acc) then acc else acc ++ [x])
        (oc_Obj <$> Objects (rr_RetrieveResult rr)) refs.
Proof.
  induction refs as [|y refs IH]; intros rr rr' Hrec Hcol.
  { by intros [= <-]. }
  cbn [foldF collect foldl].
  destruct (decide (y ∈ collected rr)) as [Hin|Hnot]; cbn [mbind fueled_bind].
  - rewrite decide_True by by apply Hcol. by apply IH.
  - rewrite decide_False by by rewrite <- Hcol.
    destruct (visit typeFunc Map rr y) as [[content found]|] eqn:Hv;
      cbn [lift mbind fueled_bind]; [|done].
    rewrite (visit_unmarked _ _ _ _ Hrec Hv). cbn [foldF mbind fueled_bind].
    apply visit_Ret in Hv as [_ Hobj].
    intros H. apply IH in H; [|done|].
    + rewrite H. simpl. rewrite fmap_app. simpl. by rewrite Hobj.
    + intros x. simpl. rewrite fmap_app, elem_of_union, elem_of_app, Hcol.
      simpl. rewrite elem_of_singleton, Hobj, list_elem_of_singleton. tauto.
Qed.

(** X14: a call that marks no path as recursive (no traversal spec with a
    nested select set on a registered root) returns one object content for
    each reference the seed loop selected, in the order in which the
    references were first selected. *)
Theorem X14_unmarked_call_returns_seed_in_order
    (r : RetrievePropertiesEx_req) (frontier : list ManagedObjectReference)
    (res : RetrieveResult) :
  seed_specs typeFunc Map (rpx_SpecSet r) (∅, []) = Ret (inl (∅, frontier)) →
  pc_collect typeFunc Map r = Done (inl res) →
  oc_Obj <$> Objects res = first_seen frontier.
Proof.
  intros Hseed. unfold pc_collect. rewrite pc_collect_fuel_eq, Hseed.
  destruct (foldF _ frontier _) as [rr| |] eqn:Hf; try done.
  intros [= <-].
  apply foldF_collect_unmarked in Hf; [done|done|].
  intros x. simpl. split; [by intros ?%elem_of_empty|by intros ?%elem_of_nil].
Qed.

(** *** What a call depends on *)

(** X15: a call looks at the spec set of its request only.  The receiver
    and the options (the maximum number of objects) change neither the
    outcome of [PropertyCollector.collect] nor the body
    [RetrievePropertiesEx] returns, and the token of a returned result is
    always empty: nothing is held back for a later page. *)
Theorem X15_call_depends_on_spec_set_only
    (this this' : ManagedObjectReference) (opts opts' : RetrieveOptions)
    (specs : list PropertyFilterSpec) :
  let r := mkRetrievePropertiesEx this specs opts in
  let r' := mkRetrievePropertiesEx this' specs opts' in
  pc_collect typeFunc Map r = pc_collect typeFunc Map r' ∧
  RetrievePropertiesEx typeFunc Map soapFault Fault r =
    RetrievePropertiesEx typeFunc Map soapFault Fault r' ∧
  ∀ res, pc_collect typeFunc Map r = Done (inl res) → Token res = "".
Proof.
  intros r r'.
  assert (pc_collect typeFunc Map r = pc_collect typeFunc Map r') as Heq
    by by apply pc_collect_same_seed.
  split; [done|]. split; [unfold RetrievePropertiesEx; by rewrite Heq|].
  intros res Hres.
  destruct (seed_specs typeFunc Map (rpx_SpecSet r) (∅, []))
    as [[[marks frontier]|fault]|] eqn:Hseed.
  - destruct (pc_collect_traced _ _ _ _ Hseed Hres) as (rr' & -> & _). done.
  - unfold pc_collect in Hres. rewrite pc_collect_fuel_eq, Hseed in Hres. done.
  - unfold pc_collect in Hres. rewrite pc_collect_fuel_eq, Hseed in Hres. done.
Qed.

Lemma seed_specs_no_objects specs : ∀ st,
  (∀ spec, spec ∈ specs → pfs_ObjectSet spec = []) →
  seed_specs typeFunc Map specs st = Ret (inl st).
Proof.
  induction specs as [|spec specs IH]; intros st Hall; [done|].
  cbn [seed_specs]. rewrite (Hall spec) by by left. cbn [seed_objects mbind run_bind].
  apply IH. intros; apply Hall. by right.
Qed.

(** X16: a request that names no object returns the empty result, neither
    a fault nor a panic, whatever its property specs ask for and whatever
    the registry holds; [RetrieveProperties] answers it with an empty list
    of object contents. *)
Theorem X16_request_without_objects_returns_empty_result
    (r : RetrieveProperties_req) :
  (∀ spec, spec ∈ rp_SpecSet r → pfs_ObjectSet spec = []) →
  pc_collect typeFunc Map
    (mkRetrievePropertiesEx (rp_This r) (rp_SpecSet r) (mkRetrieveOptions 0)) =
    Done (inl (mkRetrieveResult "" [])) ∧
  RetrieveProperties typeFunc Map soapFault Fault r =
    Done (mkRetrievePropertiesBody (Some (mkRetrievePropertiesResponse [])) None).
Proof.
  intros Hall.
  assert (pc_collect typeFunc Map
            (mkRetrievePropertiesEx (rp_This r) (rp_SpecSet r) (mkRetrieveOptions 0)) =
          Done (inl (mkRetrieveResult "" []))) as Hpc.
  { unfold pc_collect. rewrite pc_collect_fuel_eq. simpl.
    by rewrite seed_specs_no_objects. }
  split; [done|].
  unfold RetrieveProperties, RetrievePropertiesEx. by rewrite Hpc.
Qed.

(** *** What the seed loop selects *)

Lemma seed_select_complete obj sel : ∀ st st',
  foldM (seed_select typeFunc obj) sel st = Ret st' →
  (∀ path, path ∈ st.1 → path ∈ st'.1) ∧
  (∀ x, x ∈ st.2 → x ∈ st'.2) ∧
  (∀ name ty path skip nested,
     TraversalSpec name ty path skip (Some nested) ∈ sel → path ∈ st'.1) ∧
  (∀ x, discovered_by_traversal typeFunc obj sel x → x ∈ st'.2).
Proof.
  induction sel as [|ss sel IH]; intros st st'; simpl.
  { intros [= <-]. repeat (split; [done|]). split.
    - by intros ????? ?%elem_of_nil.
    - by intros x (?&?&?&?&?&?&?&?%elem_of_nil&_). }
  intros (st1 & Hss & Hrest)%bind_Ret_inv.
  destruct (IH _ _ Hrest) as (Hmarks & Hrefs & Hmarked & Hdisc).
  destruct ss as [|name0 ty0 path0 skip0 nested0]; [discriminate|].
  simpl in Hss.
  apply bind_Ret_inv in Hss as (f & Hf & (more & Hmore & [= <-])%bind_Ret_inv).
  simpl in *.
  split; [|split; [|split]].
  - intros path Hp. apply Hmarks. destruct nested0; [|done].
    apply elem_of_union. by right.
  - intros x Hx. apply Hrefs, elem_of_app. by left.
  - intros name ty path skip nested [[= _ _ -> _ <-]|Hin]%elem_of_cons; [|eauto].
    apply Hmarks, elem_of_union. left. by apply elem_of_singleton.
  - intros x (name & ty & path & skip & nested & v & found & Hin & Hv & Hfound & Hx).
    apply elem_of_cons in Hin as [[= _ _ -> _ _]|Hin].
    + apply Hrefs, elem_of_app. right. rewrite Hv in Hf. injection Hf as <-.
      rewrite Hfound in Hmore. by injection Hmore as <-.
    + apply Hdisc. by exists name, ty, path, skip, nested, v, found.
Qed.

Lemma seed_objects_complete report os : ∀ st st',
  seed_objects typeFunc Map report os st = Ret (inl st') →
  (∀ path, path ∈ st.1 → path ∈ st'.1) ∧
  (∀ x, x ∈ st.2 → x ∈ st'.2) ∧
  (∀ o name ty path skip nested,
     o ∈ os → is_Some (Map !! os_Obj o) →
     TraversalSpec name ty path skip (Some nested) ∈ range (os_SelectSet o) →
     path ∈ st'.1) ∧
  (∀ o x, o ∈ os → seeded_by typeFunc Map o x → x ∈ st'.2).
Proof.
  induction os as [|o os IH]; intros st st'.
  { intros [= <-]. repeat (split; [done|]).
    split; [by intros o ????? ?%elem_of_nil|by intros o x ?%elem_of_nil]. }
  destruct (Map !! os_Obj o) as [obj|] eqn:Hobj.
  - rewrite (seed_object_step _ _ _ _ _ Hobj).
    intros (st1 & Hsel & Hrest)%bind_Ret_inv.
    destruct (seed_select_complete _ _ _ _ Hsel) as (Hm1 & Hr1 & Hmarked1 & Hdisc1).
    destruct (IH _ _ Hrest) as (Hm2 & Hr2 & Hmarked2 & Hdisc2).
    simpl in Hm1, Hr1.
    split; [auto|]. split; [|split].
    + intros x Hx. apply Hr2, Hr1, elem_of_app. by left.
    + intros o' name ty path skip nested [->|Hin]%elem_of_cons Hsome Hts; [|eauto].
      eapply Hm2, Hmarked1, Hts.
    + intros o' x [->|Hin]%elem_of_cons Hseeded; [|eauto].
      destruct Hseeded as (obj' & Hobj' & [[-> Hroot]|Hd]).
      * apply Hr2, Hr1, elem_of_app. right. rewrite Hroot. by left.
      * apply Hr2, Hdisc1. congruence.
  - simpl. unfold Map_Get. rewrite Hobj.
    destruct (isFalse report); [discriminate|]. intros Hrest.
    destruct (IH _ _ Hrest) as (Hm2 & Hr2 & Hmarked2 & Hdisc2).
    repeat (split; [done|]). split.
    + intros o' name ty path skip nested [->|Hin]%elem_of_cons Hsome Hts; [|eauto].
      rewrite Hobj in Hsome. by destruct Hsome.
    + intros o' x [->|Hin]%elem_of_cons Hseeded; [|eauto].
      destruct Hseeded as (obj' & Hobj' & _). congruence.
Qed.

Lemma seed_specs_complete specs : ∀ st st',
  seed_specs typeFunc Map specs st = Ret (inl st') →
  (∀ path, path ∈ st.1 → path ∈ st'.1) ∧
  (∀ x, x ∈ st.2 → x ∈ st'.2) ∧
  (∀ spec o name ty path skip nested,
     spec ∈ specs → o ∈ pfs_ObjectSet spec → is_Some (Map !! os_Obj o) →
     TraversalSpec name ty path skip (Some nested) ∈ range (os_SelectSet o) →
     path ∈ st'.1) ∧
  (∀ spec o x, spec ∈ specs → o ∈ pfs_ObjectSet spec →
     seeded_by typeFunc Map o x → x ∈ st'.2).
Proof.
  induction specs as [|spec specs IH]; intros st st'; simpl.
  { intros [= <-]. repeat (split; [done|]).
    split; [by intros ??????? ?%elem_of_nil|by intros ??? ?%elem_of_nil]. }
  intros ([st1|fault] & Hobjs & Hrest)%bind_Ret_inv; [|discriminate].
  destruct (seed_objects_complete _ _ _ _ Hobjs) as (Hm1 & Hr1 & Hmarked1 & Hdisc1).
  destruct (IH _ _ Hrest) as (Hm2 & Hr2 & Hmarked2 & Hdisc2).
  split; [auto|]. split; [auto|]. split.
  - intros spec' o name ty path skip nested [->|Hin]%elem_of_cons Ho Hsome Hts;
      [|eauto]. eapply Hm2, Hmarked1; eauto.
  - intros spec' o x [->|Hin]%elem_of_cons Ho Hseeded; [|eauto].
    eapply Hr2, Hdisc1; eauto.
Qed.

(** X17: the seed loop leaves nothing out.  When it ends without a fault,
    every path of a traversal spec that carries a nested select set and
    belongs to a registered root is marked, and the references it has
    selected include every registered root that is not skipped and every
    reference a traversal spec's path resolves to on its root. *)
Theorem X17_seed_loop_marks_and_selects_completely
    (r : RetrievePropertiesEx_req) (marks : gset string)
    (frontier : list ManagedObjectReference) :
  seed_specs typeFunc Map (rpx_SpecSet r) (∅, []) = Ret (inl (marks, frontier)) →
  (∀ spec o name ty path skip nested,
     spec ∈ rpx_SpecSet r → o ∈ pfs_ObjectSet spec → is_Some (Map !! os_Obj o) →
     TraversalSpec name ty path skip (Some nested) ∈ range (os_SelectSet o) →
     path ∈ marks) ∧
  (∀ spec o x, spec ∈ rpx_SpecSet r → o ∈ pfs_ObjectSet spec →
     seeded_by typeFunc Map o x → x ∈ frontier).
Proof.
  intros (_ & _ & Hmarked & Hsel)%seed_specs_complete. split.
  - intros spec o name ty path skip nested Hspec Ho Hsome Hts.
    eapply (Hmarked spec o); eauto.
  - intros spec o x Hspec Ho Hseeded. by eapply (Hsel spec o).
Qed.

(** X18: every selected reference is answered or the call fails.  When a
    call returns a result, each registered root that is not skipped and
    each reference a traversal spec's path resolves to on its root has an
    object content in it, and is registered: a call whose seed loop
    selects an unregistered reference returns no result. *)
Theorem X18_selected_references_are_answered
    (r : RetrievePropertiesEx_req) (res : RetrieveResult)
    (spec : PropertyFilterSpec) (o : ObjectSpec) (x : ManagedObjectReference) :
  pc_collect typeFunc Map r = Done (inl res) →
  spec ∈ rpx_SpecSet r → o ∈ pfs_ObjectSet spec →
  seeded_by typeFunc Map o x →
  x ∈ (oc_Obj <$> Objects res) ∧ is_Some (Map !! x).
Proof.
  intros Hres Hspec Ho Hseeded.
  assert (x ∈ (oc_Obj <$> Objects res)) as Hin.
  { destruct (seed_specs typeFunc Map (rpx_SpecSet r) (∅, []))
      as [[[marks frontier]|fault]|] eqn:Hseed.
    - destruct (pc_collect_traced _ _ _ _ Hseed Hres)
        as (rr' & _ & _ & _ & _ & Hcol & Hfrom & _).
      apply seed_specs_complete in Hseed as (_ & _ & _ & Hsel).
      destruct (proj1 (Hcol x)) as [Hx|Hx]; [|by apply elem_of_empty in Hx|done].
      apply Hfrom. by apply (Hsel spec o).
    - unfold pc_collect in Hres. rewrite pc_collect_fuel_eq, Hseed in Hres. done.
    - unfold pc_collect in Hres. rewrite pc_collect_fuel_eq, Hseed in Hres. done. }
  split; [done|]. by apply (objects_registered r res).
Qed.

(** *** An object no property spec applies to *)

Lemma foldM_skip {A B : Type} (f : B → A → run B) (l : list A) (b : B) :
  (∀ a, a ∈ l → f b a = Ret b) → foldM f l b = Ret b.
Proof.
  induction l as [|a l IH]; intros Hall; [done|].
  simpl. rewrite Hall by by left. simpl. apply IH. intros; apply Hall. by right.
Qed.

(** X19: an object is returned even when no property spec applies to it.
    If every property spec of the request names a type that is neither
    the type of the reference nor an embedded record of the object, the
    visit returns an object content with the reference and nothing else,
    and hands on no reference; it does not drop the object and reports
    nothing as missing. *)
Theorem X19_object_without_applicable_spec_is_returned_bare
    (rr : retrieveResult) (ref : ManagedObjectReference) (rval : value)
    (pkg n : string) (fs : list (fieldOf rtype)) :
  reflect_object (Map_Get Map ref) = Ret (rval, TStruct pkg n fs) →
  (∀ spec p, spec ∈ rpx_SpecSet (req rr) → p ∈ pfs_PropSet spec →
     ps_Type p ≠ mor_Type ref ∧
     ¬ names_embedded_base (TStruct pkg n fs) (ps_Type p)) →
  visit typeFunc Map rr ref = Ret (mkObjectContent ref [] [], []).
Proof.
  intros Hobj Hnone. unfold visit. rewrite Hobj. cbn [mbind run_bind].
  apply foldM_skip. intros spec Hspec.
  apply foldM_skip. intros p Hp.
  destruct (Hnone spec p Hspec Hp) as [Hty Hemb].
  unfold collect_prop.
  destruct (spec_applies_struct ref pkg n fs p) as (ok & -> & Hok).
  cbn [mbind run_bind]. destruct ok; [|done].
  destruct (proj1 Hok eq_refl); done.
Qed.

(** *** Property specs and filter specs *)

(** X20: the type a property spec names decides whether the spec applies
    to an object and nothing more.  Two property specs that both apply (each
    names the type of the reference or an embedded record of the object)
    and carry the same wildcard flag and the same paths do the same to the
    object content: a spec naming a base type reports the fields of the
    whole object, not those of the base type alone. *)
Theorem X20_type_of_applicable_spec_does_not_restrict_fields
    (rr : retrieveResult) (ref : ManagedObjectReference) (rval : value)
    (pkg n : string) (fs : list (fieldOf rtype))
    (acc : ObjectContent * list ManagedObjectReference)
    (ty ty' : string) (all : option bool) (paths : list string) :
  ty = mor_Type ref ∨ names_embedded_base (TStruct pkg n fs) ty →
  ty' = mor_Type ref ∨ names_embedded_base (TStruct pkg n fs) ty' →
  collect_prop typeFunc rr ref rval (TStruct pkg n fs) acc (mkPropertySpec ty all paths) =
  collect_prop typeFunc rr ref rval (TStruct pkg n fs) acc (mkPropertySpec ty' all paths).
Proof.
  intros Hty Hty'. unfold collect_prop.
  destruct (spec_applies_struct ref pkg n fs (mkPropertySpec ty all paths))
    as (ok & -> & Hok).
  destruct (spec_applies_struct ref pkg n fs (mkPropertySpec ty' all paths))
    as (ok' & -> & Hok').
  apply Hok in Hty. apply Hok' in Hty'. by subst.
Qed.

(** X21: a wildcard property spec does not drive the traversal.  When the
    wildcard flag of a property spec is true its path set is not looked at,
    and applying the spec to an object hands on no reference and reports
    nothing as missing, whatever paths are marked: only a path listed in a
    path set can feed the visits. *)
Theorem X21_wildcard_spec_ignores_paths_and_hands_on_nothing
    (rr : retrieveResult) (ref : ManagedObjectReference) (rval : value)
    (rtype : rtype) (acc : ObjectContent * list ManagedObjectReference)
    (ty : string) (all : option bool) (paths : list string) :
  isTrue all = true →
  collect_prop typeFunc rr ref rval rtype acc (mkPropertySpec ty all paths) =
    collect_prop typeFunc rr ref rval rtype acc (mkPropertySpec ty all []) ∧
  ∀ acc', collect_prop typeFunc rr ref rval rtype acc (mkPropertySpec ty all paths)
            = Ret acc' →
          acc'.2 = acc.2 ∧ oc_MissingSet acc'.1 = oc_MissingSet acc.1.
Proof.
  intros Hall. unfold collect_prop, spec_applies. cbn [ps_Type ps_All ps_PathSet].
  rewrite Hall. split; [done|]. intros acc'.
  intros (ok & _ & H)%bind_Ret_inv.
  destruct ok; cbn [negb] in H; [|by injection H as <-].
  apply bind_Ret_inv in H as (content & Hc & [= <-]).
  apply collectAll_reports in Hc as (_ & Hm & _). done.
Qed.

Lemma foldM_mjoin {A B : Type} (f : B → A → run B) (ls : list (list A)) : ∀ b,
  foldM (λ acc l, foldM f l acc) ls b = foldM f (mjoin ls) b.
Proof.
  induction ls as [|l ls IH]; intros b; [done|].
  cbn [foldM mjoin list_join]. rewrite foldM_app.
  destruct (foldM f l b); cbn [mbind run_bind]; [apply IH|done].
Qed.

(** A visit reads the property specs of the request as one list. *)
Lemma visit_flat rr rr' ref :
  recurse rr = recurse rr' →
  mjoin (prop_sets (req rr)) = mjoin (prop_sets (req rr')) →
  visit typeFunc Map rr ref = visit typeFunc Map rr' ref.
Proof.
  intros Hrec Hprops. unfold visit.
  destruct (reflect_object (Map_Get Map ref)) as [[rval rtype]|]; simpl; [|done].
  rewrite (foldM_fmap (λ acc ps, foldM (collect_prop typeFunc rr ref rval rtype) ps acc)
             pfs_PropSet).
  rewrite (foldM_fmap (λ acc ps, foldM (collect_prop typeFunc rr' ref rval rtype) ps acc)
             pfs_PropSet).
  rewrite !foldM_mjoin. unfold prop_sets in Hprops. rewrite Hprops.
  apply foldM_ext. intros b p _. by apply collect_prop_ext.
Qed.

Lemma collect_same_visits fuel : ∀ rr rr' ref,
  same_visits typeFunc Map rr rr' →
  same_visits_outcome typeFunc Map (collect typeFunc Map fuel rr ref)
                                   (collect typeFunc Map fuel rr' ref).
Proof.
  induction fuel as [|n IH]; intros rr rr' ref Hv; simpl; [done|].
  pose proof Hv as (Hres & Hcol & Hvisit). rewrite <- Hcol, <- Hvisit.
  destruct (decide (ref ∈ collected rr)); [by simpl|].
  destruct (visit typeFunc Map rr ref) as [[content refs]|]; simpl; [|done].
  assert (same_visits typeFunc Map (emit rr ref content) (emit rr' ref content)) as Hemit.
  { split; [|split].
    - simpl. by rewrite Hres.
    - simpl. by rewrite Hcol.
    - intros x. rewrite (visit_ext (emit rr ref content) rr) by done.
      rewrite (visit_ext (emit rr' ref content) rr') by done. apply Hvisit. }
  generalize dependent (emit rr' ref content).
  generalize dependent (emit rr ref content).
  clear -IH. induction refs as [|r refs IHrefs]; intros st st' Hst; simpl; [done|].
  specialize (IH st st' r Hst).
  destruct (collect typeFunc Map n st r), (collect typeFunc Map n st' r); simpl in *;
    try done.
  by apply IHrefs.
Qed.

Lemma foldF_collect_same_visits fuel refs : ∀ rr rr',
  same_visits typeFunc Map rr rr' →
  same_visits_outcome typeFunc Map (foldF (collect typeFunc Map fuel) refs rr)
                                   (foldF (collect typeFunc Map fuel) refs rr').
Proof.
  induction refs as [|r refs IH]; intros rr rr' Hv; simpl; [done|].
  pose proof (collect_same_visits fuel rr rr' r Hv) as Hc.
  destruct (collect typeFunc Map fuel rr r), (collect typeFunc Map fuel rr' r);
    simpl in *; try done.
  by apply IH.
Qed.

(** X22: the filter specs of a request are not kept apart.  The property
    specs of every filter spec are applied to every visited object,
    whichever filter spec selected it: two neighbouring filter specs with
    the same report flag are answered as the one filter spec that holds
    the property specs of both and the object specs of both. *)
Theorem X22_filter_specs_share_their_property_specs
    (this : ManagedObjectReference) (opts : RetrieveOptions)
    (specs1 specs2 : list PropertyFilterSpec)
    (props1 props2 : list PropertySpec) (os1 os2 : list ObjectSpec)
    (report : option bool) :
  pc_collect typeFunc Map
    (mkRetrievePropertiesEx this
       (specs1 ++ mkPropertyFilterSpec props1 os1 report ::
                  mkPropertyFilterSpec props2 os2 report :: specs2) opts) =
  pc_collect typeFunc Map
    (mkRetrievePropertiesEx this
       (specs1 ++ mkPropertyFilterSpec (props1 ++ props2) (os1 ++ os2) report :: specs2)
       opts).
Proof.
  set (r := mkRetrievePropertiesEx this (specs1 ++ _ :: _ :: specs2) opts).
  set (r' := mkRetrievePropertiesEx this (specs1 ++ _ :: specs2) opts).
  assert (seed_specs typeFunc Map (rpx_SpecSet r) (∅, []) =
          seed_specs typeFunc Map (rpx_SpecSet r') (∅, [])) as Hseed.
  { subst r r'. cbn [rpx_SpecSet]. rewrite !seed_specs_app.
    destruct (seed_specs typeFunc Map specs1 (∅, [])) as [[st|fault]|]; try done.
    cbn [seed_specs pfs_ObjectSet pfs_ReportMissingObjectsInResults].
    rewrite seed_objects_app.
    destruct (seed_objects typeFunc Map report os1 st) as [[st1|fault]|];
      cbn [mbind run_bind]; done. }
  assert (mjoin (prop_sets r) = mjoin (prop_sets r')) as Hprops.
  { subst r r'. unfold prop_sets. cbn [rpx_SpecSet].
    rewrite !fmap_app, !join_app. cbn [fmap list_fmap mjoin list_join pfs_PropSet].
    f_equal. apply (assoc_L (++)). }
  unfold pc_collect. rewrite !pc_collect_fuel_eq, Hseed. clear Hseed.
  destruct (seed_specs typeFunc Map (rpx_SpecSet r') (∅, [])) as [[[marks refs]|fault]|];
    try done.
  assert (same_visits typeFunc Map (initial r marks) (initial r' marks)) as Hsame.
  { split; [done|]. split; [done|]. intros x. by apply visit_flat. }
  pose proof (foldF_collect_same_visits (S (size Map)) refs _ _ Hsame) as Hs.
  destruct (foldF _ refs (initial r marks)) as [a| |],
           (foldF _ refs (initial r' marks)) as [b| |];
    cbn [same_visits_outcome] in Hs; try done.
  - by destruct Hs as [-> _].
  - by rewrite Hs.
Qed.

End Properties.

(** ** The properties at work on the inventory *)

(** C4: the visit of a reference that is not registered is not guarded.  The
    registry holds [C], whose [childEntity] names the unregistered [D]; the
    traversal spec puts [D] on the frontier, and its visit calls [Elem] on
    the zero Value: the call panics, with the report flag unset and with it
    set, where the claim expects a fault or a silent skip. *)
Theorem C4_visit_of_unregistered_reference_panics :
  exDangling !! exD = None ∧
  seed_specs exTypeFunc exDangling
    [mkPropertyFilterSpec exNameSpec [mkObjectSpec exC None (Some [exChildren None])] None]
    (∅, []) = Ret (inl (∅, [exC; exD])) ∧
  pc_collect exTypeFunc exDangling
    (exRequest exNameSpec [mkObjectSpec exC None (Some [exChildren None])] None)
    = Panicked ZeroValuePanic ∧
  pc_collect exTypeFunc exDangling
    (exRequest exNameSpec [mkObjectSpec exC None (Some [exChildren None])] (Some true))
    = Panicked ZeroValuePanic.
Proof. repeat split; vm_compute; reflexivity. Qed.

(** C1 on the inventory: [A] holds [B] and [C], and [B] points back to [A]. *)
Lemma C1_witness : NoDup (oc_Obj <$> Objects exCycleResult).
Proof.
  apply (proj2 (proj2 (C1_retrieval_terminates_without_duplicates
                         exTypeFunc exMap exCycleRequest))).
  vm_compute. reflexivity.
Defined.

(** C2, as stated, fails: [B] has no parent, so the path [parent.bogus]
    stops at the nil pointer and is dropped as empty, although no record of
    the object, and not the record type [parent] points to, has a field
    [Bogus]; no missingSet entry is produced. *)
Lemma C2_counterexample :
  Value_FieldByName (exFolder exB "" None [exA]) "Bogus" = Ret None ∧
  Type_FieldByName TManagedObjectReference "Bogus" = Ret None ∧
  fieldValue exTypeFunc (exFolder exB "" None [exA]) "parent.bogus"
    = Ret (inr errEmptyField) ∧
  collectFields exTypeFunc (initial exCycleRequest ∅) (exFolder exB "" None [exA])
    ["parent.bogus"] (mkObjectContent exB [] [])
    = Ret (mkObjectContent exB [] [], []).
Proof. repeat split; vm_compute; reflexivity. Qed.

(** C2 on the folder [B]: [self.bogus] reaches the record [Self], which has
    no field [Bogus]; [name] is the empty string. *)
Lemma C2_witness :
  collectFields exTypeFunc (initial exCycleRequest ∅) (exFolder exB "" None [exA])
    ["self.bogus"] (mkObjectContent exB [] [])
    = Ret (mkObjectContent exB [] [InvalidProperty_entry "self.bogus"], []) ∧
  collectFields exTypeFunc (initial exCycleRequest ∅) (exFolder exB "" None [exA])
    ["name"] (mkObjectContent exB [] [])
    = Ret (mkObjectContent exB [] [], []).
Proof.
  split.
  - apply (proj1 (C2_missing_segment_is_reported_empty_value_is_silent
                    exTypeFunc (initial exCycleRequest ∅) (exFolder exB "" None [exA])
                    "self.bogus" [] (mkObjectContent exB [] []) []
                    ["self"] [] "bogus" "Bogus" (ref_value exB)
                    eq_refl
                    (reaches_cons (exFolder exB "" None [exA]) "self" "Self"
                       (ref_value exB) [] (ref_value exB)
                       eq_refl eq_refl eq_refl (reaches_nil _))
                    eq_refl)).
    vm_compute. reflexivity.
  - apply (proj2 (C2_missing_segment_is_reported_empty_value_is_silent
                    exTypeFunc (initial exCycleRequest ∅) (exFolder exB "" None [exA])
                    "name" [] (mkObjectContent exB [] []) []
                    [] [] "name" "Name" (exFolder exB "" None [exA])
                    eq_refl (reaches_nil _) eq_refl) (VString "")).
    + vm_compute. reflexivity.
    + reflexivity.
Defined.

(** C3, as stated, fails: [D] and [E] are both unregistered and the report
    flag is unset, so the seed loop ends at [D], and the fault the call
    returns carries [D] and not [E]; and when an object spec before [D]
    has a registered root whose select set holds a plain [SelectionSpec],
    the call panics at that object spec and returns no fault at all. *)
Lemma C3_counterexample :
  exMap !! exD = None ∧ exMap !! exE = None ∧
  pc_collect exTypeFunc exMap
    (exRequest exNameSpec [mkObjectSpec exD None None; mkObjectSpec exE None None] None)
    = Done (inr (ManagedObjectNotFound exD)) ∧
  RetrievePropertiesEx exTypeFunc exMap _ exFault
    (exRequest exNameSpec [mkObjectSpec exD None None; mkObjectSpec exE None None] None)
    = Done (mkRetrievePropertiesExBody None
              (Some (exFault "" (ManagedObjectNotFound exD)))) ∧
  ManagedObjectNotFound exD ≠ ManagedObjectNotFound exE ∧
  RetrievePropertiesEx exTypeFunc exMap _ exFault
    (exRequest exNameSpec [exNamedSelection exA; mkObjectSpec exD None None] None)
    = Panicked AssertPanic.
Proof. repeat split; try discriminate; vm_compute; reflexivity. Qed.

(** C3 on the unregistered [D], with the report flag unset and set. *)
Lemma C3_witness :
  pc_collect exTypeFunc exMap (exRequest exNameSpec [mkObjectSpec exD None None] None)
    = Done (inr (ManagedObjectNotFound exD)) ∧
  (pc_collect exTypeFunc exMap
     (exRequest exNameSpec [mkObjectSpec exD None None; mkObjectSpec exC None None]
        (Some true))
   = pc_collect exTypeFunc exMap
       (exRequest exNameSpec [mkObjectSpec exC None None] (Some true))).
Proof.
  split.
  - apply (proj2 (proj2 (C3_absent_root_faults_or_is_skipped exTypeFunc exMap _ exFault
                    (mkRef "PropertyCollector" "pc") (mkRetrieveOptions 0)
                    [] [] exNameSpec [] [] (mkObjectSpec exD None None) None
                    eq_refl)) (∅, [])).
    exists (∅, []). split; reflexivity.
  - apply (C3_absent_root_faults_or_is_skipped exTypeFunc exMap _ exFault
             (mkRef "PropertyCollector" "pc") (mkRetrieveOptions 0)
             [] [] exNameSpec [] [mkObjectSpec exC None None]
             (mkObjectSpec exD None None) (Some true) eq_refl).
Defined.

(** C5 on the folder [A]: [ManagedEntity] is an embedded record of a folder,
    [ChildEntity] is a field of its own and no base type. *)
Lemma C5_witness :
  collect_prop exTypeFunc (initial exCycleRequest ∅) exA (exFolder exA "a" None [])
    (TStruct moPkg "Folder" exFolderFields) (mkObjectContent exA [] [], [])
    (mkPropertySpec "ManagedEntity" None ["name"])
  = Ret (mkObjectContent exA [mkDynamicProperty "name" (Some (VString "a"))] [], []) ∧
  collect_prop exTypeFunc (initial exCycleRequest ∅) exA (exFolder exA "a" None [])
    (TStruct moPkg "Folder" exFolderFields) (mkObjectContent exA [] [], [])
    (mkPropertySpec "ChildEntity" None ["name"])
  = Ret (mkObjectContent exA [] [], []).
Proof.
  split.
  - rewrite (proj1 (C5_property_spec_applies_to_own_type_or_embedded_record
                      exTypeFunc (initial exCycleRequest ∅) exA
                      (exFolder exA "a" None []) moPkg "Folder" exFolderFields
                      (mkObjectContent exA [] [], [])
                      (mkPropertySpec "ManagedEntity" None ["name"]))).
    + vm_compute. reflexivity.
    + right. split; [done|].
      exists (mkStructField "ManagedEntity" true
                (TStruct moPkg "ManagedEntity"
                   [mkField "ExtensibleManagedObject" true
                      (TStruct moPkg "ExtensibleManagedObject"
                         [mkField "Self" false TManagedObjectReference]);
                    mkField "Parent" false (TPtr TManagedObjectReference);
                    mkField "Name" false TString]) [0]).
      split; [|reflexivity]. exists 0. split; [reflexivity|]. intros d' Hd'. lia.
  - apply (proj2 (C5_property_spec_applies_to_own_type_or_embedded_record
                    exTypeFunc (initial exCycleRequest ∅) exA
                    (exFolder exA "a" None []) moPkg "Folder" exFolderFields
                    (mkObjectContent exA [] [], [])
                    (mkPropertySpec "ChildEntity" None ["name"]))).
    intros [Heq|(_ & f & Hp & Hanon)]; [discriminate|].
    assert (promoted exFolderFields "ChildEntity" exChildEntityField) as Hq.
    { exists 0. split; [reflexivity|]. intros d' Hd'. lia. }
    rewrite (promoted_unique _ _ _ _ Hp Hq) in Hanon. discriminate.
Defined.

(** C6, as stated, fails: the traversal spec carries no nested select set,
    so no path is marked recursive, yet the references its path
    [childEntity] resolves to on the root are put on the frontier, and the
    call returns object contents for [B] and [C]. *)
Lemma C6_counterexample :
  seed_specs exTypeFunc exMap
    [mkPropertyFilterSpec exNameSpec [mkObjectSpec exA None (Some [exChildren None])] None]
    (∅, []) = Ret (inl (∅, [exA; exB; exC])) ∧
  returned (pc_collect exTypeFunc exMap
              (exRequest exNameSpec [mkObjectSpec exA None (Some [exChildren None])] None))
    = Some [exA; exB; exC].
Proof. repeat split; vm_compute; reflexivity. Qed.

(** C6 on the inventory: the request marks [childEntity]; with no mark set,
    resolving [childEntity] hands no reference on. *)
Lemma C6_witness :
  marked_by_request exCycleRequest "childEntity" ∧
  collectFields exTypeFunc (initial exCycleRequest ∅) (exFolder exA "a" None [exB; exC])
    ["childEntity"] (mkObjectContent exA [] []) =
  Ret (mkObjectContent exA
         [mkDynamicProperty "childEntity"
            (Some (VPtr (VStruct typesPkg "ArrayOfManagedObjectReference"
               [mkField "ManagedObjectReference" false
                  (VSlice TManagedObjectReference [ref_value exB; ref_value exC])])))]
         [], []).
Proof.
  split.
  - apply (proj1 (C6_frontier_fed_by_seed_and_marked_paths exTypeFunc exMap exCycleRequest)
             ({["childEntity"]} ∪ ∅) [exA; exB; exC]).
    + vm_compute. reflexivity.
    + apply elem_of_union_l, elem_of_singleton. reflexivity.
  - assert (∃ content found,
              collectFields exTypeFunc (initial exCycleRequest ∅)
                (exFolder exA "a" None [exB; exC]) ["childEntity"]
                (mkObjectContent exA [] []) = Ret (content, found)) as (c & found & Hc).
    { eexists _, _. vm_compute. reflexivity. }
    pose proof (proj2 (proj1 (proj2 (C6_frontier_fed_by_seed_and_marked_paths exTypeFunc exMap
                                       exCycleRequest))
                         _ _ _ _ _ _ Hc)) as Hnone.
    rewrite Hc. rewrite Hnone.
    + vm_compute in Hc. injection Hc as <- _. reflexivity.
    + intros name ->%list_elem_of_singleton. apply not_elem_of_empty.
Defined.

(** C7, as stated, fails: the object spec is marked skip, yet its root is
    seeded and an object content is returned for it, because its select set
    is nil; no traversal path exists that could have discovered it. *)
Lemma C7_counterexample :
  os_Skip exSkippedRoot = Some true ∧
  seed_specs exTypeFunc exMap [mkPropertyFilterSpec exNameSpec [exSkippedRoot] None]
    (∅, []) = Ret (inl (∅, [exA])) ∧
  returned (pc_collect exTypeFunc exMap (exRequest exNameSpec [exSkippedRoot] None))
    = Some [exA].
Proof. repeat split; vm_compute; reflexivity. Qed.

(** C7 on a root marked skip with a select set: only its children are
    selected. *)
Lemma C7_witness :
  ∃ found,
    [exB; exC] = [] ++ (if root_seeded exSkippedParent then [exA] else []) ++ found ∧
    Forall (discovered_by_traversal exTypeFunc (VPtr (exFolder exA "a" None [exB; exC]))
              [exChildren None]) found.
Proof.
  apply (proj1 (C7_root_seeded_unless_skipped_with_select_set exTypeFunc exMap
                  (exRequest exNameSpec [exSkippedParent] None))
           None exSkippedParent (VPtr (exFolder exA "a" None [exB; exC]))
           (∅, []) (∅, [exB; exC])).
  - vm_compute. reflexivity.
  - vm_compute. reflexivity.
Defined.


(** C10, as stated, fails: the select set holds a plain [SelectionSpec], but
    the root [D] is not registered, so the select set is never looked at:
    with the report flag set the call returns an empty result, and with the
    flag unset it returns the object-not-found fault. *)
Lemma C10_counterexample :
  exMap !! exD = None ∧
  pc_collect exTypeFunc exMap (exRequest exNameSpec [exNamedSelection exD] (Some true))
    = Done (inl (mkRetrieveResult "" [])) ∧
  pc_collect exTypeFunc exMap (exRequest exNameSpec [exNamedSelection exD] None)
    = Done (inr (ManagedObjectNotFound exD)).
Proof. repeat split; vm_compute; reflexivity. Qed.

(** C10 on the registered root [A]. *)
Lemma C10_witness :
  pc_collect exTypeFunc exMap (exRequest exNameSpec [exNamedSelection exA] None)
    = Panicked AssertPanic.
Proof.
  apply (proj2 (C10_registered_root_requires_traversal_specs exTypeFunc exMap _ exFault
                  (mkRef "PropertyCollector" "pc") (mkRetrieveOptions 0)
                  [] [] exNameSpec [] [] (exNamedSelection exA) None (∅, [])
                  (VPtr (exFolder exA "a" None [exB; exC])) "visitFolders"
                  (ex_intro _ (∅, []) (conj eq_refl eq_refl)) eq_refl
                  (list_elem_of_here _ _))
           [] [] (∅, [exA]) eq_refl eq_refl).
Defined.


(** ** The single functions and the visits at work on the inventory *)

(** X1 on the field name [Name]. *)
Lemma X1_witness :
  (lcFirst "Name" ≫= ucFirst) = ucFirst "Name" ∧
  (ucFirst "Name" ≫= lcFirst) = lcFirst "Name" ∧
  (ucFirst "Name" ≫= ucFirst) = ucFirst "Name" ∧
  (lcFirst "Name" ≫= lcFirst) = lcFirst "Name" ∧
  (∀ y, lcFirst "Name" = Ret y ∨ ucFirst "Name" = Ret y →
        String.length y = String.length "Name").
Proof.
  apply (proj2 (proj2 (X1_first_letter_case_round_trip "Name")) "N"%char "ame").
  - reflexivity.
  - reflexivity.
Defined.

(** X2 on the folder [A]: [name] and [Name] resolve alike. *)
Lemma X2_witness :
  fieldValue exTypeFunc exFolderA "name" = fieldValue exTypeFunc exFolderA "Name".
Proof.
  apply (X2_fieldValue_ignores_first_letter_case exTypeFunc exFolderA "name" "Name").
  reflexivity.
Defined.

(** X3 on the folder [A]: [self.value] is the value of the field [Value] of
    the record [Self]. *)
Lemma X3_witness :
  ∃ pre s x v val f,
    split_on "." "self.value" = pre ++ [s] ∧ reaches (indirect exFolderA) pre v ∧
    ucFirst s = Ret x ∧
    Value_FieldByName v x = Ret (Some val) ∧ isEmpty val = false ∧
    Type_FieldByName (Value_Type v) x = Ret (Some f) ∧
    sf_Type f = Value_Type val ∧
    fieldValueInterface exTypeFunc f val = Ret (Some (VString "A")).
Proof.
  apply (X3_fieldValue_result_is_converted_last_field exTypeFunc exFolderA
           "self.value" (Some (VString "A"))).
  vm_compute. reflexivity.
Defined.

(** X4 on the folder [A]: the record [Self] has no field [Bogus]. *)
Lemma X4_witness :
  ∃ pre s post x v,
    split_on "." "self.bogus" = pre ++ s :: post ∧ reaches (indirect exFolderA) pre v ∧
    ucFirst s = Ret x ∧ Value_FieldByName v x = Ret None.
Proof.
  apply (X4_fieldValue_errors_only_for_missing_or_empty_segment exTypeFunc exFolderA
           "self.bogus" errMissingField).
  vm_compute. reflexivity.
Defined.

(** X5 on the folder [A]: a path ending in a dot, and a path that runs on
    through the string [Name]. *)
Lemma X5_witness :
  fieldValue exTypeFunc exFolderA "name." = Panic BoundsPanic ∧
  fieldValue exTypeFunc exFolderA "name.length" = Panic ReflectPanic.
Proof.
  split.
  - apply (proj1 (X5_fieldValue_panics_on_empty_segment_and_non_record exTypeFunc
                    exFolderA "name." ["name"] [] "" (VString "a") eq_refl
                    (reaches_cons exFolderA "name" "Name" (VString "a") [] (VString "a")
                       eq_refl eq_refl eq_refl (reaches_nil _)))).
    reflexivity.
  - apply (proj2 (X5_fieldValue_panics_on_empty_segment_and_non_record exTypeFunc
                    exFolderA "name.length" ["name"] [] "length" (VString "a") eq_refl
                    (reaches_cons exFolderA "name" "Name" (VString "a") [] (VString "a")
                       eq_refl eq_refl eq_refl (reaches_nil _)))).
    + discriminate.
    + discriminate.
Defined.

(** X7 on the children of the folder [A]. *)
Lemma X7_witness :
  (∀ r, fieldRefs (Some (ref_value r)) = Ret [r] ∧
        fieldRefs (Some (VPtr (ref_value r))) = Ret [r]) ∧
  (fieldValueInterface exTypeFunc exChildEntityField
     (VSlice TManagedObjectReference (ref_value <$> [exB; exC])) ≫= fieldRefs)
  = Ret [exB; exC].
Proof.
  apply (X7_fieldRefs_reads_back_wrapped_references exTypeFunc exChildEntityField
           [exB; exC]).
  - reflexivity.
  - reflexivity.
Defined.

(** X8 on the folder [A]: the nil [Parent] is left out, the fields of the
    embedded records are reported. *)
Lemma X8_witness :
  oc_Obj exWildcard = exA ∧
  oc_MissingSet exWildcard = [] ∧
  ∃ ps, oc_PropSet exWildcard = [] ++ ps ∧
        Forall2 (reports exTypeFunc) (all_fields exFolderA) ps ∧
        Forall (λ fld, isEmpty (fbody fld) = false ∧ fanon fld = false)
               (all_fields exFolderA).
Proof.
  apply (X8_collectAll_reports_the_non_empty_fields exTypeFunc exFolderA
           (mkObjectContent exA [] []) exWildcard).
  vm_compute. reflexivity.
Defined.

(** X10 on the folder [A]: [name] and [childEntity] asked for by two
    property specs and by one. *)
Lemma X10_witness :
  foldM (collect_prop exTypeFunc (initial exCycleRequest ∅) exA exFolderA
           (TStruct moPkg "Folder" exFolderFields))
    [mkPropertySpec "Folder" None ["name"]; mkPropertySpec "Folder" None ["childEntity"]]
    (mkObjectContent exA [] [], []) =
  collect_prop exTypeFunc (initial exCycleRequest ∅) exA exFolderA
    (TStruct moPkg "Folder" exFolderFields) (mkObjectContent exA [] [], [])
    (mkPropertySpec "Folder" None (["name"] ++ ["childEntity"])).
Proof.
  apply (X10_path_sets_of_one_type_compose exTypeFunc (initial exCycleRequest ∅) exA
           exFolderA (TStruct moPkg "Folder" exFolderFields)
           (mkObjectContent exA [] [], []) "Folder" None ["name"] ["childEntity"]).
  reflexivity.
Defined.

(** X11 on the inventory, where [B] points back to [A]. *)
Lemma X11_witness :
  (∀ x, x ∈ [exA; exB; exC] → x ∈ (oc_Obj <$> Objects exCycleResult)) ∧
  (∀ c, c ∈ Objects exCycleResult →
     ∃ found, visited exTypeFunc exMap exCycleRequest ({["childEntity"]} ∪ ∅) c found ∧
              ∀ x, x ∈ found → x ∈ (oc_Obj <$> Objects exCycleResult)).
Proof.
  apply (X11_result_is_closed_under_visits exTypeFunc exMap exCycleRequest
           ({["childEntity"]} ∪ ∅) [exA; exB; exC] exCycleResult).
  - vm_compute. reflexivity.
  - vm_compute. reflexivity.
Defined.

(** X12 on the inventory: the object content of [B] stands at position 1. *)
Lemma X12_witness :
  oc_Obj exCycleSecond ∈ [exA; exB; exC] ∨
  ∃ j p found, j < 1 ∧ Objects exCycleResult !! j = Some p ∧
               visited exTypeFunc exMap exCycleRequest ({["childEntity"]} ∪ ∅) p found ∧
               oc_Obj exCycleSecond ∈ found.
Proof.
  apply (X12_discovered_objects_follow_their_parent exTypeFunc exMap exCycleRequest
           ({["childEntity"]} ∪ ∅) [exA; exB; exC] exCycleResult 1 exCycleSecond).
  - vm_compute. reflexivity.
  - vm_compute. reflexivity.
  - reflexivity.
Defined.

(** X13 on the folders [A] and [C], asked for in either order: the object
    content of [C] is returned both times. *)
Lemma X13_witness :
  mkObjectContent exC [mkDynamicProperty "name" (Some (VString "c"))] [] ∈
    Objects (result_of (pc_collect exTypeFunc exMap (exFlatRequest [exA; exC]))) ↔
  mkObjectContent exC [mkDynamicProperty "name" (Some (VString "c"))] [] ∈
    Objects (result_of (pc_collect exTypeFunc exMap (exFlatRequest [exC; exA]))).
Proof.
  apply (X13_result_set_is_independent_of_seed_order exTypeFunc exMap
           (exFlatRequest [exA; exC]) (exFlatRequest [exC; exA]) ∅
           [exA; exC] [exC; exA]).
  - vm_compute. reflexivity.
  - vm_compute. reflexivity.
  - reflexivity.
  - intros x. rewrite !elem_of_cons. tauto.
  - vm_compute. reflexivity.
  - vm_compute. reflexivity.
Defined.

(** X14 on the folders [A], [C] and [A] again. *)
Lemma X14_witness :
  oc_Obj <$> Objects (result_of (pc_collect exTypeFunc exMap
                                   (exFlatRequest [exA; exC; exA])))
  = first_seen [exA; exC; exA].
Proof.
  apply (X14_unmarked_call_returns_seed_in_order exTypeFunc exMap
           (exFlatRequest [exA; exC; exA]) [exA; exC; exA]).
  - vm_compute. reflexivity.
  - vm_compute. reflexivity.
Defined.

(** X16 on a request whose only filter spec names no object. *)
Lemma X16_witness :
  pc_collect exTypeFunc exMap
    (mkRetrievePropertiesEx (mkRef "PropertyCollector" "pc")
       [mkPropertyFilterSpec exNameSpec [] None] (mkRetrieveOptions 0)) =
    Done (inl (mkRetrieveResult "" [])) ∧
  RetrieveProperties exTypeFunc exMap _ exFault
    (mkRetrieveProperties (mkRef "PropertyCollector" "pc")
       [mkPropertyFilterSpec exNameSpec [] None]) =
    Done (mkRetrievePropertiesBody (Some (mkRetrievePropertiesResponse [])) None).
Proof.
  apply (X16_request_without_objects_returns_empty_result exTypeFunc exMap _ exFault
           (mkRetrieveProperties (mkRef "PropertyCollector" "pc")
              [mkPropertyFilterSpec exNameSpec [] None])).
  intros spec ->%list_elem_of_singleton. reflexivity.
Defined.

(** X17 on the inventory: [childEntity] is marked, and the root [A] and
    its children are selected. *)
Lemma X17_witness :
  (∀ spec o name ty path skip nested,
     spec ∈ rpx_SpecSet exCycleRequest → o ∈ pfs_ObjectSet spec →
     is_Some (exMap !! os_Obj o) →
     TraversalSpec name ty path skip (Some nested) ∈ range (os_SelectSet o) →
     path ∈ ({["childEntity"]} ∪ ∅ : gset string)) ∧
  (∀ spec o x, spec ∈ rpx_SpecSet exCycleRequest → o ∈ pfs_ObjectSet spec →
     seeded_by exTypeFunc exMap o x → x ∈ [exA; exB; exC]).
Proof.
  apply (X17_seed_loop_marks_and_selects_completely exTypeFunc exMap exCycleRequest
           ({["childEntity"]} ∪ ∅) [exA; exB; exC]).
  vm_compute. reflexivity.
Defined.

(** X18 on the inventory: the root [A] is answered. *)
Lemma X18_witness :
  exA ∈ (oc_Obj <$> Objects exCycleResult) ∧ is_Some (exMap !! exA).
Proof.
  apply (X18_selected_references_are_answered exTypeFunc exMap exCycleRequest
           exCycleResult
           (mkPropertyFilterSpec [mkPropertySpec "Folder" None ["name"; "childEntity"]]
              [exCycleRoot] None)
           exCycleRoot exA).
  - vm_compute. reflexivity.
  - apply list_elem_of_here.
  - apply list_elem_of_here.
  - exists (VPtr exFolderA). split; [reflexivity|]. left. split; reflexivity.
Defined.

(** X19 on the folder [A], asked for the name of a virtual machine. *)
Lemma X19_witness :
  visit exTypeFunc exMap
    (initial (exRequest [mkPropertySpec "VirtualMachine" None ["name"]]
                [mkObjectSpec exA None None] None) ∅) exA
  = Ret (mkObjectContent exA [] [], []).
Proof.
  apply (X19_object_without_applicable_spec_is_returned_bare exTypeFunc exMap
           (initial (exRequest [mkPropertySpec "VirtualMachine" None ["name"]]
                       [mkObjectSpec exA None None] None) ∅)
           exA exFolderA moPkg "Folder" exFolderFields).
  - reflexivity.
  - intros spec p ->%list_elem_of_singleton ->%list_elem_of_singleton.
    split; [discriminate|].
    intros (_ & f & Hp & _).
    destruct (Type_FieldByName_promoted moPkg "Folder" exFolderFields "VirtualMachine")
      as (o & Ho & Hiff); [discriminate|].
    apply Hiff in Hp. subst o. vm_compute in Ho. discriminate.
Defined.

(** X20 on the folder [A]: a spec for [ManagedEntity] and a spec for
    [Folder], both asking for [childEntity]. *)
Lemma X20_witness :
  collect_prop exTypeFunc (initial exCycleRequest ∅) exA exFolderA
    (TStruct moPkg "Folder" exFolderFields) (mkObjectContent exA [] [], [])
    (mkPropertySpec "ManagedEntity" None ["childEntity"]) =
  collect_prop exTypeFunc (initial exCycleRequest ∅) exA exFolderA
    (TStruct moPkg "Folder" exFolderFields) (mkObjectContent exA [] [], [])
    (mkPropertySpec "Folder" None ["childEntity"]).
Proof.
  apply (X20_type_of_applicable_spec_does_not_restrict_fields exTypeFunc
           (initial exCycleRequest ∅) exA exFolderA moPkg "Folder" exFolderFields
           (mkObjectContent exA [] [], []) "ManagedEntity" "Folder" None ["childEntity"]).
  - right. split; [discriminate|].
    destruct (Type_FieldByName_promoted moPkg "Folder" exFolderFields "ManagedEntity")
      as (o & Ho & Hiff); [discriminate|].
    vm_compute in Ho. injection Ho as <-.
    eexists. split; [by apply Hiff|reflexivity].
  - left. reflexivity.
Defined.

(** X21 on the folder [A]: a wildcard spec that lists the marked path
    [childEntity] hands on none of the children. *)
Lemma X21_witness :
  collect_prop exTypeFunc (initial exCycleRequest {["childEntity"]}) exA exFolderA
    (TStruct moPkg "Folder" exFolderFields) (mkObjectContent exA [] [], [])
    (mkPropertySpec "Folder" (Some true) ["childEntity"]) =
  collect_prop exTypeFunc (initial exCycleRequest {["childEntity"]}) exA exFolderA
    (TStruct moPkg "Folder" exFolderFields) (mkObjectContent exA [] [], [])
    (mkPropertySpec "Folder" (Some true) []) ∧
  (exWildcard, @nil ManagedObjectReference).2 = [] ∧
  oc_MissingSet (exWildcard, @nil ManagedObjectReference).1 = [].
Proof.
  pose proof (X21_wildcard_spec_ignores_paths_and_hands_on_nothing exTypeFunc
                (initial exCycleRequest {["childEntity"]}) exA exFolderA
                (TStruct moPkg "Folder" exFolderFields) (mkObjectContent exA [] [], [])
                "Folder" (Some true) ["childEntity"] eq_refl) as [Hsame Hnone].
  split; [exact Hsame|].
  apply (Hnone (exWildcard, [])). vm_compute. reflexivity.
Defined.
